(** * DEUS: fragility model, intensity lookup and damage summaries

    A shallow embedding of the parts of the Damage-Exposure-Update-Service
    that carry its algorithmic content:

    - [fragility.py]: the function factories with their caches, the
      [CachedFunction] wrapper, [DamageState] and its evaluation, the parser
      of fragility definitions with its two regular expressions, and the
      completion of the damage-state lattice;
    - [rasterwrapper.py]: the bounding-box test of a raster;
    - [create_shapefile.py]: [dx_to_int] and [compute_weighted_damage].

    Python objects with identity (the cached functions) live in an explicit
    store and are referred to by address; Python exceptions are values of
    [exn]; the code that mutates the store runs in a state-and-exception
    monad [M]. *)

From Stdlib Require Import ZArith QArith Qcanon Qfield Lia Ascii String.
From Stdlib Require Reals Lra Qreals Factorial.
From stdpp Require Import gmap strings list pretty.

Local Open Scope Z_scope.

(** ** Exceptions and results *)

Inductive exn : Type :=
  | KeyError
  | AttributeError
  | ValueError
  | TypeError
  | IndexError
  | ZeroDivisionError
  | Exception (msg : string).

Definition result (A : Type) : Type := exn + A.

Abbreviation Ok a := (@inr exn _ a).
Abbreviation Raise e := (@inl exn _ e).

Definition raises {A} (r : result A) : Prop := ∃ e, r = inl e.

Definition result_bind {A B} (r : result A) (k : A → result B) : result B :=
  match r with
  | inl e => inl e
  | inr a => k a
  end.

(** ** Python strings *)

Module PyStr.

Definition startswith (s p : string) : bool := String.prefix p s.

Fixpoint rev_chars (s : string) (acc : string) : string :=
  match s with
  | EmptyString => acc
  | String c s' => rev_chars s' (String c acc)
  end.

Definition reverse (s : string) : string := rev_chars s EmptyString.

Definition endswith (s p : string) : bool :=
  String.prefix (reverse p) (reverse s).

(** [str.upper] on the ASCII range: [a]..[z] become [A]..[Z]. *)
Definition upper_char (c : ascii) : ascii :=
  let n := nat_of_ascii c in
  if ((97 <=? n) && (n <=? 122))%nat then ascii_of_nat (n - 32) else c.

Fixpoint upper (s : string) : string :=
  match s with
  | EmptyString => EmptyString
  | String c s' => String (upper_char c) (upper s')
  end.

(** [str.replace(old, new)]: every non-overlapping occurrence, scanning
    from the left.  [old] is not empty at the one call site. *)
Fixpoint drop_chars (n : nat) (s : string) : string :=
  match n, s with
  | O, _ => s
  | S n', String _ s' => drop_chars n' s'
  | S _, EmptyString => EmptyString
  end.

Fixpoint replace_go (fuel : nat) (old new s : string) : string :=
  match fuel with
  | O => s
  | S fuel' =>
      if String.prefix old s
      then new +:+ replace_go fuel' old new (drop_chars (String.length old) s)
      else match s with
           | EmptyString => EmptyString
           | String c s' => String c (replace_go fuel' old new s')
           end
  end.

Definition replace (s old new : string) : string :=
  replace_go (S (String.length s)) old new s.

(** [\d] and [int] on one character, ASCII digits. *)
Definition is_digit (c : ascii) : bool :=
  let n := nat_of_ascii c in ((48 <=? n) && (n <=? 57))%nat.

Definition digit_value (c : ascii) : Z := Z.of_nat (nat_of_ascii c) - 48.

Definition digit_char (n : Z) : ascii := ascii_of_nat (Z.to_nat (n + 48)).

End PyStr.

(** ** Regular expressions

    The two patterns of the parser use anchors, literals, one optional
    literal and one capturing group around [\d].  [re.search] tries every
    start position from the left; an optional atom is greedy and is given
    up on backtracking. *)

Module Re.

Inductive atom : Type :=
  | Bol                  (* ^ *)
  | Eol                  (* $ *)
  | Chr (c : ascii)      (* a literal character *)
  | Opt (c : ascii)      (* c? *)
  | DigitGroup.          (* (\d) *)

Definition pattern := list atom.

Definition ascii_eqb (a b : ascii) : bool := Ascii.eqb a b.

(** [match_here p bol s g]: match [p] against a prefix of [s]; [bol] tells
    whether [s] starts at the beginning of the subject, [g] is group 1 so
    far.  [$] matches at the end and before a newline that ends the
    subject. *)
Fixpoint match_here (p : pattern) (bol : bool) (s : string)
    (g : option ascii) : option (option ascii) :=
  match p with
  | [] => Some g
  | Bol :: p' => if bol then match_here p' bol s g else None
  | Eol :: p' =>
      match s with
      | EmptyString => match_here p' bol s g
      | String c EmptyString =>
          if ascii_eqb c "010" then match_here p' bol s g else None
      | _ => None
      end
  | Chr c :: p' =>
      match s with
      | String a s' => if ascii_eqb a c then match_here p' false s' g else None
      | EmptyString => None
      end
  | Opt c :: p' =>
      match s with
      | String a s' =>
          if ascii_eqb a c then
            match match_here p' false s' g with
            | Some r => Some r
            | None => match_here p' bol s g
            end
          else match_here p' bol s g
      | EmptyString => match_here p' bol s g
      end
  | DigitGroup :: p' =>
      match s with
      | String a s' =>
          if PyStr.is_digit a then match_here p' false s' (Some a) else None
      | EmptyString => None
      end
  end.

Fixpoint search_from (p : pattern) (bol : bool) (s : string)
    : option (option ascii) :=
  match match_here p bol s None with
  | Some g => Some g
  | None =>
      match s with
      | EmptyString => None
      | String _ s' => search_from p false s'
      end
  end.

(** [re.search(p, s)]: [None] when nothing matches, else the match, of
    which only group 1 is used. *)
Definition search (p : pattern) (s : string) : option (option ascii) :=
  search_from p true s.

(** [m.group(1)] on the result of [search]: [AttributeError] on [None]. *)
Definition group1 (m : option (option ascii)) : result ascii :=
  match m with
  | Some (Some c) => Ok c
  | _ => Raise AttributeError
  end.

Definition lits (s : string) : pattern := Chr <$> list_ascii_of_string s.

(** [(\d)_mean$] *)
Definition to_state_re : pattern := DigitGroup :: lits "_mean" ++ [Eol].

(** [^D_?(\d)_] *)
Definition from_state_re : pattern :=
  [Bol; Chr "D"; Opt "_"; DigitGroup; Chr "_"].

End Re.

(** ** Damage states *)

Abbreviation addr := nat.

Record DamageState : Type := mkDamageState {
  taxonomy : string;
  from_state : Z;
  to_state : Z;
  intensity_field : string;
  intensity_unit : string;
  fragility_function : addr
}.

(** [DamageState.__init__]: the measure name is stored in upper case. *)
Definition DamageState_init (taxonomy : string) (from_state to_state : Z)
    (intensity_field intensity_unit : string) (fragility_function : addr)
    : DamageState :=
  mkDamageState taxonomy from_state to_state (PyStr.upper intensity_field)
    intensity_unit fragility_function.

Definition at_pair (i j : Z) (ds : DamageState) : Prop :=
  from_state ds = i ∧ to_state ds = j.

Global Instance at_pair_dec i j ds : Decision (at_pair i j ds).
Proof. unfold at_pair. apply _. Defined.

(** ** Lattice completion *)

(** [max(xs)] of Python: [ValueError] on the empty list. *)
Definition py_max (xs : list Z) : result Z :=
  match xs with
  | [] => Raise ValueError
  | x :: xs' => Ok (foldl Z.max x xs')
  end.

(** [range(a, b)] *)
Definition py_range (a b : Z) : list Z := seqZ a (b - a).

(** The body of the inner loop of
    [_add_damage_states_if_missing_to_dataset_list]. *)
Definition add_if_missing (from_damage_state to_damage_state : Z)
    (damage_states : list DamageState) : list DamageState :=
  let ds_option :=
    filter (at_pair from_damage_state to_damage_state) damage_states in
  match ds_option with
  | _ :: _ => damage_states
  | [] =>
      let ds_option_lower :=
        filter (at_pair (from_damage_state - 1) to_damage_state)
          damage_states in
      match ds_option_lower with
      | ds_lower :: _ =>
          let ds_new :=
            DamageState_init (taxonomy ds_lower) (from_state ds_lower + 1)
              (to_state ds_lower) (intensity_field ds_lower)
              (intensity_unit ds_lower) (fragility_function ds_lower) in
          damage_states ++ [ds_new]
      | [] => damage_states
      end
  end.

Definition add_for_from_state (max_damage_state from_damage_state : Z)
    (damage_states : list DamageState) : list DamageState :=
  foldl (λ dss to_damage_state,
           add_if_missing from_damage_state to_damage_state dss)
    damage_states (py_range 1 (max_damage_state + 1)).

Definition _add_damage_states_if_missing_to_dataset_list
    (damage_states : list DamageState) : result (list DamageState) :=
  result_bind (py_max (to_state <$> damage_states)) (λ max_damage_state,
    Ok (foldl (λ dss from_damage_state,
                 add_for_from_state max_damage_state from_damage_state dss)
          damage_states (py_range 0 max_damage_state))).

(** ** Python dicts that keep insertion order *)

Module PyDict.

Section Dict.
Context {V : Type}.

Definition dict := list (string * V).

Fixpoint get (k : string) (d : dict) : option V :=
  match d with
  | [] => None
  | (k', v) :: d' => if decide (k' = k) then Some v else get k d'
  end.

(** [d[k]]: [KeyError] when the key is absent. *)
Definition getitem (k : string) (d : dict) : result V :=
  match get k d with
  | Some v => Ok v
  | None => Raise KeyError
  end.

Definition keys (d : dict) : list string := fst <$> d.

(** [d[k] = f(d[k])] for a [defaultdict] with default [dflt]: an absent
    key is added at the end. *)
Fixpoint update (k : string) (dflt : V) (f : V → V) (d : dict) : dict :=
  match d with
  | [] => [(k, f dflt)]
  | (k', v) :: d' =>
      if decide (k' = k) then (k', f v) :: d'
      else (k', v) :: update k dflt f d'
  end.

End Dict.

Arguments dict : clear implicits.

End PyDict.

(** ** The store of function objects, factories and the monad *)

Section Store.

(** [num] is the type of Python numbers (JSON numbers, intensities), with
    the equality of [==] and [hash]; [prob] is the type of the values a
    distribution function returns. *)
Context {num : Type} `{Countable num} {prob : Type}.

(** [lognorm(scale=np.exp(mean), s=stddev).cdf] and
    [norm(loc=mean, scale=stddev).cdf] of scipy. *)
Variable lognorm_cdf : num → num → num → prob.
Variable norm_cdf : num → num → num → prob.

Record CachedFunction : Type := mkCachedFunction {
  inner_function : num → prob;
  cache : gmap num prob
}.

(** [CachedFunction.__init__] *)
Definition CachedFunction_init (inner_function : num → prob)
    : CachedFunction :=
  mkCachedFunction inner_function ∅.

(** [FactoryCacheKey(mean, stddev)] *)
Definition FactoryCacheKey (mean stddev : num) : num * num := (mean, stddev).

(** The objects of the process: the cached functions, by address, and the
    caches of the two factories of
    [SUPPORTED_FRAGILITY_FUNCTION_FACTORIES]. *)
Record World : Type := mkWorld {
  heap : list CachedFunction;
  logncdf_cache : gmap (num * num) addr;
  normcdf_cache : gmap (num * num) addr
}.

(** The state after the module is loaded. *)
Definition initial_world : World := mkWorld [] ∅ ∅.

Definition M (A : Type) : Type := World → result A * World.

Definition ret {A} (a : A) : M A := λ w, (Ok a, w).

Definition bind {A B} (m : M A) (k : A → M B) : M B :=
  λ w, match m w with
       | (inl e, w') => (inl e, w')
       | (inr a, w') => k a w'
       end.

Definition lift {A} (r : result A) : M A := λ w, (r, w).

Definition raise {A} (e : exn) : M A := lift (Raise e).

(** [CachedFunction(inner_function)]: a new object in the store. *)
Definition new_CachedFunction (inner_function : num → prob) : M addr :=
  λ w, (Ok (length (heap w)),
        mkWorld (heap w ++ [CachedFunction_init inner_function])
          (logncdf_cache w) (normcdf_cache w)).

(** [CachedFunction.__call__]; calling what is no function object is a
    [TypeError] of Python. *)
Definition CachedFunction_call (self : addr) (value : num) : M prob :=
  λ w, match heap w !! self with
       | None => (Raise TypeError, w)
       | Some f =>
           match cache f !! value with
           | Some r => (Ok r, w)
           | None =>
               let result := inner_function f value in
               (Ok result,
                mkWorld
                  (<[self := mkCachedFunction (inner_function f)
                               (<[value := result]> (cache f))]> (heap w))
                  (logncdf_cache w) (normcdf_cache w))
           end
       end.

(** [LogncdfFactory.__call__] on the factory of the module. *)
Definition LogncdfFactory_call (mean stddev : num) : M addr :=
  λ w, let key := FactoryCacheKey mean stddev in
       match logncdf_cache w !! key with
       | Some r => (Ok r, w)
       | None =>
           let func := lognorm_cdf mean stddev in
           match new_CachedFunction func w with
           | (inr result, w') =>
               (Ok result,
                mkWorld (heap w') (<[key := result]> (logncdf_cache w'))
                  (normcdf_cache w'))
           | (inl e, w') => (inl e, w')
           end
       end.

(** [NormCdfFactory.__call__] on the factory of the module. *)
Definition NormCdfFactory_call (mean stddev : num) : M addr :=
  λ w, let key := FactoryCacheKey mean stddev in
       match normcdf_cache w !! key with
       | Some r => (Ok r, w)
       | None =>
           let func := norm_cdf mean stddev in
           match new_CachedFunction func w with
           | (inr result, w') =>
               (Ok result,
                mkWorld (heap w') (logncdf_cache w')
                  (<[key := result]> (normcdf_cache w')))
           | (inl e, w') => (inl e, w')
           end
       end.

Definition SUPPORTED_FRAGILITY_FUNCTION_FACTORIES
    : PyDict.dict (num → num → M addr) :=
  [("logncdf", LogncdfFactory_call); ("normcdf", NormCdfFactory_call)].

(** [DamageState.get_probability_for_intensity] *)
Definition get_probability_for_intensity (self : DamageState)
    (intensity : gmap string num) (units : gmap string string) : M prob :=
  let field := intensity_field self in
  match intensity !! field with
  | None => raise KeyError
  | Some value =>
      match units !! field with
      | None => raise KeyError
      | Some unit =>
          if decide (unit ≠ intensity_unit self)
          then raise (Exception "Not supported unit")
          else CachedFunction_call (fragility_function self) value
      end
  end.

(** ** Fragility definitions and their parser *)

(** One record of the ["data"] list: the three descriptive entries and, in
    the order of the record, its numeric entries. *)
Record Dataset : Type := mkDataset {
  d_taxonomy : string;
  d_imt : string;
  d_imu : string;
  d_values : PyDict.dict num
}.

Record FragilityData : Type := mkFragilityData {
  meta_shape : string;
  meta_id : string;
  data : list Dataset
}.

Record FragilityProvider : Type := mkFragilityProvider {
  _damage_states_by_taxonomy : PyDict.dict (list DamageState);
  schema : string
}.

(** [get_damage_states_for_taxonomy]: the dict is a [defaultdict(list)],
    an unknown taxonomy has the empty list. *)
Definition get_damage_states_for_taxonomy (self : FragilityProvider)
    (taxonomy : string) : list DamageState :=
  default [] (PyDict.get taxonomy (_damage_states_by_taxonomy self)).

Definition get_taxonomies (self : FragilityProvider) : list string :=
  PyDict.keys (_damage_states_by_taxonomy self).

Definition is_mean_key (k : string) : bool :=
  PyStr.startswith k "D" && PyStr.endswith k "_mean".

(** The body of the loop over the [D..._mean] keys of one record, up to
    the construction of the [DamageState]. *)
Definition parse_damage_state (fragility_function : num → num → M addr)
    (dataset : Dataset) (damage_state_mean_key : string) : M DamageState :=
  bind (lift (Re.group1 (Re.search Re.to_state_re damage_state_mean_key)))
    (λ to_digit,
  let to_state := PyStr.digit_value to_digit in
  bind (lift (Re.group1 (Re.search Re.from_state_re damage_state_mean_key)))
    (λ from_digit,
  let from_state := PyStr.digit_value from_digit in
  let from_state := if decide (to_state = from_state) then 0 else from_state in
  bind (lift (PyDict.getitem damage_state_mean_key (d_values dataset)))
    (λ mean,
  bind (lift (PyDict.getitem
                (PyStr.replace damage_state_mean_key "_mean" "_stddev")
                (d_values dataset)))
    (λ stddev,
  bind (fragility_function mean stddev) (λ f,
  ret (DamageState_init (d_taxonomy dataset) from_state to_state
         (d_imt dataset) (d_imu dataset) f)))))).

Fixpoint for_keys (fragility_function : num → num → M addr)
    (dataset : Dataset) (keys : list string)
    (damage_states_by_taxonomy : PyDict.dict (list DamageState))
    : M (PyDict.dict (list DamageState)) :=
  match keys with
  | [] => ret damage_states_by_taxonomy
  | damage_state_mean_key :: keys' =>
      bind (parse_damage_state fragility_function dataset
              damage_state_mean_key) (λ damage_state,
      for_keys fragility_function dataset keys'
        (PyDict.update (d_taxonomy dataset) []
           (λ l, (l ++ [damage_state])%list) damage_states_by_taxonomy))
  end.

Definition mean_keys (dataset : Dataset) : list string :=
  List.filter is_mean_key (PyDict.keys (d_values dataset)).

Fixpoint for_datasets (fragility_function : num → num → M addr)
    (datasets : list Dataset)
    (damage_states_by_taxonomy : PyDict.dict (list DamageState))
    : M (PyDict.dict (list DamageState)) :=
  match datasets with
  | [] => ret damage_states_by_taxonomy
  | dataset :: datasets' =>
      bind (for_keys fragility_function dataset (mean_keys dataset)
              damage_states_by_taxonomy)
        (for_datasets fragility_function datasets')
  end.

(** [Fragility._add_damage_states_if_missing] *)
Fixpoint _add_damage_states_if_missing
    (damage_states_by_taxonomy : PyDict.dict (list DamageState))
    : result (PyDict.dict (list DamageState)) :=
  match damage_states_by_taxonomy with
  | [] => Ok []
  | (taxonomy, damage_states) :: rest =>
      result_bind
        (_add_damage_states_if_missing_to_dataset_list damage_states)
        (λ completed,
      result_bind (_add_damage_states_if_missing rest) (λ rest',
      Ok ((taxonomy, completed) :: rest')))
  end.

Definition to_fragility_provider_with_specified_fragility_function
    (self : FragilityData) (fragility_function : num → num → M addr)
    : M FragilityProvider :=
  bind (for_datasets fragility_function (data self) [])
    (λ damage_states_by_taxonomy,
  bind (lift (_add_damage_states_if_missing damage_states_by_taxonomy))
    (λ completed,
  let schema := meta_id self in
  ret (mkFragilityProvider completed schema))).

Definition to_fragility_provider (self : FragilityData)
    : M FragilityProvider :=
  let shape := meta_shape self in
  bind (lift (PyDict.getitem shape SUPPORTED_FRAGILITY_FUNCTION_FACTORIES))
    (λ fragility_function,
  to_fragility_provider_with_specified_fragility_function self
    fragility_function).

(** ** Histories

    What a client can do with the store: call either factory, wrap a
    function of its own, call a function object.  [run] performs a
    sequence of such operations and drops their results; an operation that
    raises leaves the store as the exception found it. *)

Inductive op : Type :=
  | OpLogncdf (mean stddev : num)
  | OpNormcdf (mean stddev : num)
  | OpNew (inner_function : num → prob)
  | OpCall (self : addr) (value : num).

Definition run_op (o : op) (w : World) : World :=
  match o with
  | OpLogncdf mean stddev => snd (LogncdfFactory_call mean stddev w)
  | OpNormcdf mean stddev => snd (NormCdfFactory_call mean stddev w)
  | OpNew f => snd (new_CachedFunction f w)
  | OpCall self value => snd (CachedFunction_call self value w)
  end.

Definition run (ops : list op) (w : World) : World := foldl (flip run_op) w ops.

(** What an operation shows to its caller: an address or a value. *)
Definition observe_op (o : op) (w : World) : result (addr + prob) :=
  match o with
  | OpLogncdf mean stddev =>
      result_bind (fst (LogncdfFactory_call mean stddev w)) (λ a, Ok (inl a))
  | OpNormcdf mean stddev =>
      result_bind (fst (NormCdfFactory_call mean stddev w)) (λ a, Ok (inl a))
  | OpNew f => result_bind (fst (new_CachedFunction f w)) (λ a, Ok (inl a))
  | OpCall self value =>
      result_bind (fst (CachedFunction_call self value w)) (λ r, Ok (inr r))
  end.

Fixpoint observe (ops : list op) (w : World) : list (result (addr + prob)) :=
  match ops with
  | [] => []
  | o :: ops' => observe_op o w :: observe ops' (run_op o w)
  end.

End Store.

Local Open Scope Q_scope.

(** ** Rasters *)

Module Raster.

Definition Qltb (x y : Q) : bool := negb (Qle_bool y x).

(** [raster_reader.bounds] *)
Record BoundingBox : Type := mkBoundingBox {
  left : Q;
  bottom : Q;
  right : Q;
  top : Q
}.

(** The reader of rasterio as far as the wrapper uses it: the bounds, the
    transform from coordinates to (row, column), and the bands. *)
Record RasterReader : Type := mkRasterReader {
  bounds : BoundingBox;
  index : Q → Q → Z * Z;
  read : list (list (list Q))
}.

Record RasterWrapper : Type := mkRasterWrapper {
  _raster_reader : RasterReader;
  _data : list (list (list Q))
}.

(** [RasterWrapper.__init__] *)
Definition RasterWrapper_init (raster_reader : RasterReader)
    : RasterWrapper :=
  mkRasterWrapper raster_reader (read raster_reader).

(** [RasterWrapper.is_location_in_bbox] *)
Definition is_location_in_bbox (self : RasterWrapper) (lon lat : Q) : bool :=
  let bbox := bounds (_raster_reader self) in
  if Qltb lon (left bbox) then false
  else if Qltb (right bbox) lon then false
  else if Qltb lat (bottom bbox) then false
  else if Qltb (top bbox) lat then false
  else true.

(** [a[i]] of numpy along one axis: a negative index counts from the end,
    an index out of range is an [IndexError]. *)
Definition np_item {A} (a : list A) (i : Z) : result A :=
  let n := Z.of_nat (length a) in
  let i' := if (i <? 0)%Z then (i + n)%Z else i in
  if ((0 <=? i') && (i' <? n))%Z then
    match a !! Z.to_nat i' with
    | Some x => Ok x
    | None => Raise IndexError
    end
  else Raise IndexError.

(** [RasterWrapper.get_sample] *)
Definition get_sample (self : RasterWrapper) (lon lat : Q) : result Q :=
  let idx := index (_raster_reader self) lon lat in
  result_bind (np_item (_data self) 0) (λ band,
  result_bind (np_item band (fst idx)) (λ row,
  np_item row (snd idx))).

(** Modelled from the spec: the grid intensity provider
    ([RasterIntensityProvider], whose module is not part of the sources at
    hand).  It holds a raster, the name of its measure, the unit and the
    not-available value; a lookup returns the value of the cell, or the
    not-available value when the coordinate falls outside the bounding box
    of the grid. *)
Record RasterIntensityProvider : Type := mkRasterIntensityProvider {
  raster : RasterWrapper;
  kind : string;
  unit : string;
  na_value : Q
}.

(** Modelled from the spec: the lookup of the grid intensity provider,
    returning the value mapping and the unit mapping. *)
Definition get_nearest (self : RasterIntensityProvider) (lon lat : Q)
    : result (gmap string Q * gmap string string) :=
  result_bind
    (if is_location_in_bbox (raster self) lon lat
     then get_sample (raster self) lon lat
     else Ok (na_value self))
    (λ value,
  Ok ({[ kind self := value ]}, {[ kind self := unit self ]})).

End Raster.

(** ** The redistribution step of the exposure update *)

Module Redistribution.

(** Modelled from the spec: the per-cell redistribution of the exposure
    update engine (its module is not part of the sources at hand).  [P t]
    is the cumulative exceedance probability of the damage state from the
    occupied state [s] to [t]; past the highest modelled state it is [0]
    by convention. *)
Definition exceedance (P : Z → Q) (max_state t : Z) : Q :=
  if decide (t ≤ max_state)%Z then P t else 0.

(** Modelled from the spec: the mass of reaching exactly [t]. *)
Definition mass_to (P : Z → Q) (max_state t : Z) : Q :=
  exceedance P max_state t - exceedance P max_state (t + 1).

(** Modelled from the spec: the residual mass of remaining in [s]. *)
Definition mass_stay (P : Z → Q) (max_state s : Z) : Q :=
  1 - exceedance P max_state (s + 1).

Definition target_states (max_state s : Z) : list Z :=
  py_range (s + 1) (max_state + 1).

(** Modelled from the spec: the probability masses of one occupied state,
    the residual first. *)
Definition masses (P : Z → Q) (max_state s : Z) : list Q :=
  mass_stay P max_state s :: (mass_to P max_state <$> target_states max_state s).

(** Modelled from the spec: the building counts after the transition, as
    pairs of a state and the expected number of buildings in it. *)
Definition redistribute (P : Z → Q) (max_state s : Z) (b : Q)
    : list (Z * Q) :=
  (s, b * mass_stay P max_state s)
    :: ((λ t, (t, b * mass_to P max_state t)) <$> target_states max_state s).

Definition Qsum (xs : list Q) : Q := foldr Qplus 0 xs.

End Redistribution.

(** ** The summary of the shapefile *)

Module Shapefile.

Definition is_space (c : ascii) : bool :=
  let n := nat_of_ascii c in
  ((n =? 32) || ((9 <=? n) && (n <=? 13)))%nat.

Fixpoint lstrip (s : string) : string :=
  match s with
  | String c s' => if is_space c then lstrip s' else s
  | EmptyString => EmptyString
  end.

Definition strip (s : string) : string :=
  PyStr.reverse (lstrip (PyStr.reverse (lstrip s))).

(** The digits of an [int] literal: at least one, single underscores
    between digits allowed.  [acc] is the value so far, [prev] tells
    whether the previous character was a digit. *)
Fixpoint int_digits (s : string) (acc : Z) (prev : bool) : option Z :=
  match s with
  | EmptyString => if prev then Some acc else None
  | String c s' =>
      if PyStr.is_digit c
      then int_digits s' (10 * acc + PyStr.digit_value c)%Z true
      else if Re.ascii_eqb c "_" && prev then int_digits s' acc false
      else None
  end.

(** [int(s)] on a string: blanks around, a sign, decimal digits. *)
Definition py_int (s : string) : result Z :=
  let body := strip s in
  let '(sign, digits) :=
    match body with
    | String "-" r => ((-1)%Z, r)
    | String "+" r => (1%Z, r)
    | _ => (1%Z, body)
    end in
  match int_digits digits 0 false with
  | Some n => Ok (sign * n)%Z
  | None => Raise ValueError
  end.

(** [dx_to_int]: [int(ds[1:])] *)
Definition dx_to_int (ds : string) : result Z :=
  py_int (PyStr.drop_chars 1 ds).

(** The columns of an [expo] table that the summary reads. *)
Record Expo : Type := mkExpo {
  Taxonomy : list string;
  Damage : list string;
  Buildings : list Q
}.

Fixpoint map_result {A B} (f : A → result B) (l : list A) : result (list B) :=
  match l with
  | [] => Ok []
  | x :: l' =>
      result_bind (f x) (λ y,
      result_bind (map_result f l') (λ ys, Ok (y :: ys)))
  end.

(** [a.sum()] of numpy *)
Definition np_sum (a : list Q) : Q := foldr Qplus 0 a.

(** [a * b] of numpy on one-dimensional arrays: element by element, an
    array of length one is broadcast, other lengths do not fit. *)
Definition np_mul (a b : list Q) : result (list Q) :=
  if decide (length a = length b) then Ok (zip_with Qmult a b)
  else match a, b with
       | [x], _ => Ok (Qmult x <$> b)
       | _, [y] => Ok ((λ x, x * y) <$> a)
       | _, _ => Raise ValueError
       end.

(** Division, with the zero divisor made visible. *)
Definition np_div (x y : Q) : result Q :=
  if Qeq_bool y 0 then Raise ZeroDivisionError else Ok (x / y).

(** [compute_weighted_damage] *)
Definition compute_weighted_damage (expo_dict : Expo) : result Q :=
  let buildings := Buildings expo_dict in
  result_bind (map_result dx_to_int (Damage expo_dict)) (λ damage_raw,
  let damage := inject_Z <$> damage_raw in
  let buildings_sum := np_sum buildings in
  if negb (Qeq_bool buildings_sum 0) then
    result_bind (np_mul buildings damage) (λ products,
    np_div (np_sum products) (np_sum buildings))
  else Ok 0).

End Shapefile.

Local Close Scope Q_scope.

(** * Auxiliary notions of the proofs *)

Definition count_pair (i j : Z) (l : list DamageState) : nat :=
  length (filter (at_pair i j) l).

Definition pair_of (d : DamageState) : Z * Z := (from_state d, to_state d).

Definition baseline_only (N : Z) (l : list DamageState) : Prop :=
  pair_of <$> l ≡ₚ (λ k, (0, k)) <$> seqZ 1 N.

(** Every state carries the function of a parsed state with the same
    target. *)
Definition from_parsed (l0 l : list DamageState) : Prop :=
  ∀ d, d ∈ l → ∃ d0, d0 ∈ l0 ∧ to_state d0 = to_state d
                    ∧ fragility_function d0 = fragility_function d.

(** Rows [0..f-1] are full, row [f] is filled up to column [t-1]. *)
Definition filled (N : Z) (l0 : list DamageState) (f t : Z)
    (l : list DamageState) : Prop :=
  from_parsed l0 l ∧
  ∀ i j, count_pair i j l =
         if decide (1 ≤ j ≤ N ∧ (0 ≤ i < f ∨ (i = f ∧ j < t)))
         then 1%nat else 0%nat.

Definition single_digits (ds : DamageState) : Prop :=
  0 ≤ from_state ds ≤ 9 ∧ 0 ≤ to_state ds ≤ 9.

Section WorldDefs.
Context {num : Type} `{Countable num} {prob : Type}.
Variable lognorm_cdf norm_cdf : num → num → num → prob.
Local Abbreviation World := (@World num _ _ prob).
Local Abbreviation CachedFunction := (@CachedFunction num _ _ prob).

(** What a function object has cached is what its function returns. *)
Definition cache_coherent (f : CachedFunction) : Prop :=
  ∀ x r, cache f !! x = Some r → r = inner_function f x.

(** What a factory has cached is an object of the store that wraps the
    distribution function of the key. *)
Definition factory_coherent (dist : num → num → num → prob)
    (factory_cache : gmap (num * num) addr) (w : World) : Prop :=
  ∀ mean stddev a, factory_cache !! (mean, stddev) = Some a →
    ∃ f, heap w !! a = Some f ∧ inner_function f = dist mean stddev.

Definition wf_world (w : World) : Prop :=
  Forall cache_coherent (heap w)
  ∧ factory_coherent lognorm_cdf (logncdf_cache w) w
  ∧ factory_coherent norm_cdf (normcdf_cache w) w.

(** The store only grows: objects stay where they are and keep their
    function, the factories keep what they have cached. *)
Definition extends (w w' : World) : Prop :=
  (length (heap w) ≤ length (heap w'))%nat
  ∧ (∀ a f, heap w !! a = Some f →
       ∃ f', heap w' !! a = Some f' ∧ inner_function f' = inner_function f)
  ∧ logncdf_cache w ⊆ logncdf_cache w'
  ∧ normcdf_cache w ⊆ normcdf_cache w'.
End WorldDefs.

Section SimDefs.
Context {num : Type} `{Countable num} {prob : Type}.
Variable lognorm_cdf norm_cdf : num → num → num → prob.
Local Abbreviation World := (@World num _ _ prob).

(** Two stores that differ at most in what the function objects have
    cached. *)
Definition same_objects (w w' : World) : Prop :=
  length (heap w) = length (heap w')
  ∧ (∀ a, inner_function <$> heap w !! a = inner_function <$> heap w' !! a)
  ∧ logncdf_cache w = logncdf_cache w'
  ∧ normcdf_cache w = normcdf_cache w'.

Definition similar (w w' : World) : Prop :=
  same_objects w w'
  ∧ wf_world lognorm_cdf norm_cdf w ∧ wf_world lognorm_cdf norm_cdf w'.
End SimDefs.

(** The two naming conventions, for single digits. *)
Definition key_baseline (suffix : string) (n : Z) : string :=
  String "D" (String (PyStr.digit_char n) suffix).

Definition key_explicit (suffix : string) (i j : Z) : string :=
  String "D" (String "_" (String (PyStr.digit_char i)
    (String "_" (String (PyStr.digit_char j) suffix)))).

(** [convention key stddev_key p]: [key] follows one of the conventions,
    [stddev_key] is its partner and [p] the transition it is read as. *)
Inductive convention : string → string → Z * Z → Prop :=
  | convention_baseline n :
      0 ≤ n ≤ 9 →
      convention (key_baseline "_mean" n) (key_baseline "_stddev" n) (0, n)
  | convention_explicit i j :
      0 ≤ i ≤ 9 → 0 ≤ j ≤ 9 →
      convention (key_explicit "_mean" i j) (key_explicit "_stddev" i j)
        (if decide (i = j) then 0 else i, j).

(** What the parser reads off a key: the pair and the partner key. *)
Definition read_key (key : string) : result (Z * Z * string) :=
  result_bind (Re.group1 (Re.search Re.to_state_re key)) (λ to_digit,
  result_bind (Re.group1 (Re.search Re.from_state_re key)) (λ from_digit,
  let to_state := PyStr.digit_value to_digit in
  let from_state := PyStr.digit_value from_digit in
  Ok (if decide (to_state = from_state) then 0 else from_state, to_state,
      PyStr.replace key "_mean" "_stddev"))).

Section ParserDefs.
Context {num : Type} `{Countable num} {prob : Type}.
Variable lognorm_cdf norm_cdf : num → num → num → prob.
Local Abbreviation M := (@M num _ _ prob).
Local Abbreviation World := (@World num _ _ prob).

(** The distribution function that a shape of [meta] declares. *)
Definition declared_cdf (shape : string) : num → num → num → prob :=
  if decide (shape = "logncdf") then lognorm_cdf else norm_cdf.

(** A factory that always delivers an object of the store wrapping
    [dist mean stddev]. *)
Definition factory_for (dist : num → num → num → prob)
    (factory : num → num → M addr) : Prop :=
  ∀ mean stddev (w : World), wf_world lognorm_cdf norm_cdf w →
    ∃ a w' f, factory mean stddev w = (Ok a, w')
      ∧ wf_world lognorm_cdf norm_cdf w' ∧ extends w w'
      ∧ heap w' !! a = Some f ∧ inner_function f = dist mean stddev.

(** [key] of [dataset] follows a convention and has its two values. *)
Definition well_formed_key (dataset : Dataset) (key : string) : Prop :=
  ∃ stddev_key p (mean stddev : num),
    convention key stddev_key p
    ∧ PyDict.get key (d_values dataset) = Some mean
    ∧ PyDict.get stddev_key (d_values dataset) = Some stddev.

(** [ds] is the damage state of [key]: the transition the key names, the
    descriptive entries of the record, and a function object for the
    distribution at the two values of the key. *)
Definition yields (dist : num → num → num → prob) (w : World)
    (dataset : Dataset) (key : string) (ds : DamageState) : Prop :=
  ∃ stddev_key p (mean stddev : num) f,
    convention key stddev_key p
    ∧ PyDict.get key (d_values dataset) = Some mean
    ∧ PyDict.get stddev_key (d_values dataset) = Some stddev
    ∧ ds = DamageState_init (d_taxonomy dataset) p.1 p.2 (d_imt dataset)
             (d_imu dataset) (fragility_function ds)
    ∧ heap w !! fragility_function ds = Some f
    ∧ inner_function f = dist mean stddev.
End ParserDefs.

(** The character before the final [_mean] is a digit. *)
Definition digit_before_mean (key : string) : Prop :=
  ∃ pre c, PyStr.is_digit c = true ∧ key = pre +:+ String c "_mean".

(** The key starts with [D], an optional [_], a digit and [_]. *)
Definition digit_after_D (key : string) : Prop :=
  ∃ c rest, PyStr.is_digit c = true
    ∧ (key = String "D" (String c (String "_" rest))
       ∨ key = String "D" (String "_" (String c (String "_" rest)))).

Section RejectionDefs.
Context {num : Type} `{Countable num}.

(** What makes the parser give up on a key of a record. *)
Definition rejected_key (dataset : Dataset (num:=num)) (key : string) : Prop :=
¬ digit_before_mean key
∨ ¬ digit_after_D key
∨ PyDict.get (PyStr.replace key "_mean" "_stddev") (d_values dataset) = None.
End RejectionDefs.

Module Spec.
(** The naming conventions in the words of the specification:
    [D{n}_mean] names the transition from [0] to [n], [D_{i}_{j}_mean]
    the one from [i] to [j], for decimal numerals [n], [i], [j]. *)
Fixpoint all_digits (s : string) : bool :=
  match s with
  | EmptyString => false
  | String c EmptyString => PyStr.is_digit c
  | String c s' => PyStr.is_digit c && all_digits s'
  end.

Fixpoint decimal_value_go (s : string) (acc : Z) : Z :=
  match s with
  | EmptyString => acc
  | String c s' => decimal_value_go s' (10 * acc + PyStr.digit_value c)
  end.

Definition decimal_value (s : string) : Z := decimal_value_go s 0.

Definition names_transition (key : string) (p : Z * Z) : Prop :=
  (∃ n, all_digits n = true ∧ key = "D" +:+ n +:+ "_mean"
        ∧ p = (0, decimal_value n))
  ∨ (∃ i j, all_digits i = true ∧ all_digits j = true
            ∧ key = "D_" +:+ i +:+ "_" +:+ j +:+ "_mean"
            ∧ p = (decimal_value i, decimal_value j)).
End Spec.

(** * Reference data *)

Module Reference.

(** The value of a distribution function, kept as the application it
    stands for. *)
Inductive cdf_value : Type :=
  | lognorm_cdf_at (mean stddev x : Qc)
  | norm_cdf_at (mean stddev x : Qc).

Definition dec (q : Q) : Qc := Q2Qc q.

(** The definition of [test_fragility_data_without_sublevel]. *)
Definition urm1 : Dataset :=
  mkDataset "URM1" "pga" "g"
    [("D1_mean", dec 5.9); ("D1_stddev", dec 0.8);
     ("D2_mean", dec 6.7); ("D2_stddev", dec 0.8)].

Definition cm : Dataset :=
  mkDataset "CM" "pga" "g"
    [("D1_mean", dec 7.6); ("D1_stddev", dec 1.0);
     ("D2_mean", dec 8.6); ("D2_stddev", dec 1.0)].

Definition without_sublevel : FragilityData :=
  mkFragilityData "logncdf" "SARA_v1.0" [urm1; cm].

Definition load (self : FragilityData) :=
  to_fragility_provider lognorm_cdf_at norm_cdf_at self initial_world.

Definition two_digit_target : FragilityData :=
  mkFragilityData "logncdf" "SARA_v1.0"
    [mkDataset "URM1" "pga" "g"
       [("D_1_12_mean", dec 5.9); ("D_1_12_stddev", dec 0.8)]].

Definition two_digit_baseline : FragilityData :=
  mkFragilityData "logncdf" "SARA_v1.0"
    [mkDataset "URM1" "pga" "g"
       [("D10_mean", dec 5.9); ("D10_stddev", dec 0.8)]].

Definition stray_text : FragilityData :=
  mkFragilityData "logncdf" "SARA_v1.0"
    [mkDataset "URM1" "pga" "g"
       [("D1_x_2_mean", dec 5.9); ("D1_x_2_stddev", dec 0.8)]].

End Reference.

Import Reference.

Definition urm1_completed : list DamageState :=
  [mkDamageState "URM1" 0 1 "PGA" "g" 0%nat;
   mkDamageState "URM1" 0 2 "PGA" "g" 1%nat;
   mkDamageState "URM1" 1 1 "PGA" "g" 0%nat;
   mkDamageState "URM1" 1 2 "PGA" "g" 1%nat].

Definition cm_completed : list DamageState :=
  [mkDamageState "CM" 0 1 "PGA" "g" 2%nat;
   mkDamageState "CM" 0 2 "PGA" "g" 3%nat;
   mkDamageState "CM" 1 1 "PGA" "g" 2%nat;
   mkDamageState "CM" 1 2 "PGA" "g" 3%nat].

Definition without_sublevel_provider : FragilityProvider :=
  mkFragilityProvider [("URM1", urm1_completed); ("CM", cm_completed)]
    "SARA_v1.0".

Definition test_raster : Raster.RasterIntensityProvider :=
  Raster.mkRasterIntensityProvider
    (Raster.RasterWrapper_init
       (Raster.mkRasterReader (Raster.mkBoundingBox 14 50 16 52)
          (λ lon lat, (0, 0))
          [[[17; 18; 19]; [14; 15; 16]; [11; 12; 13]]]%Q))
    "testdata" "unitless" 0%Q.

Definition sample_expo : Shapefile.Expo :=
  Shapefile.mkExpo ["URM1"; "URM1"] ["D1"; "D2"] [2; 3]%Q.

(** ** Notions for the completion of any list of states *)

(** Some state of [l] is at [(i, j)]. *)
Definition has_pair (l : list DamageState) (i j : Z) : bool :=
  bool_decide (count_pair i j l ≠ 0%nat).

(** Some state of [l] is at [(i0, j)] for an [i0] from [-1] to [k - 1]. *)
Fixpoint reach_up (l : list DamageState) (j : Z) (k : nat) : bool :=
  match k with
  | O => has_pair l (-1) j
  | S k' => has_pair l (Z.of_nat k') j || reach_up l j k'
  end.

(** [x] descends from [d0]: the same target, taxonomy, unit and function,
    a higher from state, and the measure name of [d0] as the constructor
    stores it. *)
Definition descends_from (x d0 : DamageState) : Prop :=
  to_state x = to_state d0
  ∧ fragility_function x = fragility_function d0
  ∧ taxonomy x = taxonomy d0
  ∧ intensity_unit x = intensity_unit d0
  ∧ from_state d0 < from_state x
  ∧ intensity_field x = PyStr.upper (intensity_field d0).

(** The states of [l] are those of [l0], in place, followed by descendants
    of states of [l0]. *)
Definition extends_states (l0 l : list DamageState) : Prop :=
  ∃ added, l = l0 ++ added
    ∧ Forall (λ x, ∃ d0, d0 ∈ l0 ∧ descends_from x d0) added.

(** The count of the states at [(i, j)] while the completion of [l0] runs:
    what [l0] has there, or else one state where the loops have passed
    (rows below [f], and row [f] up to column [t - 1]) and a state of [l0]
    lies at the same target from [-1] up to [i]. *)
Definition count_during (m : Z) (l0 : list DamageState) (f t i j : Z) : nat :=
  if has_pair l0 i j then count_pair i j l0
  else if bool_decide (0 ≤ i ∧ 1 ≤ j ≤ m ∧ (i < f ∨ (i = f ∧ j < t)))
          && reach_up l0 j (Z.to_nat (i + 1))
       then 1%nat else 0%nat.

Definition completing (m : Z) (l0 : list DamageState) (f t : Z)
    (l : list DamageState) : Prop :=
  ∀ i j, count_pair i j l = count_during m l0 f t i j.

(** The completion of [l0], whose greatest target is [m], has to fill
    [(i, j)]: the pair lies in the range of the two loops and [l0] has a
    state with the same target at a from state from [-1] up to [i]. *)
Definition filled_in (m : Z) (l0 : list DamageState) (i j : Z) : Prop :=
  0 ≤ i < m ∧ 1 ≤ j ≤ m
  ∧ ∃ i0, -1 ≤ i0 ≤ i ∧ count_pair i0 j l0 ≠ 0%nat.

(** ** Notions for the provider *)

(** The keys of a dict after a new entry for [k], if [k] is new. *)
Definition add_key (ks : list string) (k : string) : list string :=
  if decide (k ∈ ks) then ks else ks ++ [k].

Section ProviderDefs.
Context {num : Type} `{Countable num}.

(** The taxonomies of the records that have at least one [D..._mean]
    key, in the order of the records. *)
Definition taxonomies_with_keys (datasets : list (Dataset (num:=num)))
    : list string :=
  d_taxonomy <$> List.filter (λ dataset, negb (bool_decide (mean_keys dataset = [])))
                   datasets.

End ProviderDefs.

(** [FragilityProvider.get_damage_states_for_taxonomy] with its effect: the
    dict of the provider is the [defaultdict(list)] of the parser, so that
    asking for a taxonomy that is absent enters it with an empty list. *)
Definition get_damage_states_for_taxonomy_effect (self : FragilityProvider)
    (taxonomy : string) : list DamageState * FragilityProvider :=
  let d := PyDict.update taxonomy [] (λ l, l) (_damage_states_by_taxonomy self) in
  (default [] (PyDict.get taxonomy d), mkFragilityProvider d (schema self)).

Section LoaderDefs.
Context {num : Type} `{Countable num}.

(** A [D..._mean] key that the parser reads: a digit before the final
    [_mean], a digit after the [D], and the partner key in the record. *)
Definition accepted_key (dataset : Dataset (num:=num)) (key : string) : Prop :=
  digit_before_mean key
  ∧ digit_after_D key
  ∧ PyDict.get (PyStr.replace key "_mean" "_stddev") (d_values dataset) ≠ None.

End LoaderDefs.

Section SeparationDefs.
Context {num : Type} `{Countable num} {prob : Type}.
Local Abbreviation World := (@World num _ _ prob).

(** A cache of a factory refers to objects of a store of [n] objects, to a
    different one for each key. *)
Definition cache_injective (n : nat) (c : gmap (num * num) addr) : Prop :=
  (∀ k a, c !! k = Some a → (a < n)%nat)
  ∧ (∀ k k' a, c !! k = Some a → c !! k' = Some a → k = k').

(** The two factories refer to different objects of the store, each to a
    different one for each key. *)
Definition separated (w : World) : Prop :=
  cache_injective (length (heap w)) (logncdf_cache w)
  ∧ cache_injective (length (heap w)) (normcdf_cache w)
  ∧ (∀ k k' a, logncdf_cache w !! k = Some a → normcdf_cache w !! k' = Some a →
       False).

End SeparationDefs.

(** * The summary script: custom columns and per-cell tables *)

(** ** Dictionaries with keys of any hashable type *)

Module Dict.

Section Dict.
Context {K : Type} `{EqDecision K} {V : Type}.

Definition dict := list (K * V).

Fixpoint get (k : K) (d : dict) : option V :=
  match d with
  | [] => None
  | (k', v) :: d' => if decide (k' = k) then Some v else get k d'
  end.

Definition keys (d : dict) : list K := fst <$> d.

Definition values (d : dict) : list V := snd <$> d.

(** [d.setdefault(k, dflt); d[k] = f(d[k])]: an absent key is added at
    the end, a present one keeps its place. *)
Fixpoint update (k : K) (dflt : V) (f : V → V) (d : dict) : dict :=
  match d with
  | [] => [(k, f dflt)]
  | (k', v) :: d' =>
      if decide (k' = k) then (k', f v) :: d'
      else (k', v) :: update k dflt f d'
  end.

(** [d[k] = v] *)
Definition set (k : K) (v : V) (d : dict) : dict := update k v (λ _, v) d.

End Dict.

Arguments dict : clear implicits.

End Dict.

(** ** [CustomColumnGenerator] *)

Module Columns.

Section Columns.

(** [Id] is the type of the row identifiers ([gid]), [Val] the type of
    the cell values. *)
Context {Id : Type} `{EqDecision Id} {Val : Type}.

Record CustomColumnGenerator : Type := mkCustomColumnGenerator {
  prefix : string;
  count : Z;
  custom_column_names : Dict.dict string string;
  custom_cols : Dict.dict string (Dict.dict Id Val)
}.

Definition CustomColumnGenerator_init (prefix : string)
    : CustomColumnGenerator :=
  mkCustomColumnGenerator prefix 1 [] [].

(** [_create_new_col]: the name [f"{self.prefix}{self.count}"] and the
    generator with the counter increased. *)
Definition _create_new_col (self : CustomColumnGenerator)
    : string * CustomColumnGenerator :=
  let col_name := prefix self +:+ pretty (count self) in
  (col_name,
   mkCustomColumnGenerator (prefix self) (count self + 1)
     (custom_column_names self) (custom_cols self)).

Definition set_value_for_custom_column (self : CustomColumnGenerator)
    (long_name : string) (id : Id) (value : Val) : CustomColumnGenerator :=
  let '(col_name, self) :=
    match Dict.get long_name (custom_column_names self) with
    | Some col_name => (col_name, self)
    | None =>
        let '(col_name, self) := _create_new_col self in
        (col_name,
         mkCustomColumnGenerator (prefix self) (count self)
           (Dict.set long_name col_name (custom_column_names self))
           (custom_cols self))
    end in
  mkCustomColumnGenerator (prefix self) (count self)
    (custom_column_names self)
    (Dict.update col_name [] (Dict.set id value) (custom_cols self)).

(** [full_columns]: for every column, in the order of [custom_cols], the
    list of [self.custom_cols[col_name].get(id)] over [id_array]. *)
Definition full_columns (self : CustomColumnGenerator) (id_array : list Id)
    : Dict.dict string (list (option Val)) :=
  foldl (λ results '(col_name, value_dict_by_id),
           Dict.set col_name
             ((λ id, Dict.get id
                       (default [] (Dict.get col_name (custom_cols self))))
                <$> id_array)
             results)
    [] (custom_cols self).

(** [get_custom_column_mapping]: [{v: k for k, v in names.items()}] *)
Definition get_custom_column_mapping (self : CustomColumnGenerator)
    : Dict.dict string string :=
  foldl (λ mapping '(k, v), Dict.set v k mapping) []
    (custom_column_names self).

(** A sequence of [set_value_for_custom_column] calls on a generator. *)
Definition set_values (self : CustomColumnGenerator)
    (calls : list (string * Id * Val)) : CustomColumnGenerator :=
  foldl (λ self '(long_name, id, value),
           set_value_for_custom_column self long_name id value)
    self calls.

End Columns.

Arguments CustomColumnGenerator : clear implicits.

End Columns.

Local Open Scope Q_scope.

(** ** Transitions and building counts of one cell *)

Module Summary.
Import Shapefile.

(** The columns of a [transitions] table. *)
Record Transitions : Type := mkTransitions {
  n_buildings : list Q;
  from_damage_state : list Z;
  to_damage_state : list Z
}.

(** A numpy float: a number or [nan]. *)
Inductive np_float : Type :=
  | Finite (q : Q)
  | NaN.

(** [a - b] of numpy on one-dimensional arrays, broadcast as [a * b]. *)
Definition np_sub (a b : list Q) : result (list Q) :=
  if decide (length a = length b) then Ok (zip_with Qminus a b)
  else match a, b with
       | [x], _ => Ok (Qminus x <$> b)
       | _, [y] => Ok ((λ x, x - y) <$> a)
       | _, _ => Raise ValueError
       end.

(** [a.mean()] of numpy: [nan] on the empty array. *)
Definition np_mean (a : list Q) : np_float :=
  match a with
  | [] => NaN
  | _ => Finite (np_sum a / inject_Z (Z.of_nat (length a)))
  end.

(** [compute_mean_transition] *)
Definition compute_mean_transition (transitions_dict : Transitions)
    : result np_float :=
  let n_buildings := n_buildings transitions_dict in
  let from_damage_state := inject_Z <$> from_damage_state transitions_dict in
  let to_damage_state := inject_Z <$> to_damage_state transitions_dict in
  if decide (length n_buildings = 0%nat) then Ok (Finite 0)
  else
    result_bind (np_mul n_buildings to_damage_state) (λ gained,
    result_bind (np_mul n_buildings from_damage_state) (λ kept,
    result_bind (np_sub gained kept) (λ mean_damage_state_diff,
    Ok (np_mean mean_damage_state_diff)))).

(** [zip(a, b, c)]: as long as the shortest. *)
Definition zip3 {A B C} (a : list A) (b : list B) (c : list C)
    : list (A * B * C) :=
  zip (zip a b) c.

(** The transition matrix loop of [main]: one pass adds the rows of a
    [transitions] table to a matrix, the one of the cell (started empty)
    and the total one. *)
Definition add_transition (matrix : Dict.dict Z (Dict.dict Z Q))
    (from_ds to_ds : Z) (n : Q) : Dict.dict Z (Dict.dict Z Q) :=
  Dict.update from_ds []
    (λ row, Dict.update to_ds 0 (λ x, x + n) row) matrix.

Definition add_transitions (matrix : Dict.dict Z (Dict.dict Z Q))
    (transitions_dict : Transitions) : Dict.dict Z (Dict.dict Z Q) :=
  foldl (λ matrix '(from_ds, to_ds, n), add_transition matrix from_ds to_ds n)
    matrix
    (zip3 (from_damage_state transitions_dict)
       (to_damage_state transitions_dict) (n_buildings transitions_dict)).

(** [sum(l)] of Python: from [0], left to right. *)
Definition py_sum (l : list Q) : Q := foldl Qplus 0 l.

(** The building loop of [main] over the rows of an [expo] table: the
    table by taxonomy and damage state of the cell, and the total by
    damage state.  The entry of a taxonomy and damage state is assigned
    (the value [setdefault] puts there first is overwritten at once), the
    total is added to. *)
Fixpoint add_buildings
    (rows : list (string * string * Q))
    (buildings_by_tax_and_ds : Dict.dict string (Dict.dict Z Q))
    (total : Dict.dict Z Q)
    : result (Dict.dict string (Dict.dict Z Q) * Dict.dict Z Q) :=
  match rows with
  | [] => Ok (buildings_by_tax_and_ds, total)
  | (taxonomy, damage, number) :: rows' =>
      result_bind (dx_to_int damage) (λ damage,
      add_buildings rows'
        (Dict.update taxonomy [] (Dict.set damage number)
           buildings_by_tax_and_ds)
        (Dict.update damage 0 (λ x, x + number) total))
  end.

(** [sum([sum(inner.values()) for inner in table.values()])] *)
Definition count_buildings
    (buildings_by_tax_and_ds : Dict.dict string (Dict.dict Z Q)) : Q :=
  py_sum (py_sum ∘ Dict.values <$> Dict.values buildings_by_tax_and_ds).

(** The building count of a cell, as [main] computes it. *)
Definition buildings_of_cell (expo_dict : Expo) (total : Dict.dict Z Q)
    : result (Q * Dict.dict Z Q) :=
  result_bind
    (add_buildings
       (zip3 (Taxonomy expo_dict) (Damage expo_dict) (Buildings expo_dict))
       [] total)
    (λ '(buildings_by_tax_and_ds, total),
       Ok (count_buildings buildings_by_tax_and_ds, total)).

End Summary.

Local Close Scope Q_scope.

(** ** Auxiliary notions for the custom columns *)

Section ColumnDefs.
Context {Id : Type} `{EqDecision Id} {Val : Type}.

(** The value of the last call for a long name and a row, if any. *)
Definition last_value (calls : list (string * Id * Val))
    (long_name : string) (id : Id) : option Val :=
  foldl (λ found '(long_name', id', value),
           if decide (long_name' = long_name ∧ id' = id) then Some value
           else found)
    None calls.

Definition column_name (prefix : string) (k : Z) : string :=
  prefix +:+ pretty k.

(** What every generator reached from a fresh one satisfies. *)
Definition generated (prefix : string) (calls : list (string * Id * Val))
    (self : Columns.CustomColumnGenerator Id Val) : Prop :=
  let names := Columns.custom_column_names self in
  Columns.prefix self = prefix
  ∧ Columns.count self = 1 + Z.of_nat (length names)
  ∧ Dict.keys names = foldl add_key [] (calls.*1.*1)
  ∧ Dict.values names
    = column_name prefix <$> seqZ 1 (Z.of_nat (length names))
  ∧ Dict.keys (Columns.custom_cols self) = Dict.values names
  ∧ ∀ long_name col_name,
      Dict.get long_name names = Some col_name →
      ∃ value_dict_by_id,
        Dict.get col_name (Columns.custom_cols self) = Some value_dict_by_id
        ∧ ∀ id, Dict.get id value_dict_by_id = last_value calls long_name id.
End ColumnDefs.

(** ** Auxiliary notions for the tables of a cell *)

Local Open Scope Q_scope.

(** The entry of a table with two levels of keys. *)
Definition entry {K1 K2 : Type} `{EqDecision K1} `{EqDecision K2}
    (table : Dict.dict K1 (Dict.dict K2 Q)) (k1 : K1) (k2 : K2) : option Q :=
  Dict.get k1 table ≫= Dict.get k2.

(** The numbers of the rows of a transition table from one state to
    another. *)
Definition moved (rows : list (Z * Z * Q)) (from_ds to_ds : Z) : list Q :=
  snd <$> List.filter (λ row, bool_decide (row.1 = (from_ds, to_ds))) rows.

(** The rows of an [expo] table with the damage labels read. *)
Definition parse_rows (rows : list (string * string * Q))
    : result (list (string * Z * Q)) :=
  Shapefile.map_result
    (λ '(taxonomy, damage, number),
       result_bind (Shapefile.dx_to_int damage) (λ damage,
       Ok (taxonomy, damage, number)))
    rows.

(** The rows that no later row of the same taxonomy and damage state
    follows. *)
Fixpoint last_rows (rows : list (string * Z * Q)) : list (string * Z * Q) :=
  match rows with
  | [] => []
  | row :: rows' =>
      if decide (row.1 ∈ fst <$> rows') then last_rows rows'
      else row :: last_rows rows'
  end.

(** The number of the last row of a taxonomy and damage state. *)
Fixpoint last_number (rows : list (string * Z * Q)) (key : string * Z)
    : option Q :=
  match rows with
  | [] => None
  | row :: rows' =>
      match last_number rows' key with
      | Some number => Some number
      | None => if decide (row.1 = key) then Some row.2 else None
      end
  end.

(** One pass of the building loop on a row with its label read, on the
    table of the cell and on the total. *)
Definition add_row (table : Dict.dict string (Dict.dict Z Q))
    (row : string * Z * Q) : Dict.dict string (Dict.dict Z Q) :=
  Dict.update row.1.1 [] (Dict.set row.1.2 row.2) table.

Definition add_to_total (total : Dict.dict Z Q) (row : string * Z * Q)
    : Dict.dict Z Q :=
  Dict.update row.1.2 0 (λ x, x + row.2) total.

(** The numbers of the rows of a damage state. *)
Definition of_damage (rows : list (string * Z * Q)) (damage : Z) : list Q :=
  snd <$> List.filter (λ row, bool_decide (row.1.2 = damage)) rows.

Local Close Scope Q_scope.

(** ** Sample data of the summary script and of the raster *)

Definition sample_transitions : Summary.Transitions :=
  Summary.mkTransitions [2; 3; 4]%Q [0; 0; 1] [1; 1; 2].

Definition transitions_without_target : Summary.Transitions :=
  Summary.mkTransitions [5]%Q [3] [].

Definition repeated_expo : Shapefile.Expo :=
  Shapefile.mkExpo ["URM1"; "URM1"; "CM"] ["D1"; "D1"; "D2"] [5; 7; 1]%Q.

Definition sample_calls : list (string * Z * string) :=
  [("Transitions from damage state 0", 1, "{1: 2}");
   ("Buildings in URM1 per damage state", 1, "{1: 5}");
   ("Transitions from damage state 0", 2, "{2: 1}")].

Definition raster_with_row_before_first : Raster.RasterWrapper :=
  Raster.RasterWrapper_init
    (Raster.mkRasterReader (Raster.mkBoundingBox 14 50 16 52)
       (λ lon lat, (-1, 0))
       [[[17; 18; 19]; [14; 15; 16]; [11; 12; 13]]]%Q).

(** * The distribution functions over the real numbers

    The factories take [lognorm(scale=exp(mean), s=stddev).cdf] and
    [norm(loc=mean, scale=stddev).cdf] from scipy, which is not part of
    the sources.  Here they are the functions scipy documents, over the
    real numbers: the distribution function [Phi] of the standard normal
    distribution, [Phi ((x - mean) / stddev)] for the normal family, and
    for the log-normal family [0] up to [x = 0] and
    [Phi ((ln x - mean) / stddev)] above.  Parameters and intensities are
    rationals; rounding is not modelled. *)

Module RealModel.
Import Reals Lra Qreals.
Local Open Scope R_scope.

(** The density of the standard normal distribution, up to its constant
    [1 / sqrt (2 * PI)]. *)
Definition gauss (t : R) : R := exp (- (t ^ 2 / 2)).

Definition gauss_continuous : continuity gauss.
Proof. unfold gauss. reg. Defined.

Definition gauss_integrable (a b : R) : Riemann_integrable gauss a b.
Proof.
  destruct (Rle_dec a b) as [Hab|Hab].
  - apply continuity_implies_RiemannInt; [exact Hab|].
    intros x _. apply gauss_continuous.
  - apply RiemannInt_P1. apply continuity_implies_RiemannInt; [lra|].
    intros x _. apply gauss_continuous.
Defined.

(** The distribution function of the standard normal distribution: a half
    plus the integral of the density from [0] to [z]. *)
Definition Phi (z : R) : R :=
  1 / 2 + RiemannInt (gauss_integrable 0 z) / sqrt (2 * PI).

(** [lognorm(scale=exp(mean), s=stddev).cdf] *)
Definition lognorm_cdf_model (mean stddev x : Qc) : R :=
  if Qlt_le_dec 0 x then Phi ((ln (Q2R x) - Q2R mean) / Q2R stddev) else 0.

(** [norm(loc=mean, scale=stddev).cdf] *)
Definition norm_cdf_model (mean stddev x : Qc) : R :=
  Phi ((Q2R x - Q2R mean) / Q2R stddev).

(** ** Auxiliary notions of the numeric bounds *)

(** Partial sums of the exponential series at a rational: [(sum, term)]
    after [n] steps. *)
Fixpoint exp_sum_Q (x : Q) (n : nat) : Q * Q :=
  match n with
  | O => (1, 1)%Q
  | S k =>
      let '(s, t) := exp_sum_Q x k in
      let t' := (t * x / inject_Z (Z.of_nat (S k)))%Q in
      ((s + t')%Q, t')
  end.

(** The Taylor polynomial of the density and its primitive. *)
Definition gauss_poly (n : nat) (t : R) : R :=
  sum_f_R0 (tg_alt (fun i => (t ^ 2 / 2) ^ i / INR (Factorial.fact i))) n.

Definition gauss_coeff (i : nat) : R :=
  (-1) ^ i / (2 ^ i * INR (Factorial.fact i) * INR (2 * i + 1)).

Definition gauss_primitive (n : nat) (z : R) : R :=
  sum_f_R0 (fun i => gauss_coeff i * z ^ (2 * i + 1)) n.

(** The primitive at a rational: [(sum, term)] after [n] steps, the term
    being [(- z^2/2)^n / n!]. *)
Fixpoint gauss_sum_Q (z : Q) (n : nat) : Q * Q :=
  match n with
  | O => (z, 1)%Q
  | S k =>
      let '(s, u) := gauss_sum_Q z k in
      let u' := (u * (- (z * z / 2)) / inject_Z (Z.of_nat (S k)))%Q in
      ((s + u' * z / inject_Z (Z.of_nat (2 * S k + 1)))%Q, u')
  end.

End RealModel.

(** * Lattice completion *)

Lemma count_pair_app i j l1 l2 :
  count_pair i j (l1 ++ l2) = (count_pair i j l1 + count_pair i j l2)%nat.
Proof. unfold count_pair. by rewrite filter_app, length_app. Qed.

Lemma count_pair_zero i j l :
  count_pair i j l = 0%nat ↔ filter (at_pair i j) l = [].
Proof. unfold count_pair. split; [apply nil_length_inv | by intros ->]. Qed.

Lemma add_if_missing_present f t l :
  count_pair f t l ≠ 0%nat → add_if_missing f t l = l.
Proof.
  unfold add_if_missing, count_pair. destruct (filter (at_pair f t) l); [done|done].
Qed.

Lemma add_if_missing_absent f t l d rest :
  count_pair f t l = 0%nat →
  filter (at_pair (f - 1) t) l = d :: rest →
  add_if_missing f t l =
    (l ++ [DamageState_init (taxonomy d) (from_state d + 1) (to_state d)
            (intensity_field d) (intensity_unit d) (fragility_function d)])%list.
Proof.
  intros H0 Hl. apply count_pair_zero in H0. unfold add_if_missing.
  by rewrite H0, Hl.
Qed.

Lemma add_if_missing_neither f t l :
  count_pair f t l = 0%nat →
  count_pair (f - 1) t l = 0%nat →
  add_if_missing f t l = l.
Proof.
  intros H0 H1. apply count_pair_zero in H0, H1. unfold add_if_missing.
  by rewrite H0, H1.
Qed.

Lemma foldl_seqZ_ind {A} (P : Z → A → Prop) (g : A → Z → A) (a n : Z) (x : A) :
  0 ≤ n →
  P a x →
  (∀ k y, a ≤ k < a + n → P k y → P (k + 1) (g y k)) →
  P (a + n) (foldl g x (seqZ a n)).
Proof.
  intros Hn Hx Hstep.
  assert (∀ m : nat, Z.of_nat m ≤ n →
            P (a + Z.of_nat m) (foldl g x (seqZ a (Z.of_nat m)))) as Hall.
  { induction m as [|m IH]; intros Hm.
    - simpl. by rewrite Z.add_0_r.
    - rewrite seqZ_S, foldl_snoc.
      replace (a + Z.of_nat (S m)) with (a + Z.of_nat m + 1) by lia.
      apply Hstep; [lia|]. apply IH. lia. }
  specialize (Hall (Z.to_nat n)). rewrite Z2Nat.id in Hall by done.
  apply Hall. lia.
Qed.

Lemma count_pair_fmap i j l :
  count_pair i j l = length (filter (λ p, p = (i, j)) (pair_of <$> l)).
Proof.
  unfold count_pair. induction l as [|d l IH]; [done|].
  rewrite fmap_cons, !filter_cons.
  destruct (decide (at_pair i j d)) as [[Hf Ht]|Hn];
    destruct (decide (pair_of d = (i, j))) as [He|Hne]; simpl; try by rewrite IH.
  - exfalso. apply Hne. unfold pair_of. by rewrite Hf, Ht.
  - exfalso. apply Hn. unfold pair_of in He. by inversion He.
Qed.

Lemma length_filter_eq_NoDup {A} `{EqDecision A} (x : A) (l : list A) :
  NoDup l →
  length (filter (λ y, y = x) l) = if decide (x ∈ l) then 1%nat else 0%nat.
Proof.
  induction 1 as [|y l Hy Hl IH]; [done|].
  rewrite filter_cons. destruct (decide (y = x)) as [->|Hne].
  - simpl. rewrite IH. rewrite decide_False by done.
    by rewrite decide_True by apply list_elem_of_here.
  - rewrite IH. destruct (decide (x ∈ l)) as [Hin|Hnin].
    + by rewrite decide_True by (by apply list_elem_of_further).
    + rewrite decide_False; [done|]. intros Hin'. apply elem_of_cons in Hin'.
      destruct Hin' as [Heq|Hin']; [by subst|done].
Qed.

Lemma baseline_only_count N l i j :
  baseline_only N l →
  count_pair i j l = if decide (i = 0 ∧ 1 ≤ j ≤ N) then 1%nat else 0%nat.
Proof.
  intros Hb. rewrite count_pair_fmap. unfold baseline_only in Hb.
  rewrite Hb. rewrite length_filter_eq_NoDup.
  - destruct (decide (i = 0 ∧ 1 ≤ j ≤ N)) as [[-> Hj]|Hn].
    + rewrite decide_True; [done|]. apply list_elem_of_fmap. exists j.
      split; [done|]. apply elem_of_seqZ. lia.
    + rewrite decide_False; [done|]. intros Hin.
      apply list_elem_of_fmap in Hin as (k & Hk & Hin).
      apply elem_of_seqZ in Hin. inversion Hk; subst. lia.
  - apply NoDup_fmap_2; [|apply NoDup_seqZ]. intros a b Hab. by inversion Hab.
Qed.

Lemma py_max_spec (xs : list Z) :
  xs ≠ [] → ∃ m, py_max xs = Ok m ∧ m ∈ xs ∧ ∀ x, x ∈ xs → x ≤ m.
Proof.
  destruct xs as [|x xs]; [done|]. intros _. simpl.
  exists (foldl Z.max x xs). split; [done|].
  revert x. induction xs as [|y xs IH]; intros x; simpl.
  - split; [apply list_elem_of_here|]. intros z Hz. apply list_elem_of_singleton in Hz. lia.
  - destruct (IH (Z.max x y)) as [Hin Hub]. split.
    + apply elem_of_cons in Hin as [Hm|Hin].
      * rewrite Hm. destruct (Z.max_spec x y) as [[_ ->]|[_ ->]].
        -- apply list_elem_of_further, list_elem_of_here.
        -- apply list_elem_of_here.
      * by do 2 apply list_elem_of_further.
    + intros z Hz. apply elem_of_cons in Hz as [->|Hz].
      * specialize (Hub (Z.max x y) (list_elem_of_here _ _)). lia.
      * apply elem_of_cons in Hz as [->|Hz].
        -- specialize (Hub (Z.max x y) (list_elem_of_here _ _)). lia.
        -- apply Hub. by apply list_elem_of_further.
Qed.

Lemma filter_head_elem {A} (P : A → Prop) `{∀ x, Decision (P x)} (l : list A) d rest :
  filter P l = d :: rest → P d ∧ d ∈ l.
Proof.
  intros Hfl. apply (list_elem_of_filter P). rewrite Hfl. apply list_elem_of_here.
Qed.

Section Completion.

Variable N : Z.
Variable l0 : list DamageState.
Local Abbreviation from_parsed := (from_parsed l0).
Local Abbreviation filled := (filled N l0).

Lemma filled_step f t l :
  1 ≤ f → 1 ≤ t ≤ N → filled f t l → filled f (t + 1) (add_if_missing f t l).
Proof.
  intros Hf Ht [Hfp Hc].
  assert (count_pair f t l = 0%nat) as H0.
  { rewrite Hc. apply decide_False. lia. }
  assert (count_pair (f - 1) t l = 1%nat) as H1.
  { rewrite Hc. apply decide_True. lia. }
  unfold count_pair in H1.
  destruct (filter (at_pair (f - 1) t) l) as [|d rest] eqn:Hfl; [done|].
  destruct (filter_head_elem _ _ _ _ Hfl) as [[Hdf Hdt] Hdl].
  rewrite (add_if_missing_absent f t l d rest H0 Hfl). split.
  - intros x Hx. apply elem_of_app in Hx as [Hx|Hx]; [by apply Hfp|].
    apply list_elem_of_singleton in Hx as ->. simpl. by apply Hfp.
  - intros i j. rewrite count_pair_app, Hc. unfold count_pair at 1.
    rewrite filter_cons, filter_nil. unfold DamageState_init.
    destruct (decide (at_pair i j _)) as [[Hi Hj]|Hn]; simpl in *.
    + rewrite decide_False by lia. rewrite decide_True by lia. done.
    + unfold at_pair in Hn. simpl in Hn.
      destruct (decide (1 ≤ j ≤ N ∧ (0 ≤ i < f ∨ i = f ∧ j < t))).
      * rewrite decide_True by lia. done.
      * rewrite decide_False; [done|]. intros [? [?|[? ?]]]; [lia|].
        destruct (decide (j = t)); [|lia]. apply Hn. lia.
Qed.

Lemma filled_row f l :
  1 ≤ f → 0 ≤ N → filled f 1 l → filled (f + 1) 1 (add_for_from_state N f l).
Proof.
  intros Hf HN Hfl. unfold add_for_from_state, py_range.
  replace (N + 1 - 1) with N by lia.
  assert (filled f (1 + N)
            (foldl (λ dss to_damage_state, add_if_missing f to_damage_state dss)
               l (seqZ 1 N))) as [Hfp Hc].
  { apply (foldl_seqZ_ind (λ t l, filled f t l)); [done|done|].
    intros k y Hk Hy. apply filled_step; [done|lia|done]. }
  split; [done|]. intros i j. rewrite Hc.
  destruct (decide (1 ≤ j ≤ N ∧ (0 ≤ i < f ∨ i = f ∧ j < 1 + N))).
  - by rewrite decide_True by lia.
  - by rewrite decide_False by lia.
Qed.

Hypothesis HN : 1 ≤ N.
Hypothesis Hbase : baseline_only N l0.

Lemma filled_baseline : filled 1 1 l0.
Proof.
  split.
  - intros d Hd. by exists d.
  - intros i j. rewrite (baseline_only_count N) by done.
    destruct (decide (i = 0 ∧ 1 ≤ j ≤ N)).
    + by rewrite decide_True by lia.
    + by rewrite decide_False by lia.
Qed.

Lemma add_for_from_state_0 : add_for_from_state N 0 l0 = l0.
Proof.
  unfold add_for_from_state, py_range. replace (N + 1 - 1) with N by lia.
  replace N with (0 + N) at 1 by lia.
  cut (∀ n : Z, 0 ≤ n → n ≤ N →
         foldl (λ dss to_damage_state, add_if_missing 0 to_damage_state dss)
           l0 (seqZ 1 n) = l0).
  { intros Hcut. apply Hcut; lia. }
  intros n Hn HnN.
  apply (foldl_seqZ_ind (λ t l, t ≤ N + 1 → l = l0)
           (λ dss to_damage_state, add_if_missing 0 to_damage_state dss) 1 n l0);
    [done|done| |lia].
  intros k y Hk Hy Hle. rewrite Hy by lia.
  apply add_if_missing_present. rewrite (baseline_only_count N) by done.
  rewrite decide_True by lia. done.
Qed.

Lemma py_max_baseline : py_max (to_state <$> l0) = Ok N.
Proof.
  assert (∀ j, j ∈ to_state <$> l0 ↔ 1 ≤ j ≤ N) as Hmem.
  { intros j. split.
    - intros Hj. apply list_elem_of_fmap in Hj as (d & -> & Hd).
      assert (count_pair (from_state d) (to_state d) l0 ≠ 0%nat) as Hc.
      { unfold count_pair. intros Hz. apply nil_length_inv in Hz.
        assert (d ∈ filter (at_pair (from_state d) (to_state d)) l0) as Hin
          by (by apply list_elem_of_filter).
        rewrite Hz in Hin. by apply not_elem_of_nil in Hin. }
      rewrite (baseline_only_count N) in Hc by done.
      destruct (decide (from_state d = 0 ∧ 1 ≤ to_state d ≤ N)); [lia|done].
    - intros Hj.
      assert (count_pair 0 j l0 = 1%nat) as Hc.
      { rewrite (baseline_only_count N) by done. by rewrite decide_True. }
      unfold count_pair in Hc.
      destruct (filter (at_pair 0 j) l0) as [|d rest] eqn:Hfl; [done|].
      destruct (filter_head_elem _ _ _ _ Hfl) as [[_ Hdt] Hdl].
      apply list_elem_of_fmap. by exists d. }
  destruct (py_max_spec (to_state <$> l0)) as (m & Hm & Hin & Hub).
  { intros Hnil. assert (N ∈ to_state <$> l0) as HNin by (apply Hmem; lia).
    rewrite Hnil in HNin. by apply not_elem_of_nil in HNin. }
  rewrite Hm. f_equal. apply Hmem in Hin.
  assert (N ≤ m) by (apply Hub, Hmem; lia). lia.
Qed.

Lemma completion_filled :
  ∃ l, _add_damage_states_if_missing_to_dataset_list l0 = Ok l ∧ filled N 1 l.
Proof.
  unfold _add_damage_states_if_missing_to_dataset_list.
  rewrite py_max_baseline. simpl. eexists. split; [done|].
  unfold py_range. rewrite Z.sub_0_r. rewrite seqZ_cons by lia. simpl.
  rewrite add_for_from_state_0.
  change (Z.succ 0) with 1.
  cut (filled (1 + Z.pred N) 1
         (foldl (λ dss from_damage_state,
                   add_for_from_state N from_damage_state dss)
            l0 (seqZ 1 (Z.pred N)))).
  { by replace (1 + Z.pred N) with N by lia. }
  apply (foldl_seqZ_ind (λ f l, filled f 1 l)); [lia|apply filled_baseline|].
  intros k y Hk Hy. apply filled_row; [lia|lia|done].
Qed.

End Completion.

Lemma count_pair_one i j l :
  count_pair i j l = 1%nat → ∃ d, filter (at_pair i j) l = [d].
Proof.
  unfold count_pair. destruct (filter (at_pair i j) l) as [|d [|? ?]]; try done.
  by exists d.
Qed.

Lemma completion_baseline N l0 :
  1 ≤ N → baseline_only N l0 →
  ∃ l, _add_damage_states_if_missing_to_dataset_list l0 = Ok l ∧
    ∀ i j, 0 ≤ i ∧ i < j ∧ j ≤ N →
      ∃ ds ds0, filter (at_pair i j) l = [ds] ∧ filter (at_pair 0 j) l = [ds0]
                ∧ fragility_function ds = fragility_function ds0.
Proof.
  intros HN Hb. destruct (completion_filled N l0 HN Hb) as (l & Hl & Hfp & Hc).
  exists l. split; [done|]. intros i j Hij.
  destruct (count_pair_one i j l) as [ds Hds].
  { rewrite Hc. apply decide_True. lia. }
  destruct (count_pair_one 0 j l) as [ds0 Hds0].
  { rewrite Hc. apply decide_True. lia. }
  exists ds, ds0. split; [done|]. split; [done|].
  destruct (filter_head_elem _ _ _ _ Hds) as [[_ Ht] Hin].
  destruct (filter_head_elem _ _ _ _ Hds0) as [[_ Ht0] Hin0].
  destruct (Hfp ds Hin) as (e & He & Hte & Hfe).
  destruct (Hfp ds0 Hin0) as (e0 & He0 & Hte0 & Hfe0).
  rewrite <- Hfe, <- Hfe0. f_equal.
  assert (∀ x, x ∈ l0 → to_state x = j → x ∈ filter (at_pair 0 j) l0) as Hin_f.
  { intros x Hx Hxt. apply list_elem_of_filter. split; [|done]. split; [|done].
    assert (count_pair (from_state x) (to_state x) l0 ≠ 0%nat) as Hcx.
    { unfold count_pair. intros Hz. apply nil_length_inv in Hz.
      assert (x ∈ filter (at_pair (from_state x) (to_state x)) l0) as Hxin
        by (by apply list_elem_of_filter).
      rewrite Hz in Hxin. by apply not_elem_of_nil in Hxin. }
    rewrite (baseline_only_count N) in Hcx by done.
    destruct (decide (from_state x = 0 ∧ 1 ≤ to_state x ≤ N)); [lia|done]. }
  destruct (count_pair_one 0 j l0) as [u Hu].
  { rewrite (baseline_only_count N) by done. apply decide_True. lia. }
  assert (e ∈ filter (at_pair 0 j) l0) as H1 by (apply Hin_f; [done|lia]).
  assert (e0 ∈ filter (at_pair 0 j) l0) as H2 by (apply Hin_f; [done|lia]).
  rewrite Hu in H1, H2. apply list_elem_of_singleton in H1, H2. congruence.
Qed.

Section Monad.
Context {num : Type} `{Countable num} {prob : Type}.
Local Abbreviation M := (@M num _ _ prob).

Lemma bind_Ok {A B} (m : M A) (k : A → M B) w b w' :
  bind m k w = (Ok b, w') ↔ ∃ a w1, m w = (Ok a, w1) ∧ k a w1 = (Ok b, w').
Proof.
  unfold bind. destruct (m w) as [[e|a] w1]; split.
  - intros [=].
  - intros (a & w2 & [=] & _).
  - intros Hk. by exists a, w1.
  - intros (a' & w2 & [= -> ->] & Hk). done.
Qed.

Lemma lift_Ok {A} (r : result A) w a w' :
  lift (num:=num) (prob:=prob) r w = (Ok a, w') ↔ r = Ok a ∧ w' = w.
Proof. unfold lift. split; [by intros [= -> ->]|by intros [-> ->]]. Qed.

Lemma ret_Ok {A} (x : A) w a w' :
  ret (num:=num) (prob:=prob) x w = (Ok a, w') ↔ a = x ∧ w' = w.
Proof. unfold ret. split; [by intros [= -> ->]|by intros [-> ->]]. Qed.
End Monad.

Section DictLemmas.
Context {V : Type}.
Implicit Types d : PyDict.dict V.

Lemma update_Forall (Q : V → Prop) k dflt f d :
  Q (f dflt) → (∀ v, Q v → Q (f v)) →
  Forall (λ kv, Q kv.2) d → Forall (λ kv, Q kv.2) (PyDict.update k dflt f d).
Proof.
  intros Hd Hf. induction 1 as [|[k' v] d Hv Hall IH]; simpl.
  - by repeat constructor.
  - destruct (decide (k' = k)); constructor; simpl in *; auto.
Qed.

Lemma get_Forall (Q : V → Prop) k d v :
  Forall (λ kv, Q kv.2) d → PyDict.get k d = Some v → Q v.
Proof.
  induction 1 as [|[k' v'] d Hv Hall IH]; simpl; [done|].
  destruct (decide (k' = k)); [by intros [= <-]|done].
Qed.

Lemma get_update_eq k dflt f d :
  PyDict.get k (PyDict.update k dflt f d)
  = Some (f (default dflt (PyDict.get k d))).
Proof.
  induction d as [|[k' v] d IH]; simpl.
  - by rewrite decide_True.
  - destruct (decide (k' = k)) as [->|Hne]; simpl.
    + by rewrite decide_True.
    + by rewrite decide_False.
Qed.

Lemma get_update_ne k k' dflt f d :
  k ≠ k' → PyDict.get k' (PyDict.update k dflt f d) = PyDict.get k' d.
Proof.
  intros Hne. induction d as [|[k0 v] d IH]; simpl.
  - by rewrite decide_False.
  - destruct (decide (k0 = k)) as [->|Hne0]; simpl.
    + by rewrite !decide_False.
    + by rewrite IH.
Qed.
End DictLemmas.

Lemma completion_total l :
  l ≠ [] → ∃ l', _add_damage_states_if_missing_to_dataset_list l = Ok l'.
Proof.
  intros Hl. unfold _add_damage_states_if_missing_to_dataset_list.
  destruct l as [|d l]; [done|]. simpl. by eexists.
Qed.

Lemma add_missing_total (d : PyDict.dict (list DamageState)) :
  Forall (λ kv, kv.2 ≠ []) d → ∃ d', _add_damage_states_if_missing d = Ok d'.
Proof.
  induction 1 as [|[k l] d Hl Hall [d' IH]]; simpl; [by eexists|].
  destruct (completion_total l Hl) as [l' ->]. simpl. rewrite IH. simpl.
  by eexists.
Qed.

Lemma add_missing_get (d d' : PyDict.dict (list DamageState)) tax :
  _add_damage_states_if_missing d = Ok d' →
  match PyDict.get tax d with
  | Some l => ∃ l', _add_damage_states_if_missing_to_dataset_list l = Ok l'
                    ∧ PyDict.get tax d' = Some l'
  | None => PyDict.get tax d' = None
  end.
Proof.
  revert d'. induction d as [|[k l] d IH]; intros d'; simpl.
  - by intros [= <-].
  - destruct (_add_damage_states_if_missing_to_dataset_list l) as [e|l'] eqn:Hl;
      simpl; [done|].
    destruct (_add_damage_states_if_missing d) as [e|r] eqn:Hr; simpl; [done|].
    intros [= <-]. simpl. destruct (decide (k = tax)) as [->|Hne].
    + by exists l'.
    + by apply IH.
Qed.

Section Parser.
Context {num : Type} `{Countable num} {prob : Type}.
Variable lognorm_cdf norm_cdf : num → num → num → prob.
Local Abbreviation M := (@M num _ _ prob).
Local Abbreviation World := (@World num _ _ prob).
Variable fragility_function : num → num → M addr.

Section Invariant.
Variable R : DamageState → Prop.
Variable Q : list DamageState → Prop.
Hypothesis Q_first : ∀ ds, R ds → Q [ds].
Hypothesis Q_append : ∀ l ds, Q l → R ds → Q (l ++ [ds]).

Lemma for_keys_inv dataset keys d (w : World) d' w' :
  (∀ key w ds w', key ∈ keys →
     parse_damage_state fragility_function dataset key w = (Ok ds, w') →
     R ds) →
  Forall (λ kv, Q kv.2) d →
  for_keys fragility_function dataset keys d w = (Ok d', w') →
  Forall (λ kv, Q kv.2) d'.
Proof.
  revert d w. induction keys as [|key keys IH]; intros d w HR Hd; simpl.
  - by intros [-> _]%ret_Ok.
  - intros (ds & w1 & Hp & Hrest)%bind_Ok.
    eapply IH; [|..|exact Hrest].
    + intros k w0 ds0 w0' Hk. apply HR. by apply list_elem_of_further.
    + apply (update_Forall Q); [|intros v Hv|done].
      * simpl. apply Q_first. eapply HR; [apply list_elem_of_here|done].
      * apply Q_append; [done|]. eapply HR; [apply list_elem_of_here|done].
Qed.

Lemma for_datasets_inv datasets d (w : World) d' w' :
  (∀ dataset key w ds w',
     parse_damage_state fragility_function dataset key w = (Ok ds, w') →
     R ds) →
  Forall (λ kv, Q kv.2) d →
  for_datasets fragility_function datasets d w = (Ok d', w') →
  Forall (λ kv, Q kv.2) d'.
Proof.
  intros HR. revert d w. induction datasets as [|dataset datasets IH];
    intros d w Hd; simpl.
  - by intros [-> _]%ret_Ok.
  - intros (d1 & w1 & Hk & Hrest)%bind_Ok.
    eapply IH; [|exact Hrest]. eapply for_keys_inv; [|done|exact Hk].
    intros key w0 ds w0' _. apply HR.
Qed.
End Invariant.

Lemma for_datasets_nonempty datasets (w : World) d' w' :
  for_datasets fragility_function datasets [] w = (Ok d', w') →
  Forall (λ kv, kv.2 ≠ []) d'.
Proof.
  apply (for_datasets_inv (λ _, True) (λ l, l ≠ [])); try done.
  - intros l ds _ _. by destruct l.
Qed.

End Parser.

Section Completeness.
Context {num : Type} `{Countable num} {prob : Type}.
Variable lognorm_cdf norm_cdf : num → num → num → prob.
Local Abbreviation M := (@M num _ _ prob).
Local Abbreviation World := (@World num _ _ prob).

(** Claim C1 (lattice completeness).  When the states parsed for a
    taxonomy are exactly the baseline transitions [(0,k)], [k = 1..N], each
    once, [to_fragility_provider] returns a provider whose collection for
    that taxonomy holds exactly one damage state for every pair [(i,j)]
    with [0 <= i < j <= N], and the state at [(i,j)] refers to the very
    function object of the state at [(0,j)]. *)
Theorem lattice_completeness (self : FragilityData) (w w1 : World)
    (factory : num → num → M addr)
    (parsed : PyDict.dict (list DamageState)) (tax : string)
    (l0 : list DamageState) (N : Z) :
  PyDict.get (meta_shape self)
    (SUPPORTED_FRAGILITY_FUNCTION_FACTORIES lognorm_cdf norm_cdf)
    = Some factory →
  for_datasets factory (data self) [] w = (Ok parsed, w1) →
  PyDict.get tax parsed = Some l0 →
  1 ≤ N →
  baseline_only N l0 →
  ∃ provider,
    to_fragility_provider lognorm_cdf norm_cdf self w = (Ok provider, w1) ∧
    ∀ i j, 0 ≤ i ∧ i < j ∧ j ≤ N →
      ∃ ds ds0,
        filter (at_pair i j) (get_damage_states_for_taxonomy provider tax) = [ds]
        ∧ filter (at_pair 0 j) (get_damage_states_for_taxonomy provider tax) = [ds0]
        ∧ fragility_function ds = fragility_function ds0.
Proof.
  intros Hshape Hparse Hget HN Hbase.
  destruct (add_missing_total parsed) as [completed Hc].
  { eapply for_datasets_nonempty, Hparse. }
  exists (mkFragilityProvider completed (meta_id self)). split.
  - unfold to_fragility_provider, PyDict.getitem. rewrite Hshape.
    unfold bind at 1. simpl.
    unfold to_fragility_provider_with_specified_fragility_function.
    unfold bind at 1. rewrite Hparse. unfold bind, lift. by rewrite Hc.
  - pose proof (add_missing_get parsed completed tax Hc) as Hg.
    rewrite Hget in Hg. destruct Hg as (l' & Hl' & Hg').
    unfold get_damage_states_for_taxonomy. simpl. rewrite Hg'. simpl.
    destruct (completion_baseline N l0 HN Hbase) as (l & Hl & Hprop).
    rewrite Hl in Hl'. injection Hl' as <-. exact Hprop.
Qed.
End Completeness.

(** * Parsed and completed states are single digits *)

Lemma match_here_digit p bol s g c :
  Re.match_here p bol s g = Some (Some c) →
  g = Some c ∨ PyStr.is_digit c = true.
Proof.
  revert bol s g. induction p as [|a p IH]; intros bol s g; simpl.
  - intros [= ->]. by left.
  - destruct a.
    + destruct bol; [apply IH|done].
    + destruct s as [|x [|y s]]; [apply IH| |done].
      destruct (Re.ascii_eqb x "010"); [apply IH|done].
    + destruct s as [|x s]; [done|].
      destruct (Re.ascii_eqb x c0); [apply IH|done].
    + destruct s as [|x s]; [apply IH|].
      destruct (Re.ascii_eqb x c0); [|apply IH].
      destruct (Re.match_here p false s g) eqn:Hm.
      * intros [= ->]. by eapply IH.
      * apply IH.
    + destruct s as [|x s]; [done|].
      destruct (PyStr.is_digit x) eqn:Hd; [|done].
      intros Hm. apply IH in Hm as [[= ->]|Hm]; by right.
Qed.

Lemma search_from_digit p bol s c :
  Re.search_from p bol s = Some (Some c) → PyStr.is_digit c = true.
Proof.
  revert bol. induction s as [|x s IH]; intros bol; simpl.
  - destruct (Re.match_here p bol "" None) eqn:Hm; [|done].
    intros [= ->]. by apply match_here_digit in Hm as [|].
  - destruct (Re.match_here p bol (String x s) None) eqn:Hm; [|apply IH].
    intros [= ->]. by apply match_here_digit in Hm as [|].
Qed.

Lemma group1_search_digit p s c :
  Re.group1 (Re.search p s) = Ok c → PyStr.is_digit c = true.
Proof.
  unfold Re.group1, Re.search.
  destruct (Re.search_from p true s) as [[c'|]|] eqn:Hs; try done.
  intros [= <-]. by eapply search_from_digit.
Qed.

Lemma digit_value_range c :
  PyStr.is_digit c = true → 0 ≤ PyStr.digit_value c ≤ 9.
Proof.
  unfold PyStr.is_digit, PyStr.digit_value. intros Hd.
  apply andb_true_iff in Hd as [H1 H2].
  apply Nat.leb_le in H1, H2. lia.
Qed.

Lemma foldl_inv {A B} (I : A → Prop) (Pb : B → Prop) (g : A → B → A) l x :
  Forall Pb l → I x → (∀ y b, Pb b → I y → I (g y b)) → I (foldl g x l).
Proof.
  intros Hl Hx Hg. revert x Hx. induction Hl as [|b l Hb Hl IH]; intros x Hx; simpl.
  - done.
  - apply IH. by apply Hg.
Qed.

Lemma add_if_missing_single_digits f t l :
  0 ≤ f ≤ 9 → Forall single_digits l → Forall single_digits (add_if_missing f t l).
Proof.
  intros Hf Hl. unfold add_if_missing.
  destruct (filter (at_pair f t) l); [|done].
  destruct (filter (at_pair (f - 1) t) l) as [|d rest] eqn:Hfl; [done|].
  destruct (filter_head_elem _ _ _ _ Hfl) as [[Hdf Hdt] Hdl].
  apply Forall_app. split; [done|]. repeat constructor; simpl; try lia.
  all: rewrite Forall_forall in Hl; destruct (Hl d Hdl) as [? ?]; lia.
Qed.

Lemma completion_single_digits l l' :
  Forall single_digits l →
  _add_damage_states_if_missing_to_dataset_list l = Ok l' →
  Forall single_digits l'.
Proof.
  intros Hl. unfold _add_damage_states_if_missing_to_dataset_list.
  destruct (py_max (to_state <$> l)) as [e|m] eqn:Hm; simpl; [done|].
  intros [= <-].
  assert (m ≤ 9) as Hm9.
  { destruct l as [|d l]; [done|].
    destruct (py_max_spec (to_state <$> d :: l)) as (m' & Hm' & Hin & _); [done|].
    rewrite Hm in Hm'. injection Hm' as <-.
    apply list_elem_of_fmap in Hin as (x & -> & Hx).
    rewrite Forall_forall in Hl. destruct (Hl x Hx) as [_ ?]. lia. }
  apply (foldl_inv (Forall single_digits) (λ f, 0 ≤ f ≤ 9)); [|done|].
  - apply Forall_forall. intros f Hf. apply elem_of_seqZ in Hf. lia.
  - intros y f Hf Hy. unfold add_for_from_state.
    apply (foldl_inv (Forall single_digits) (λ _, True)); [|done|].
    + by apply Forall_forall.
    + intros y' t _ Hy'. by apply add_if_missing_single_digits.
Qed.

Lemma add_missing_Forall (Q : list DamageState → Prop) d d' :
  (∀ l l', Q l → _add_damage_states_if_missing_to_dataset_list l = Ok l' → Q l') →
  Forall (λ kv, Q kv.2) d →
  _add_damage_states_if_missing d = Ok d' →
  Forall (λ kv, Q kv.2) d'.
Proof.
  intros HQ Hd. revert d'. induction Hd as [|[k l] d Hl Hd IH]; intros d'; simpl.
  - by intros [= <-].
  - destruct (_add_damage_states_if_missing_to_dataset_list l) as [e|l'] eqn:Hc;
      simpl; [done|].
    destruct (_add_damage_states_if_missing d) as [e|r] eqn:Hr; simpl; [done|].
    intros [= <-]. constructor; simpl; [by eapply HQ|by apply IH].
Qed.

Section SingleDigits.
Context {num : Type} `{Countable num} {prob : Type}.
Variable lognorm_cdf norm_cdf : num → num → num → prob.
Local Abbreviation M := (@M num _ _ prob).
Local Abbreviation World := (@World num _ _ prob).

Lemma parse_damage_state_single_digits (factory : num → num → M addr)
    dataset key (w : World) ds w' :
  parse_damage_state factory dataset key w = (Ok ds, w') → single_digits ds.
Proof.
  unfold parse_damage_state.
  intros (tc & w1 & [Ht ->]%lift_Ok & Hrest)%bind_Ok.
  apply bind_Ok in Hrest as (fc & w2 & [Hf ->]%lift_Ok & Hrest).
  apply bind_Ok in Hrest as (mean & w3 & _ & Hrest).
  apply bind_Ok in Hrest as (stddev & w4 & _ & Hrest).
  apply bind_Ok in Hrest as (f & w5 & _ & Hrest).
  apply ret_Ok in Hrest as [-> _].
  apply group1_search_digit, digit_value_range in Ht, Hf.
  unfold single_digits, DamageState_init. simpl.
  destruct (decide _); lia.
Qed.

Lemma provider_single_digits (self : FragilityData)
    (factory : num → num → M addr) (w : World) provider w' tax ds :
  to_fragility_provider_with_specified_fragility_function self factory w
    = (Ok provider, w') →
  ds ∈ get_damage_states_for_taxonomy provider tax →
  single_digits ds.
Proof.
  unfold to_fragility_provider_with_specified_fragility_function.
  intros (parsed & w1 & Hparse & Hrest)%bind_Ok.
  apply bind_Ok in Hrest as (completed & w2 & [Hc ->]%lift_Ok & Hrest).
  apply ret_Ok in Hrest as [-> _].
  unfold get_damage_states_for_taxonomy. simpl.
  destruct (PyDict.get tax completed) as [l|] eqn:Hg; simpl;
    [|by intros ?%not_elem_of_nil].
  assert (Forall (λ kv, Forall single_digits kv.2) completed) as Hall.
  { eapply (add_missing_Forall (Forall single_digits)); [|..|exact Hc].
    - apply completion_single_digits.
    - assert (∀ d0, single_digits d0 → Forall single_digits [d0]) as HQ1
        by (intros; constructor; [done|constructor]).
      assert (∀ l0 d0, Forall single_digits l0 → single_digits d0 →
                Forall single_digits (l0 ++ [d0])) as HQ2
        by (intros; apply Forall_app; split; [done|constructor; [done|constructor]]).
      exact (for_datasets_inv factory _ _ HQ1 HQ2 (data self) [] w parsed w1
               (parse_damage_state_single_digits factory)
               (Forall_nil_2 _) Hparse). }
  intros Hin. pose proof (get_Forall _ _ _ _ Hall Hg) as Hl.
  rewrite Forall_forall in Hl. by apply Hl.
Qed.

(** Claim C2, as the code has it.  Every damage state of every collection
    of a provider built by [to_fragility_provider] has a [from_state] and
    a [to_state] that are non-negative integers, both single digits;
    nothing orders the two. *)
Theorem damage_states_single_digits (self : FragilityData) (w : World)
    provider w' tax ds :
  to_fragility_provider lognorm_cdf norm_cdf self w = (Ok provider, w') →
  ds ∈ get_damage_states_for_taxonomy provider tax →
  0 ≤ from_state ds ≤ 9 ∧ 0 ≤ to_state ds ≤ 9.
Proof.
  unfold to_fragility_provider.
  intros (factory & w1 & [_ ->]%lift_Ok & Hrest)%bind_Ok.
  intros Hin. exact (provider_single_digits _ _ _ _ _ _ _ Hrest Hin).
Qed.
End SingleDigits.

(** * The store *)

Section WorldLemmas.
Context {num : Type} `{Countable num} {prob : Type}.
Variable lognorm_cdf norm_cdf : num → num → num → prob.
Local Abbreviation World := (@World num _ _ prob).
Local Abbreviation CachedFunction := (@CachedFunction num _ _ prob).
Local Abbreviation wf := (wf_world lognorm_cdf norm_cdf).
Local Abbreviation LogncdfFactory_call := (LogncdfFactory_call lognorm_cdf).
Local Abbreviation NormCdfFactory_call := (NormCdfFactory_call norm_cdf).

Lemma extends_refl (w : World) : extends w w.
Proof. repeat split; try done. intros a f Hf. by exists f. Qed.

Lemma extends_trans (w1 w2 w3 : World) :
  extends w1 w2 → extends w2 w3 → extends w1 w3.
Proof.
  intros (Hl1 & Hh1 & Ha1 & Hb1) (Hl2 & Hh2 & Ha2 & Hb2).
  repeat split; [lia| |by etrans|by etrans].
  intros a f Hf. destruct (Hh1 a f Hf) as (f' & Hf' & Hi').
  destruct (Hh2 a f' Hf') as (f'' & Hf'' & Hi''). exists f''.
  split; [done|congruence].
Qed.

Lemma factory_coherent_extends dist c (w w' : World) :
  factory_coherent dist c w → extends w w' → factory_coherent dist c w'.
Proof.
  intros Hc (_ & Hh & _) mean stddev a Ha.
  destruct (Hc mean stddev a Ha) as (f & Hf & Hi).
  destruct (Hh a f Hf) as (f' & Hf' & Hi'). exists f'. split; [done|congruence].
Qed.

Lemma wf_initial : wf initial_world.
Proof.
  split; [apply Forall_nil_2|].
  split; intros mean stddev a Ha; simpl in Ha; by rewrite lookup_empty in Ha.
Qed.

(** *** [CachedFunction(f)] *)

Lemma new_CachedFunction_spec f (w : World) :
  ∃ w', new_CachedFunction f w = (Ok (length (heap w)), w')
        ∧ heap w' = heap w ++ [CachedFunction_init f]
        ∧ logncdf_cache w' = logncdf_cache w
        ∧ normcdf_cache w' = normcdf_cache w.
Proof. by eexists. Qed.

Lemma extends_alloc (w w' : World) f :
  heap w' = heap w ++ [f] →
  logncdf_cache w ⊆ logncdf_cache w' →
  normcdf_cache w ⊆ normcdf_cache w' →
  extends w w'.
Proof.
  intros Hh Ha Hb. repeat split; try done.
  - rewrite Hh, length_app. lia.
  - intros a g Hg. exists g. split; [|done]. rewrite Hh.
    by apply lookup_app_l_Some.
Qed.

Lemma cache_coherent_init (f : num → prob) :
  cache_coherent (CachedFunction_init f).
Proof. intros x r Hx. simpl in Hx. by rewrite lookup_empty in Hx. Qed.

Lemma new_CachedFunction_wf f (w : World) :
  wf w → wf (new_CachedFunction f w).2 ∧ extends w (new_CachedFunction f w).2.
Proof.
  intros (Hh & Ha & Hb).
  assert (extends w (new_CachedFunction f w).2) as Hext
    by (by eapply extends_alloc).
  split; [|done]. split; [|split].
  - simpl. apply Forall_app. split; [done|].
    constructor; [apply cache_coherent_init|constructor].
  - by eapply factory_coherent_extends.
  - by eapply factory_coherent_extends.
Qed.

(** *** Calling a function object *)

Lemma CachedFunction_call_live self value (w : World) f :
  wf w → heap w !! self = Some f →
  ∃ w', CachedFunction_call self value w = (Ok (inner_function f value), w')
        ∧ wf w' ∧ extends w w'
        ∧ (∃ f', heap w' !! self = Some f'
                 ∧ inner_function f' = inner_function f
                 ∧ cache f' !! value = Some (inner_function f value)).
Proof.
  intros (Hh & Ha & Hb) Hf. unfold CachedFunction_call. rewrite Hf.
  assert (cache_coherent f) as Hcf.
  { rewrite Forall_forall in Hh. apply Hh. by eapply list_elem_of_lookup_2. }
  destruct (cache f !! value) as [r|] eqn:Hc.
  - rewrite (Hcf value r Hc). exists w.
    split; [done|]. split; [done|]. split; [apply extends_refl|].
    exists f. split; [done|]. split; [done|]. by rewrite Hc, (Hcf value r Hc).
  - eexists. split; [done|].
    set (f' := mkCachedFunction (inner_function f)
                 (<[value := inner_function f value]> (cache f))).
    assert (self < length (heap w))%nat as Hlt by (by eapply lookup_lt_Some).
    assert (extends w (mkWorld (<[self := f']> (heap w)) (logncdf_cache w)
                         (normcdf_cache w))) as Hext.
    { repeat split; simpl; try done.
      - by rewrite length_insert.
      - intros a g Hg. destruct (decide (a = self)) as [->|Hne].
        + exists f'. rewrite list_lookup_insert_eq by done.
          split; [done|]. by pose proof (eq_trans (eq_sym Hg) Hf) as [= ->].
        + exists g. by rewrite list_lookup_insert_ne. }
    split; [|split; [done|]].
    + split; [|split].
      * simpl. apply Forall_insert; [done|].
        intros x r. unfold f'. simpl.
        destruct (decide (x = value)) as [->|Hne].
        -- rewrite lookup_insert_eq. by intros [= <-].
        -- rewrite lookup_insert_ne by done. apply Hcf.
      * by apply (factory_coherent_extends _ _ w).
      * by apply (factory_coherent_extends _ _ w).
    + exists f'. simpl. rewrite list_lookup_insert_eq by done.
      split; [done|]. split; [done|]. unfold f'. simpl.
      by rewrite lookup_insert_eq.
Qed.

Lemma CachedFunction_call_dangling self value (w : World) :
  heap w !! self = None →
  CachedFunction_call self value w = (Raise TypeError, w).
Proof. intros Hf. unfold CachedFunction_call. by rewrite Hf. Qed.

Lemma CachedFunction_call_wf self value (w : World) :
  wf w → wf (CachedFunction_call self value w).2
         ∧ extends w (CachedFunction_call self value w).2.
Proof.
  intros Hw. destruct (heap w !! self) as [f|] eqn:Hf.
  - destruct (CachedFunction_call_live self value w f Hw Hf)
      as (w' & -> & Hw' & Hext & _). done.
  - rewrite CachedFunction_call_dangling by done. split; [done|apply extends_refl].
Qed.

(** *** The factories *)

Lemma LogncdfFactory_call_spec mean stddev (w : World) :
  wf w →
  ∃ a w' f, LogncdfFactory_call mean stddev w = (Ok a, w')
    ∧ wf w' ∧ extends w w'
    ∧ logncdf_cache w' !! (mean, stddev) = Some a
    ∧ heap w' !! a = Some f ∧ inner_function f = lognorm_cdf mean stddev.
Proof.
  intros (Hh & Ha & Hb). unfold LogncdfFactory_call, FactoryCacheKey.
  destruct (logncdf_cache w !! (mean, stddev)) as [a|] eqn:Hc.
  - destruct (Ha mean stddev a Hc) as (f & Hf & Hi).
    exists a, w, f. repeat split; try done. apply extends_refl.
  - simpl.
    set (f := CachedFunction_init (lognorm_cdf mean stddev)).
    set (w' := mkWorld (heap w ++ [f])
                 (<[(mean, stddev) := length (heap w)]> (logncdf_cache w))
                 (normcdf_cache w)).
    assert (extends w w') as Hext.
    { eapply extends_alloc; simpl; [done| |done]. by apply insert_subseteq. }
    assert (heap w' !! length (heap w) = Some f) as Hf.
    { simpl. by rewrite lookup_app_r, Nat.sub_diag by lia. }
    exists (length (heap w)), w', f. split; [done|]. split; [|split; [done|]].
    + split; [|split].
      * simpl. apply Forall_app. split; [done|].
        constructor; [apply cache_coherent_init|constructor].
      * intros m s a. simpl.
        destruct (decide ((mean, stddev) = (m, s))) as [[= <- <-]|Hne].
        -- rewrite lookup_insert_eq. intros [= <-]. by exists f.
        -- rewrite lookup_insert_ne by done. intros Hms.
           by apply (factory_coherent_extends _ _ w w' Ha Hext m s a).
      * by apply (factory_coherent_extends _ _ w w' Hb Hext).
    + split; [by simpl; rewrite lookup_insert_eq|]. done.
Qed.

Lemma NormCdfFactory_call_spec mean stddev (w : World) :
  wf w →
  ∃ a w' f, NormCdfFactory_call mean stddev w = (Ok a, w')
    ∧ wf w' ∧ extends w w'
    ∧ normcdf_cache w' !! (mean, stddev) = Some a
    ∧ heap w' !! a = Some f ∧ inner_function f = norm_cdf mean stddev.
Proof.
  intros (Hh & Ha & Hb). unfold NormCdfFactory_call, FactoryCacheKey.
  destruct (normcdf_cache w !! (mean, stddev)) as [a|] eqn:Hc.
  - destruct (Hb mean stddev a Hc) as (f & Hf & Hi).
    exists a, w, f. repeat split; try done. apply extends_refl.
  - simpl.
    set (f := CachedFunction_init (norm_cdf mean stddev)).
    set (w' := mkWorld (heap w ++ [f]) (logncdf_cache w)
                 (<[(mean, stddev) := length (heap w)]> (normcdf_cache w))).
    assert (extends w w') as Hext.
    { eapply extends_alloc; simpl; [done|done|]. by apply insert_subseteq. }
    assert (heap w' !! length (heap w) = Some f) as Hf.
    { simpl. by rewrite lookup_app_r, Nat.sub_diag by lia. }
    exists (length (heap w)), w', f. split; [done|]. split; [|split; [done|]].
    + split; [|split].
      * simpl. apply Forall_app. split; [done|].
        constructor; [apply cache_coherent_init|constructor].
      * by apply (factory_coherent_extends _ _ w w' Ha Hext).
      * intros m s a. simpl.
        destruct (decide ((mean, stddev) = (m, s))) as [[= <- <-]|Hne].
        -- rewrite lookup_insert_eq. intros [= <-]. by exists f.
        -- rewrite lookup_insert_ne by done. intros Hms.
           by apply (factory_coherent_extends _ _ w w' Hb Hext m s a).
    + split; [by simpl; rewrite lookup_insert_eq|]. done.
Qed.

(** *** Histories *)

Lemma run_op_wf o (w : World) :
  wf w → wf (run_op lognorm_cdf norm_cdf o w)
         ∧ extends w (run_op lognorm_cdf norm_cdf o w).
Proof.
  intros Hw. destruct o as [m s|m s|f|a x]; simpl.
  - destruct (LogncdfFactory_call_spec m s w Hw) as (a & w' & f & -> & ? & ? & _).
    done.
  - destruct (NormCdfFactory_call_spec m s w Hw) as (a & w' & f & -> & ? & ? & _).
    done.
  - by apply new_CachedFunction_wf.
  - by apply CachedFunction_call_wf.
Qed.

Lemma run_wf ops (w : World) :
  wf w → wf (run lognorm_cdf norm_cdf ops w)
         ∧ extends w (run lognorm_cdf norm_cdf ops w).
Proof.
  revert w. induction ops as [|o ops IH]; intros w Hw; simpl.
  - split; [done|apply extends_refl].
  - destruct (run_op_wf o w Hw) as [Hw1 He1].
    destruct (IH _ Hw1) as [Hw2 He2]. split; [done|]. by eapply extends_trans.
Qed.

Lemma reachable_wf history : wf (run lognorm_cdf norm_cdf history initial_world).
Proof. apply run_wf, wf_initial. Qed.

End WorldLemmas.

(** * Caching *)

Section Caching.
Context {num : Type} `{Countable num} {prob : Type}.
Variable lognorm_cdf norm_cdf : num → num → num → prob.
Local Abbreviation World := (@World num _ _ prob).
Local Abbreviation CachedFunction := (@CachedFunction num _ _ prob).
Local Abbreviation wf := (wf_world lognorm_cdf norm_cdf).
Local Abbreviation similar := (similar lognorm_cdf norm_cdf).
Local Abbreviation logncdf := (LogncdfFactory_call lognorm_cdf).
Local Abbreviation normcdf := (NormCdfFactory_call norm_cdf).
Local Abbreviation run := (run lognorm_cdf norm_cdf).
Local Abbreviation run_op := (run_op lognorm_cdf norm_cdf).
Local Abbreviation observe := (observe lognorm_cdf norm_cdf).
Local Abbreviation observe_op := (observe_op lognorm_cdf norm_cdf).

Lemma LogncdfFactory_call_cached mean stddev (w : World) a :
  logncdf_cache w !! (mean, stddev) = Some a →
  logncdf mean stddev w = (Ok a, w).
Proof. intros Hc. unfold LogncdfFactory_call, FactoryCacheKey. by rewrite Hc. Qed.

Lemma NormCdfFactory_call_cached mean stddev (w : World) a :
  normcdf_cache w !! (mean, stddev) = Some a →
  normcdf mean stddev w = (Ok a, w).
Proof. intros Hc. unfold NormCdfFactory_call, FactoryCacheKey. by rewrite Hc. Qed.

Lemma LogncdfFactory_same_object mean stddev ops (w : World) :
  wf w →
  ∃ a w1, logncdf mean stddev w = (Ok a, w1)
    ∧ logncdf mean stddev (run ops w1) = (Ok a, run ops w1).
Proof.
  intros Hw.
  destruct (LogncdfFactory_call_spec lognorm_cdf norm_cdf mean stddev w Hw)
    as (a & w1 & f & Hcall & Hw1 & _ & Hc & _).
  exists a, w1. split; [done|]. apply LogncdfFactory_call_cached.
  destruct (run_wf lognorm_cdf norm_cdf ops w1 Hw1) as [_ (_ & _ & Hsub & _)].
  by eapply lookup_weaken.
Qed.

Lemma NormCdfFactory_same_object mean stddev ops (w : World) :
  wf w →
  ∃ a w1, normcdf mean stddev w = (Ok a, w1)
    ∧ normcdf mean stddev (run ops w1) = (Ok a, run ops w1).
Proof.
  intros Hw.
  destruct (NormCdfFactory_call_spec lognorm_cdf norm_cdf mean stddev w Hw)
    as (a & w1 & f & Hcall & Hw1 & _ & Hc & _).
  exists a, w1. split; [done|]. apply NormCdfFactory_call_cached.
  destruct (run_wf lognorm_cdf norm_cdf ops w1 Hw1) as [_ (_ & _ & _ & Hsub)].
  by eapply lookup_weaken.
Qed.

Lemma CachedFunction_transparent (f : num → prob) ops value (w : World) :
  wf w →
  ∃ a w1 w2, new_CachedFunction f w = (Ok a, w1)
    ∧ CachedFunction_call a value (run ops w1) = (Ok (f value), w2).
Proof.
  intros Hw.
  destruct (new_CachedFunction_wf lognorm_cdf norm_cdf f w Hw) as [Hw1 _].
  exists (length (heap w)), (new_CachedFunction f w).2.
  destruct (run_wf lognorm_cdf norm_cdf ops _ Hw1) as [Hw2 (_ & Hh & _)].
  destruct (Hh (length (heap w)) (CachedFunction_init f)) as (f' & Hf' & Hi').
  { simpl. by rewrite lookup_app_r, Nat.sub_diag by lia. }
  destruct (CachedFunction_call_live lognorm_cdf norm_cdf (length (heap w))
              value _ f' Hw2 Hf') as (w2 & Hcall & _).
  exists w2. split; [done|]. rewrite Hcall, Hi'. done.
Qed.

Lemma CachedFunction_call_twice self value (w : World) r w1 :
  CachedFunction_call self value w = (r, w1) →
  CachedFunction_call self value w1 = (r, w1).
Proof.
  unfold CachedFunction_call.
  destruct (heap w !! self) as [f|] eqn:Hf.
  - destruct (cache f !! value) as [c|] eqn:Hc.
    + intros [= <- <-]. by rewrite Hf, Hc.
    + intros [= <- <-]. simpl.
      rewrite list_lookup_insert_eq by (by eapply lookup_lt_Some). simpl.
      rewrite lookup_insert_eq. done.
  - intros [= <- <-]. by rewrite Hf.
Qed.

Lemma get_probability_twice (self : DamageState) intensity units
    (w : World) r w1 :
  get_probability_for_intensity self intensity units w = (r, w1) →
  get_probability_for_intensity self intensity units w1 = (r, w1).
Proof.
  unfold get_probability_for_intensity.
  destruct (intensity !! intensity_field self) as [value|];
    [|by intros [= <- <-]].
  destruct (units !! intensity_field self) as [unit|];
    [|by intros [= <- <-]].
  destruct (decide (unit ≠ intensity_unit self)); [by intros [= <- <-]|].
  apply CachedFunction_call_twice.
Qed.

(** *** A call changes nothing that can be observed *)

Lemma CachedFunction_call_same_objects self value (w : World) :
  same_objects w (CachedFunction_call self value w).2.
Proof.
  unfold CachedFunction_call. destruct (heap w !! self) as [f|] eqn:Hf.
  - destruct (cache f !! value) as [c|] eqn:Hc; simpl.
    + by repeat split.
    + repeat split; simpl; try done.
      * by rewrite length_insert.
      * intros a. destruct (decide (a = self)) as [->|Hne].
        -- rewrite list_lookup_insert_eq by (by eapply lookup_lt_Some).
           by rewrite Hf.
        -- by rewrite list_lookup_insert_ne.
  - by repeat split.
Qed.

Lemma similar_call self value (w : World) :
  wf w → similar w (CachedFunction_call self value w).2.
Proof.
  intros Hw. split; [apply CachedFunction_call_same_objects|].
  split; [done|]. by apply CachedFunction_call_wf.
Qed.

Lemma similar_step o (w w' : World) :
  similar w w' →
  observe_op o w = observe_op o w' ∧ similar (run_op o w) (run_op o w').
Proof.
  intros ((Hlen & Hin & Ha & Hb) & Hw & Hw').
  assert (∀ x y : World, wf x → wf y → same_objects x y → similar x y) as Hsim
    by (intros; split; [done|split; done]).
  destruct o as [m s|m s|f|a x]; simpl.
  - unfold LogncdfFactory_call, FactoryCacheKey. rewrite <- Ha.
    pose proof (run_op_wf lognorm_cdf norm_cdf (OpLogncdf m s) w Hw) as [Hr _].
    pose proof (run_op_wf lognorm_cdf norm_cdf (OpLogncdf m s) w' Hw') as [Hr' _].
    simpl in Hr, Hr'. unfold LogncdfFactory_call, FactoryCacheKey in Hr, Hr'.
    rewrite <- Ha in Hr'.
    destruct (logncdf_cache w !! (m, s)) as [r|]; simpl in *.
    + split; [done|]. by apply Hsim.
    + rewrite Hlen in Hr |- *. split; [done|]. apply Hsim; [done|done|].
      repeat split; simpl; [by rewrite !length_app, Hlen| |by rewrite Ha|done].
      intros a. destruct (decide (a < length (heap w))%nat).
      * rewrite !lookup_app_l by lia. apply Hin.
      * rewrite !lookup_app_r by lia. by rewrite Hlen.
  - unfold NormCdfFactory_call, FactoryCacheKey. rewrite <- Hb.
    pose proof (run_op_wf lognorm_cdf norm_cdf (OpNormcdf m s) w Hw) as [Hr _].
    pose proof (run_op_wf lognorm_cdf norm_cdf (OpNormcdf m s) w' Hw') as [Hr' _].
    simpl in Hr, Hr'. unfold NormCdfFactory_call, FactoryCacheKey in Hr, Hr'.
    rewrite <- Hb in Hr'.
    destruct (normcdf_cache w !! (m, s)) as [r|]; simpl in *.
    + split; [done|]. by apply Hsim.
    + rewrite Hlen in Hr |- *. split; [done|]. apply Hsim; [done|done|].
      repeat split; simpl; [by rewrite !length_app, Hlen| |done|by rewrite Hb].
      intros a. destruct (decide (a < length (heap w))%nat).
      * rewrite !lookup_app_l by lia. apply Hin.
      * rewrite !lookup_app_r by lia. by rewrite Hlen.
  - rewrite Hlen. split; [done|]. apply Hsim.
    + by apply (new_CachedFunction_wf lognorm_cdf norm_cdf f w).
    + by apply (new_CachedFunction_wf lognorm_cdf norm_cdf f w').
    + repeat split; simpl; [by rewrite !length_app, Hlen| |done|done].
      intros a. destruct (decide (a < length (heap w))%nat).
      * rewrite !lookup_app_l by lia. apply Hin.
      * rewrite !lookup_app_r by lia. by rewrite Hlen.
  - split.
    + specialize (Hin a).
      destruct (heap w !! a) as [f|] eqn:Hf; destruct (heap w' !! a) as [f'|] eqn:Hf';
        try done.
      * destruct (CachedFunction_call_live lognorm_cdf norm_cdf a x w f Hw Hf)
          as (w1 & -> & _).
        destruct (CachedFunction_call_live lognorm_cdf norm_cdf a x w' f' Hw' Hf')
          as (w1' & -> & _).
        simpl in *. injection Hin as ->. done.
      * by rewrite !CachedFunction_call_dangling.
    + apply Hsim.
      * by apply CachedFunction_call_wf.
      * by apply CachedFunction_call_wf.
      * destruct (CachedFunction_call_same_objects a x w) as (L1 & I1 & A1 & B1).
        destruct (CachedFunction_call_same_objects a x w') as (L2 & I2 & A2 & B2).
        repeat split; [congruence| |congruence|congruence].
        intros b. rewrite <- I1, <- I2. apply Hin.
Qed.

Lemma similar_observe ops (w w' : World) :
  similar w w' → observe ops w = observe ops w'.
Proof.
  revert w w'. induction ops as [|o ops IH]; intros w w' Hs; simpl; [done|].
  destruct (similar_step o w w' Hs) as [-> Hs']. f_equal. by apply IH.
Qed.

Lemma get_probability_similar (self : DamageState) intensity units
    (w : World) :
  wf w → similar w (get_probability_for_intensity self intensity units w).2.
Proof.
  intros Hw.
  assert (similar w w) as Hrefl by (split; [by repeat split|done]).
  unfold get_probability_for_intensity.
  destruct (intensity !! intensity_field self) as [value|]; [|done].
  destruct (units !! intensity_field self) as [unit|]; [|done].
  destruct (decide (unit ≠ intensity_unit self)); [done|].
  by apply similar_call.
Qed.

End Caching.

Section Claims.
Context {num : Type} `{Countable num} {prob : Type}.
Variable lognorm_cdf norm_cdf : num → num → num → prob.
Local Abbreviation World := (@World num _ _ prob).
Local Abbreviation CachedFunction := (@CachedFunction num _ _ prob).
Local Abbreviation LogncdfFactory_call := (LogncdfFactory_call lognorm_cdf).
Local Abbreviation NormCdfFactory_call := (NormCdfFactory_call norm_cdf).
Local Abbreviation run := (run lognorm_cdf norm_cdf).
Local Abbreviation observe := (observe lognorm_cdf norm_cdf).

(** Claim C4 (evaluation and unit mismatch).  For a damage state built by
    the constructor, whose function is an object of the store, and for
    value and unit mappings that both contain its upper-cased measure
    name: [get_probability_for_intensity] raises if and only if the unit
    supplied differs from the declared unit, and otherwise it is the call
    of the fragility function on the value looked up, which returns the
    wrapped function at that value. *)
Theorem unit_mismatch_detection (history : list op)
    (taxonomy : string) (from_state to_state : Z)
    (field declared_unit : string) (function : addr)
    (intensity : gmap string num) (units : gmap string string)
    (value : num) (unit : string) (f : CachedFunction) :
  let w := run history initial_world in
  let self := DamageState_init taxonomy from_state to_state field
                declared_unit function in
  intensity !! PyStr.upper field = Some value →
  units !! PyStr.upper field = Some unit →
  heap w !! function = Some f →
  (raises (get_probability_for_intensity self intensity units w).1
     ↔ unit ≠ declared_unit)
  ∧ (unit = declared_unit →
       get_probability_for_intensity self intensity units w
         = CachedFunction_call function value w
       ∧ (get_probability_for_intensity self intensity units w).1
         = Ok (inner_function f value)).
Proof.
  intros w self Hv Hu Hf.
  assert (wf_world lognorm_cdf norm_cdf w) as Hw by apply reachable_wf.
  destruct (CachedFunction_call_live lognorm_cdf norm_cdf function value w f Hw Hf)
    as (w' & Hcall & _).
  unfold get_probability_for_intensity. simpl. rewrite Hv, Hu.
  destruct (decide (unit ≠ declared_unit)) as [Hne|Heq]; simpl.
  - split; [|done]. split; [done|]. intros _. by eexists.
  - split.
    + rewrite Hcall. simpl. split; [by intros [e [=]]|done].
    + intros _. by rewrite Hcall.
Qed.

End Claims.

(** * The parser on well-formed records *)

Ltac digit_cases n H :=
  assert (n = 0 ∨ n = 1 ∨ n = 2 ∨ n = 3 ∨ n = 4 ∨ n = 5 ∨ n = 6 ∨ n = 7
          ∨ n = 8 ∨ n = 9) as Hcases by lia;
  clear H;
  repeat (destruct Hcases as [->|Hcases]); [..|subst n].

Lemma read_key_convention key stddev_key p :
  convention key stddev_key p → read_key key = Ok (p, stddev_key).
Proof.
  destruct 1 as [n Hn|i j Hi Hj].
  - digit_cases n Hn; vm_compute; reflexivity.
  - digit_cases i Hi; digit_cases j Hj; vm_compute; reflexivity.
Qed.

Lemma is_mean_key_convention key stddev_key p :
  convention key stddev_key p → is_mean_key key = true.
Proof.
  destruct 1 as [n Hn|i j Hi Hj].
  - digit_cases n Hn; vm_compute; reflexivity.
  - digit_cases i Hi; digit_cases j Hj; vm_compute; reflexivity.
Qed.

Section ParserLemmas.
Context {num : Type} `{Countable num} {prob : Type}.
Variable lognorm_cdf norm_cdf : num → num → num → prob.
Local Abbreviation M := (@M num _ _ prob).
Local Abbreviation World := (@World num _ _ prob).
Local Abbreviation wf := (wf_world lognorm_cdf norm_cdf).
Local Abbreviation factory_for := (factory_for lognorm_cdf norm_cdf).

Lemma supported_factory shape (factory : num → num → M addr) :
  PyDict.get shape (SUPPORTED_FRAGILITY_FUNCTION_FACTORIES lognorm_cdf norm_cdf)
    = Some factory →
  factory_for (declared_cdf lognorm_cdf norm_cdf shape) factory.
Proof.
  unfold SUPPORTED_FRAGILITY_FUNCTION_FACTORIES, declared_cdf. simpl.
  destruct (decide ("logncdf" = shape)) as [<-|Hne].
  - intros [= <-]. rewrite decide_True by done. intros mean stddev w Hw.
    destruct (LogncdfFactory_call_spec lognorm_cdf norm_cdf mean stddev w Hw)
      as (a & w' & f & ? & ? & ? & _ & ? & ?).
    by exists a, w', f.
  - destruct (decide ("normcdf" = shape)) as [<-|Hne']; [|done].
    intros [= <-]. rewrite decide_False by done. intros mean stddev w Hw.
    destruct (NormCdfFactory_call_spec lognorm_cdf norm_cdf mean stddev w Hw)
      as (a & w' & f & ? & ? & ? & _ & ? & ?).
    by exists a, w', f.
Qed.

Lemma parse_damage_state_read (factory : num → num → M addr) dataset key
    (w : World) p stddev_key mean stddev :
  read_key key = Ok (p, stddev_key) →
  PyDict.get key (d_values dataset) = Some mean →
  PyDict.get stddev_key (d_values dataset) = Some stddev →
  parse_damage_state factory dataset key w
  = bind (factory mean stddev) (λ f,
      ret (DamageState_init (d_taxonomy dataset) p.1 p.2 (d_imt dataset)
             (d_imu dataset) f)) w.
Proof.
  unfold read_key, parse_damage_state. intros Hr Hm Hs.
  destruct (Re.group1 (Re.search Re.to_state_re key)) as [e|tc]; [done|].
  destruct (Re.group1 (Re.search Re.from_state_re key)) as [e|fc]; [done|].
  simpl in Hr. injection Hr as <- <-.
  unfold bind at 1, lift at 1. unfold bind at 1, lift at 1.
  unfold PyDict.getitem. rewrite Hm, Hs. reflexivity.
Qed.

Lemma yields_extends dist (w w' : World) dataset key ds :
  extends w w' → yields dist w dataset key ds → yields dist w' dataset key ds.
Proof.
  intros (_ & Hh & _) (sk & p & mean & stddev & f & Hc & Hm & Hs & Hd & Hf & Hi).
  destruct (Hh _ _ Hf) as (f' & Hf' & Hi').
  exists sk, p, mean, stddev, f'. repeat split; try done. congruence.
Qed.

Lemma for_keys_yields dist (factory : num → num → M addr) dataset keys
    d (w : World) :
  factory_for dist factory → wf w →
  Forall (well_formed_key dataset) keys →
  ∃ d' w' states,
    for_keys factory dataset keys d w = (Ok d', w')
    ∧ wf w' ∧ extends w w'
    ∧ PyDict.get (d_taxonomy dataset) d'
      = (if decide (keys = []) then PyDict.get (d_taxonomy dataset) d
         else Some (default [] (PyDict.get (d_taxonomy dataset) d) ++ states))
    ∧ Forall2 (yields dist w' dataset) keys states.
Proof.
  intros Hfac Hw Hkeys. revert d w Hw.
  induction Hkeys as [|key keys Hkey Hkeys IH]; intros d w Hw.
  - exists d, w, []. simpl. split; [done|]. split; [done|].
    split; [apply extends_refl|]. split; [done|constructor].
  - destruct Hkey as (sk & p & mean & stddev & Hc & Hm & Hs).
    destruct (Hfac mean stddev w Hw) as (a & w1 & f & Hcall & Hw1 & He1 & Hf & Hi).
    set (ds := DamageState_init (d_taxonomy dataset) p.1 p.2 (d_imt dataset)
                 (d_imu dataset) a).
    destruct (IH (PyDict.update (d_taxonomy dataset) []
                    (λ l, l ++ [ds]) d) w1 Hw1)
      as (d' & w' & states & Hloop & Hw' & He' & Hget & Hall).
    exists d', w', (ds :: states). cbn [for_keys].
    unfold bind at 1.
    rewrite (parse_damage_state_read factory dataset key w p sk mean stddev
               (read_key_convention _ _ _ Hc) Hm Hs).
    unfold bind at 1. rewrite Hcall. unfold ret at 1.
    fold ds. rewrite Hloop.
    split; [done|]. split; [done|]. split; [by eapply extends_trans|].
    split.
    + rewrite Hget, get_update_eq.
      destruct (decide (keys = [])) as [->|Hne].
      * inversion Hall; subst. done.
      * simpl. by rewrite <- app_assoc.
    + constructor; [|done]. apply (yields_extends dist w1 w'); [done|].
      by exists sk, p, mean, stddev, f.
Qed.

(** Claim C3, as the code has it.  For a record all of whose [D..._mean]
    keys follow one of the two conventions with single digits and have
    their [_stddev] partner, the loop over the keys succeeds and appends,
    to the states of the taxonomy of the record, exactly one damage state
    per key, in the order of the keys: for [D{n}_mean] the transition
    [(0,n)], for [D_{i}_{j}_mean] the transition [(i,j)], read as [(0,j)]
    when [i = j], with a function object that wraps the declared
    distribution function at the mean and the standard deviation of the
    key. *)
Theorem transition_names_single_digit (history : list op) (shape : string)
    (factory : num → num → M addr) (dataset : Dataset)
    (d : PyDict.dict (list DamageState)) :
  let w := run lognorm_cdf norm_cdf history initial_world in
  PyDict.get shape (SUPPORTED_FRAGILITY_FUNCTION_FACTORIES lognorm_cdf norm_cdf)
    = Some factory →
  Forall (well_formed_key dataset) (mean_keys dataset) →
  ∃ d' w' states,
    for_keys factory dataset (mean_keys dataset) d w = (Ok d', w')
    ∧ default [] (PyDict.get (d_taxonomy dataset) d')
      = default [] (PyDict.get (d_taxonomy dataset) d) ++ states
    ∧ Forall2 (yields (declared_cdf lognorm_cdf norm_cdf shape) w' dataset)
        (mean_keys dataset) states.
Proof.
  intros w Hshape Hkeys.
  destruct (for_keys_yields (declared_cdf lognorm_cdf norm_cdf shape) factory
              dataset (mean_keys dataset) d w)
    as (d' & w' & states & Hloop & _ & _ & Hget & Hall);
    [by apply supported_factory|apply reachable_wf|done|].
  exists d', w', states. split; [done|]. split; [|done].
  rewrite Hget. destruct (decide (mean_keys dataset = [])) as [Hnil|Hne]; [|done].
  rewrite Hnil in Hall. inversion Hall. by rewrite app_nil_r.
Qed.
End ParserLemmas.

(** * The parser on malformed keys *)

Ltac literal_step s E :=
  let a := fresh "a" in
  destruct s as [|a s]; [done|];
  destruct (Re.ascii_eqb a _) eqn:E; [apply Ascii.eqb_eq in E; subst a|done].

Lemma match_here_to_state bol s g r :
  Re.match_here Re.to_state_re bol s g = Some r →
  ∃ c, r = Some c ∧ PyStr.is_digit c = true
       ∧ (s = String c "_mean" ∨ s = String c ("_mean" +:+ String "010" "")).
Proof.
  unfold Re.to_state_re, Re.lits. cbn [list_ascii_of_string fmap list_fmap app].
  cbn [Re.match_here].
  destruct s as [|c s]; [done|].
  destruct (PyStr.is_digit c) eqn:Hd; [|done].
  literal_step s E1. literal_step s E2. literal_step s E3.
  literal_step s E4. literal_step s E5.
  destruct s as [|x [|y s]]; [| |done].
  - intros [= <-]. exists c. auto.
  - destruct (Re.ascii_eqb x "010") eqn:E; [|done].
    apply Ascii.eqb_eq in E. subst x. intros [= <-]. exists c. auto.
Qed.

Lemma search_from_to_state bol s c :
  Re.search_from Re.to_state_re bol s = Some (Some c) →
  PyStr.is_digit c = true
  ∧ ∃ pre, s = pre +:+ String c "_mean"
           ∨ s = pre +:+ String c ("_mean" +:+ String "010" "").
Proof.
  revert bol. induction s as [|x s IH]; intros bol; cbn [Re.search_from].
  - destruct (Re.match_here Re.to_state_re bol "" None) eqn:Hm; [|done].
    by apply match_here_to_state in Hm as (c' & _ & _ & [?|?]).
  - destruct (Re.match_here Re.to_state_re bol (String x s) None) eqn:Hm.
    + apply match_here_to_state in Hm as (c' & -> & Hd & Hs).
      intros [= ->]. split; [done|]. exists "". simpl.
      destruct Hs as [->| ->]; auto.
    + intros Hs. apply IH in Hs as [Hd [pre Hs]]. split; [done|].
      exists (String x pre). simpl. destruct Hs as [->| ->]; auto.
Qed.

Lemma rev_chars_app s1 s2 acc :
  PyStr.rev_chars (s1 +:+ s2) acc = PyStr.rev_chars s2 (PyStr.rev_chars s1 acc).
Proof.
  revert acc. induction s1 as [|c s1 IH]; intros acc; simpl; [done|apply IH].
Qed.

Lemma endswith_mean_newline pre c :
  PyStr.endswith (pre +:+ String c ("_mean" +:+ String "010" "")) "_mean" = false.
Proof. unfold PyStr.endswith, PyStr.reverse. by rewrite rev_chars_app. Qed.

Lemma to_state_digit_before_mean key c :
  PyStr.endswith key "_mean" = true →
  Re.group1 (Re.search Re.to_state_re key) = Ok c →
  digit_before_mean key.
Proof.
  intros He. unfold Re.group1, Re.search.
  destruct (Re.search_from Re.to_state_re true key) as [[c'|]|] eqn:Hs; try done.
  intros _. apply search_from_to_state in Hs as [Hd [pre [->| ->]]].
  - by exists pre, c'.
  - by rewrite endswith_mean_newline in He.
Qed.

Lemma search_from_bol_false p s :
  Re.search_from (Re.Bol :: p) false s = None.
Proof. induction s as [|x s IH]; simpl; done. Qed.

Lemma from_state_digit_after_D key c :
  Re.group1 (Re.search Re.from_state_re key) = Ok c → digit_after_D key.
Proof.
  unfold Re.group1, Re.search, Re.from_state_re.
  destruct key as [|d key]; [done|]. cbn [Re.search_from].
  rewrite search_from_bol_false. cbn [Re.match_here].
  destruct (Re.ascii_eqb d "D") eqn:E0; [apply Ascii.eqb_eq in E0; subst d|done].
  destruct key as [|x key]; [done|].
  destruct (Re.ascii_eqb x "_") eqn:E1.
  - apply Ascii.eqb_eq in E1. subst x.
    destruct key as [|y key]; [done|].
    destruct (PyStr.is_digit y) eqn:Hd; [|done].
    destruct key as [|z key]; [done|].
    destruct (Re.ascii_eqb z "_") eqn:E2; [|done].
    apply Ascii.eqb_eq in E2. subst z. intros _. exists y, key. auto.
  - destruct (PyStr.is_digit x) eqn:Hd; [|done].
    destruct key as [|z key]; [done|].
    destruct (Re.ascii_eqb z "_") eqn:E2; [|done].
    apply Ascii.eqb_eq in E2. subst z. intros _. exists x, key. auto.
Qed.

Section Rejection.
Context {num : Type} `{Countable num} {prob : Type}.
Variable lognorm_cdf norm_cdf : num → num → num → prob.
Local Abbreviation M := (@M num _ _ prob).
Local Abbreviation World := (@World num _ _ prob).

Lemma is_mean_key_endswith key :
  is_mean_key key = true → PyStr.endswith key "_mean" = true.
Proof. unfold is_mean_key. by intros [_ ?]%andb_true_iff. Qed.

Lemma bind_raises {A B} (m : M A) (k : A → M B) (w : World) :
  raises (m w).1 → raises (bind m k w).1.
Proof.
  intros [e He]. unfold bind. destruct (m w) as [[e'|a] w']; simpl in *; [|done].
  by exists e'.
Qed.

Lemma parse_damage_state_rejected (factory : num → num → M addr) dataset key
    (w : World) :
  is_mean_key key = true → rejected_key dataset key →
  raises (parse_damage_state factory dataset key w).1.
Proof.
  intros Hk Hrej. unfold parse_damage_state.
  destruct (Re.group1 (Re.search Re.to_state_re key)) as [e|tc] eqn:Ht;
    [by exists e|].
  destruct (Re.group1 (Re.search Re.from_state_re key)) as [e|fc] eqn:Hf;
    [by exists e|].
  destruct Hrej as [Hrej|[Hrej|Hrej]].
  - exfalso. apply Hrej.
    by eapply to_state_digit_before_mean; [apply is_mean_key_endswith|].
  - exfalso. apply Hrej. by eapply from_state_digit_after_D.
  - unfold bind at 1, lift at 1. unfold bind at 1, lift at 1.
    unfold bind at 1, lift at 1.
    destruct (PyDict.getitem key (d_values dataset)) as [e|mean];
      [by exists e|].
    unfold bind at 1, lift at 1. unfold PyDict.getitem. rewrite Hrej.
    by exists KeyError.
Qed.

Lemma for_keys_rejected (factory : num → num → M addr) dataset keys key d
    (w : World) :
  key ∈ keys → is_mean_key key = true → rejected_key dataset key →
  raises (for_keys factory dataset keys d w).1.
Proof.
  intros Hin Hk Hrej. revert d w.
  induction keys as [|k keys IH]; intros d w; [by apply elem_of_nil in Hin|].
  cbn [for_keys]. apply elem_of_cons in Hin as [<-|Hin].
  - by apply bind_raises, parse_damage_state_rejected.
  - unfold bind.
    destruct (parse_damage_state factory dataset k w) as [[e|ds] w'];
      [by exists e|]. by apply IH.
Qed.

Lemma for_datasets_rejected (factory : num → num → M addr) datasets dataset
    key d (w : World) :
  dataset ∈ datasets → key ∈ mean_keys dataset → rejected_key dataset key →
  raises (for_datasets factory datasets d w).1.
Proof.
  intros Hin Hk Hrej. revert d w.
  induction datasets as [|x datasets IH]; intros d w;
    [by apply elem_of_nil in Hin|].
  cbn [for_datasets]. apply elem_of_cons in Hin as [<-|Hin].
  - apply bind_raises. eapply for_keys_rejected; [exact Hk| |done].
    unfold mean_keys in Hk. apply list_elem_of_In, filter_In in Hk. tauto.
  - unfold bind.
    destruct (for_keys factory x (mean_keys x) d w) as [[e|d1] w'];
      [by exists e|]. by apply IH.
Qed.

End Rejection.

Local Open Scope Q_scope.

(** * Rational arithmetic: redistribution, rasters, summaries *)

Module RedistributionFacts.
Import Redistribution.

Lemma Qsum_cons x xs : Qsum (x :: xs) = x + Qsum xs.
Proof. reflexivity. Qed.

Lemma Qsum_app xs ys : Qsum (xs ++ ys) == Qsum xs + Qsum ys.
Proof.
  induction xs as [|x xs IH].
  - change (Qsum ([] ++ ys)) with (Qsum ys). change (Qsum []) with 0. ring.
  - change (Qsum ((x :: xs) ++ ys)) with (x + Qsum (xs ++ ys)).
    rewrite Qsum_cons, IH. ring.
Qed.

Lemma Qsum_scale b xs : Qsum (Qmult b <$> xs) == b * Qsum xs.
Proof.
  induction xs as [|x xs IH].
  - change (Qsum (Qmult b <$> [])) with 0. change (Qsum []) with 0. ring.
  - change (Qsum (Qmult b <$> x :: xs)) with (b * x + Qsum (Qmult b <$> xs)).
    rewrite Qsum_cons, IH. ring.
Qed.

Lemma telescope P max_state a (n : nat) :
  Qsum (mass_to P max_state <$> seqZ a (Z.of_nat n))
  == exceedance P max_state a - exceedance P max_state (a + Z.of_nat n)%Z.
Proof.
  induction n as [|n IH].
  - change (Z.of_nat 0) with 0%Z. rewrite Z.add_0_r.
    change (Qsum (mass_to P max_state <$> seqZ a 0)) with 0. ring.
  - rewrite seqZ_S, fmap_app, Qsum_app, IH.
    change (Qsum (mass_to P max_state <$> [(a + Z.of_nat n)%Z]))
      with (mass_to P max_state (a + Z.of_nat n)%Z + 0).
    unfold mass_to.
    replace (a + Z.of_nat (S n))%Z with (a + Z.of_nat n + 1)%Z by lia.
    ring.
Qed.

Lemma masses_sum P max_state s : Qsum (masses P max_state s) == 1.
Proof.
  unfold masses, target_states, py_range. rewrite Qsum_cons.
  destruct (decide (max_state + 1 - (s + 1) ≤ 0)%Z) as [Hle|Hgt].
  - rewrite seqZ_nil by done.
    change (Qsum (mass_to P max_state <$> [])) with 0.
    unfold mass_stay, exceedance. rewrite decide_False by lia. ring.
  - rewrite <- (Z2Nat.id (max_state + 1 - (s + 1))) by lia.
    rewrite telescope. unfold mass_stay.
    rewrite Z2Nat.id by lia.
    replace (s + 1 + (max_state + 1 - (s + 1)))%Z with (max_state + 1)%Z by lia.
    unfold exceedance at 3. rewrite decide_False by lia. ring.
Qed.

Lemma redistribute_counts P max_state s b :
  snd <$> redistribute P max_state s b = Qmult b <$> masses P max_state s.
Proof.
  unfold redistribute, masses. rewrite !fmap_cons. simpl. f_equal.
  rewrite <- !list_fmap_compose. done.
Qed.
End RedistributionFacts.

(** Claim C5 (mass conservation).  For every occupied state [s] and every
    family [P] of exceedance probabilities, the residual mass
    [1 - P(s+1)] and the masses [P(t) - P(t+1)] of the target states
    [t = s+1 .. max_state], with [P(max_state+1) = 0], sum to [1]; hence
    the building counts after the transition sum to the count [b] before
    it. *)
Theorem mass_conservation (P : Z → Q) (max_state s : Z) (b : Q) :
  Redistribution.Qsum (Redistribution.masses P max_state s) == 1
  ∧ Redistribution.Qsum (snd <$> Redistribution.redistribute P max_state s b)
    == b.
Proof.
  split; [apply RedistributionFacts.masses_sum|].
  rewrite RedistributionFacts.redistribute_counts,
    RedistributionFacts.Qsum_scale, RedistributionFacts.masses_sum. ring.
Qed.

Module RasterFacts.
Import Raster.

Lemma Qltb_lt x y : Qltb x y = true ↔ x < y.
Proof.
  unfold Qltb. rewrite negb_true_iff. split.
  - intros Hb. apply Qnot_le_lt. intros Hle.
    apply Qle_bool_iff in Hle. congruence.
  - intros Hlt. destruct (Qle_bool y x) eqn:Hb; [|done].
    apply Qle_bool_iff in Hb. exfalso. by apply (Qlt_not_le x y).
Qed.

Lemma outside_bbox self lon lat :
  lon < left (bounds (_raster_reader self))
  ∨ right (bounds (_raster_reader self)) < lon
  ∨ lat < bottom (bounds (_raster_reader self))
  ∨ top (bounds (_raster_reader self)) < lat →
  is_location_in_bbox self lon lat = false.
Proof.
  unfold is_location_in_bbox. intros Hout.
  destruct (Qltb lon _) eqn:H1; [done|].
  destruct (Qltb _ lon) eqn:H2; [done|].
  destruct (Qltb lat _) eqn:H3; [done|].
  destruct (Qltb _ lat) eqn:H4; [done|].
  destruct Hout as [Ho|[Ho|[Ho|Ho]]]; apply Qltb_lt in Ho; congruence.
Qed.
End RasterFacts.

(** Claim C7 (out-of-bounds grid lookup).  A lookup of a grid intensity
    provider at a coordinate outside the bounding box of its raster raises
    nothing: it returns the not-available value under the name of the
    measure, and the configured unit. *)
Theorem out_of_bounds_is_not_an_error (self : Raster.RasterIntensityProvider)
    (lon lat : Q) :
  let bbox := Raster.bounds (Raster._raster_reader (Raster.raster self)) in
  lon < Raster.left bbox ∨ Raster.right bbox < lon
  ∨ lat < Raster.bottom bbox ∨ Raster.top bbox < lat →
  Raster.get_nearest self lon lat
  = Ok ({[ Raster.kind self := Raster.na_value self ]},
        {[ Raster.kind self := Raster.unit self ]}).
Proof.
  intros bbox Hout. unfold Raster.get_nearest.
  by rewrite RasterFacts.outside_bbox.
Qed.

Module ShapefileFacts.
Import Shapefile.

Lemma np_mul_same_length a b :
  length a = length b → np_mul a b = Ok (zip_with Qmult a b).
Proof. intros Hl. unfold np_mul. by rewrite decide_True. Qed.

Lemma np_div_nonzero x y : ¬ y == 0 → np_div x y = Ok (x / y).
Proof.
  intros Hy. unfold np_div. destruct (Qeq_bool y 0) eqn:Hb; [|done].
  by apply Qeq_bool_iff in Hb.
Qed.

Lemma np_div_no_error x y :
  Qeq_bool y 0 = false → np_div x y ≠ Raise ZeroDivisionError.
Proof. intros Hb. unfold np_div. by rewrite Hb. Qed.

Lemma np_mul_no_zero_division a b : np_mul a b ≠ Raise ZeroDivisionError.
Proof.
  unfold np_mul. destruct (decide _); [done|].
  destruct a as [|x [|? ?]]; destruct b as [|y [|? ?]]; done.
Qed.

Lemma py_int_no_zero_division s : py_int s ≠ Raise ZeroDivisionError.
Proof.
  unfold py_int. destruct (strip s) as [|c r]; simpl.
  - done.
  - destruct (match c with
              | "-"%char => ((-1)%Z, r)
              | "+"%char => (1%Z, r)
              | _ => (1%Z, String c r)
              end) as [sg ds].
    by destruct (int_digits ds 0 false).
Qed.

Lemma map_result_no_zero_division l :
  map_result dx_to_int l ≠ Raise ZeroDivisionError.
Proof.
  induction l as [|x l IH]; simpl; [done|].
  unfold dx_to_int at 1.
  pose proof (py_int_no_zero_division (PyStr.drop_chars 1 x)) as Hx.
  destruct (py_int (PyStr.drop_chars 1 x)) as [e|n]; simpl; [congruence|].
  destruct (map_result dx_to_int l) as [e|ns]; simpl; [congruence|done].
Qed.
End ShapefileFacts.

(** Claim C10.  [compute_weighted_damage] never divides by zero.  When
    the damage labels are read as integers: if the building counts sum to
    zero (the empty table included) the result is [0]; if they sum to
    something else, and the two columns have the same length, the result is
    the sum of the products of count and damage state over the sum of the
    counts. *)
Theorem weighted_damage_never_divides_by_zero (expo_dict : Shapefile.Expo) :
  Shapefile.compute_weighted_damage expo_dict ≠ Raise ZeroDivisionError
  ∧ ∀ damage : list Z,
      Shapefile.map_result Shapefile.dx_to_int (Shapefile.Damage expo_dict)
        = Ok damage →
      let buildings := Shapefile.Buildings expo_dict in
      (Shapefile.np_sum buildings == 0 →
         Shapefile.compute_weighted_damage expo_dict = Ok 0)
      ∧ (¬ Shapefile.np_sum buildings == 0 →
         length buildings = length damage →
         Shapefile.compute_weighted_damage expo_dict
         = Ok (Shapefile.np_sum (zip_with Qmult buildings (inject_Z <$> damage))
               / Shapefile.np_sum buildings)).
Proof.
  split.
  - unfold Shapefile.compute_weighted_damage.
    pose proof (ShapefileFacts.map_result_no_zero_division
                  (Shapefile.Damage expo_dict)) as Hm.
    destruct (Shapefile.map_result _ _) as [e|damage]; simpl; [congruence|].
    destruct (Qeq_bool _ 0) eqn:Hb; simpl; [done|].
    pose proof (ShapefileFacts.np_mul_no_zero_division
                  (Shapefile.Buildings expo_dict) (inject_Z <$> damage)) as Hmul.
    destruct (Shapefile.np_mul _ _) as [e|products]; simpl; [congruence|].
    by apply ShapefileFacts.np_div_no_error.
  - intros damage Hd buildings. unfold Shapefile.compute_weighted_damage.
    rewrite Hd. simpl. fold buildings. split.
    + intros Hz. apply Qeq_bool_iff in Hz. by rewrite Hz.
    + intros Hnz Hlen.
      destruct (Qeq_bool (Shapefile.np_sum buildings) 0) eqn:Hb.
      { by apply Qeq_bool_iff in Hb. }
      simpl. rewrite ShapefileFacts.np_mul_same_length
        by (by rewrite length_fmap).
      simpl. by apply ShapefileFacts.np_div_nonzero.
Qed.

Local Close Scope Q_scope.

(** * The reference scenarios *)

Lemma lattice_completeness_witness :
  ∃ provider,
    load without_sublevel = (Ok provider, (load without_sublevel).2) ∧
    ∀ i j, 0 ≤ i ∧ i < j ∧ j ≤ 2 →
      ∃ ds ds0,
        filter (at_pair i j) (get_damage_states_for_taxonomy provider "URM1") = [ds]
        ∧ filter (at_pair 0 j) (get_damage_states_for_taxonomy provider "URM1") = [ds0]
        ∧ fragility_function ds = fragility_function ds0.
Proof.
  apply (lattice_completeness lognorm_cdf_at norm_cdf_at without_sublevel
           initial_world (load without_sublevel).2
           (LogncdfFactory_call lognorm_cdf_at)
           [("URM1", [mkDamageState "URM1" 0 1 "PGA" "g" 0%nat;
                      mkDamageState "URM1" 0 2 "PGA" "g" 1%nat]);
            ("CM", [mkDamageState "CM" 0 1 "PGA" "g" 2%nat;
                    mkDamageState "CM" 0 2 "PGA" "g" 3%nat])]
           "URM1"
           [mkDamageState "URM1" 0 1 "PGA" "g" 0%nat;
            mkDamageState "URM1" 0 2 "PGA" "g" 1%nat] 2).
  - reflexivity.
  - vm_compute. reflexivity.
  - reflexivity.
  - lia.
  - unfold baseline_only. simpl. reflexivity.
Defined.

Lemma load_without_sublevel :
  load without_sublevel
  = (Ok without_sublevel_provider, (load without_sublevel).2).
Proof. vm_compute. reflexivity. Defined.

(** Claim C2 fails as stated.  From the baseline transitions to 1 and to 2
    the completion also makes a state from 1 to 1. *)
Lemma synthesized_state_not_ascending :
  ∃ provider w' ds,
    load without_sublevel = (Ok provider, w')
    ∧ ds ∈ get_damage_states_for_taxonomy provider "URM1"
    ∧ ¬ (from_state ds < to_state ds).
Proof.
  exists without_sublevel_provider, (load without_sublevel).2,
    (mkDamageState "URM1" 1 1 "PGA" "g" 0%nat).
  split; [apply load_without_sublevel|]. split.
  - apply (list_elem_of_lookup_2 _ 2%nat). reflexivity.
  - simpl. lia.
Qed.

Lemma damage_states_single_digits_witness :
  let ds := mkDamageState "URM1" 1 1 "PGA" "g" 0%nat in
  load without_sublevel
  = (Ok without_sublevel_provider, (load without_sublevel).2)
  ∧ ds ∈ get_damage_states_for_taxonomy without_sublevel_provider "URM1"
  ∧ 0 ≤ from_state ds ≤ 9 ∧ 0 ≤ to_state ds ≤ 9.
Proof.
  intros ds.
  assert (ds ∈ get_damage_states_for_taxonomy without_sublevel_provider "URM1")
    as Hin by (apply (list_elem_of_lookup_2 _ 2%nat); reflexivity).
  split; [apply load_without_sublevel|]. split; [exact Hin|].
  exact (damage_states_single_digits lognorm_cdf_at norm_cdf_at
           without_sublevel initial_world without_sublevel_provider
           (load without_sublevel).2 "URM1" ds load_without_sublevel Hin).
Defined.

(** Claim C3 fails as stated.  [D_1_12_mean] names the transition from 1
    to 12, but the parser reads only the digit before [_mean] and yields a
    state from 1 to 2; [D10_mean] names the transition from 0 to 10, but the
    parser finds no digit followed by [_] after the [D] and raises. *)
Lemma two_digit_states_misread :
  Spec.names_transition "D_1_12_mean" (1, 12)
  ∧ (∃ provider w',
      load two_digit_target = (Ok provider, w')
      ∧ get_damage_states_for_taxonomy provider "URM1"
        = [mkDamageState "URM1" 1 2 "PGA" "g" 0%nat])
  ∧ Spec.names_transition "D10_mean" (0, 10)
  ∧ (load two_digit_baseline).1 = Raise AttributeError.
Proof.
  split; [|split; [|split]].
  - right. exists "1", "12". repeat split.
  - eexists _, _. split; vm_compute; reflexivity.
  - left. exists "10". repeat split.
  - vm_compute. reflexivity.
Qed.


Lemma transition_names_single_digit_witness :
  let w := run lognorm_cdf_at norm_cdf_at [] initial_world in
  Forall (well_formed_key urm1) (mean_keys urm1)
  ∧ ∃ d' w' states,
      for_keys (LogncdfFactory_call lognorm_cdf_at) urm1 (mean_keys urm1) [] w
        = (Ok d', w')
      ∧ default [] (PyDict.get "URM1" d') = default [] (PyDict.get "URM1" []) ++ states
      ∧ Forall2 (yields (declared_cdf lognorm_cdf_at norm_cdf_at "logncdf") w' urm1)
          (mean_keys urm1) states.
Proof.
  intros w.
  assert (Forall (well_formed_key urm1) (mean_keys urm1)) as Hkeys.
  { change (mean_keys urm1) with ["D1_mean"; "D2_mean"].
    repeat constructor.
    - exists "D1_stddev", (0, 1), (dec 5.9), (dec 0.8).
      split; [apply (convention_baseline 1); lia|]. split; reflexivity.
    - exists "D2_stddev", (0, 2), (dec 6.7), (dec 0.8).
      split; [apply (convention_baseline 2); lia|]. split; reflexivity. }
  split; [exact Hkeys|].
  exact (transition_names_single_digit lognorm_cdf_at norm_cdf_at []
           "logncdf" (LogncdfFactory_call lognorm_cdf_at) urm1 []
           eq_refl Hkeys).
Defined.

Lemma unit_mismatch_detection_witness :
  let w := run lognorm_cdf_at norm_cdf_at [OpLogncdf (dec 5.9) (dec 0.8)]
             initial_world in
  let self := DamageState_init "URM1" 0 1 "pga" "g" 0%nat in
  let intensity : gmap string Qc := {[ "PGA" := dec 1000 ]} in
  let units : gmap string string := {[ "PGA" := "m/s2" ]} in
  let f := CachedFunction_init (lognorm_cdf_at (dec 5.9) (dec 0.8)) in
  intensity !! PyStr.upper "pga" = Some (dec 1000)
  ∧ units !! PyStr.upper "pga" = Some "m/s2"
  ∧ heap w !! 0%nat = Some f
  ∧ (raises (get_probability_for_intensity self intensity units w).1
       ↔ "m/s2" ≠ "g")
  ∧ ("m/s2" = "g" →
       get_probability_for_intensity self intensity units w
         = CachedFunction_call 0%nat (dec 1000) w
       ∧ (get_probability_for_intensity self intensity units w).1
         = Ok (inner_function f (dec 1000))).
Proof.
  intros w self intensity units f.
  split; [reflexivity|]. split; [reflexivity|]. split; [reflexivity|].
  exact (unit_mismatch_detection lognorm_cdf_at norm_cdf_at
           [OpLogncdf (dec 5.9) (dec 0.8)] "URM1" 0 1 "pga" "g" 0%nat
           intensity units (dec 1000) "m/s2" f eq_refl eq_refl eq_refl).
Defined.

Lemma out_of_bounds_is_not_an_error_witness :
  (13 < 14 ∨ 16 < 13 ∨ 50 < 50 ∨ 52 < 50)%Q
  ∧ Raster.get_nearest test_raster 13%Q 50%Q
    = Ok ({[ "testdata" := 0%Q ]}, {[ "testdata" := "unitless" ]}).
Proof.
  assert (13 < 14 ∨ 16 < 13 ∨ 50 < 50 ∨ 52 < 50)%Q as Hout
    by (left; reflexivity).
  split; [exact Hout|].
  exact (out_of_bounds_is_not_an_error test_raster 13%Q 50%Q Hout).
Defined.


Lemma weighted_damage_never_divides_by_zero_witness :
  Shapefile.map_result Shapefile.dx_to_int (Shapefile.Damage sample_expo)
    = Ok [1%Z; 2%Z]
  ∧ ¬ (Shapefile.np_sum (Shapefile.Buildings sample_expo) == 0)%Q
  ∧ length (Shapefile.Buildings sample_expo) = length [1%Z; 2%Z]
  ∧ Shapefile.compute_weighted_damage sample_expo
    = Ok (Shapefile.np_sum
            (zip_with Qmult (Shapefile.Buildings sample_expo)
               (inject_Z <$> [1%Z; 2%Z]))
          / Shapefile.np_sum (Shapefile.Buildings sample_expo))%Q.
Proof.
  assert (¬ (Shapefile.np_sum (Shapefile.Buildings sample_expo) == 0)%Q) as Hnz
    by (intros Hz; vm_compute in Hz; discriminate).
  split; [reflexivity|]. split; [exact Hnz|]. split; [reflexivity|].
  exact (proj2 (proj2 (weighted_damage_never_divides_by_zero sample_expo)
                  [1%Z; 2%Z] eq_refl) Hnz eq_refl).
Defined.

(** * The completion of any list of states *)

Lemma has_pair_true l i j : has_pair l i j = true ↔ count_pair i j l ≠ 0%nat.
Proof. unfold has_pair. apply bool_decide_eq_true. Qed.

Lemma has_pair_false l i j : has_pair l i j = false ↔ count_pair i j l = 0%nat.
Proof.
  unfold has_pair. rewrite bool_decide_eq_false. split; [|lia].
  intros Hn. destruct (count_pair i j l); [done|]. exfalso. apply Hn. lia.
Qed.

Lemma reach_up_spec l j k :
  reach_up l j k = true
  ↔ ∃ i0, -1 ≤ i0 ≤ Z.of_nat k - 1 ∧ count_pair i0 j l ≠ 0%nat.
Proof.
  induction k as [|k IH]; simpl.
  - rewrite has_pair_true. split.
    + intros Hc. exists (-1). split; [lia|done].
    + intros (i0 & Hi & Hc). by replace i0 with (-1) in Hc by lia.
  - rewrite orb_true_iff, has_pair_true, IH. split.
    + intros [Hc|(i0 & Hi & Hc)].
      * exists (Z.of_nat k). split; [lia|done].
      * exists i0. split; [lia|done].
    + intros (i0 & Hi & Hc). destruct (decide (i0 = Z.of_nat k)) as [->|Hne].
      * by left.
      * right. exists i0. split; [lia|done].
Qed.

Lemma upper_char_idemp c : PyStr.upper_char (PyStr.upper_char c) = PyStr.upper_char c.
Proof.
  unfold PyStr.upper_char.
  destruct ((97 <=? nat_of_ascii c)%nat && (nat_of_ascii c <=? 122)%nat) eqn:Hc.
  - apply andb_true_iff in Hc as [H1 H2]. apply Nat.leb_le in H1, H2.
    rewrite nat_ascii_embedding by lia.
    replace ((97 <=? nat_of_ascii c - 32)%nat) with false; [done|].
    symmetry. apply Nat.leb_gt. lia.
  - by rewrite Hc.
Qed.

Lemma upper_idemp s : PyStr.upper (PyStr.upper s) = PyStr.upper s.
Proof.
  induction s as [|c s IH]; simpl; [done|]. by rewrite upper_char_idemp, IH.
Qed.

Section GeneralCompletion.
Variable m : Z.
Variable l0 : list DamageState.
Local Abbreviation completing := (completing m l0).

Lemma completing_start : completing 0 1 l0.
Proof.
  intros i j. unfold count_during.
  destruct (has_pair l0 i j) eqn:Hh; [done|].
  apply has_pair_false in Hh. rewrite Hh.
  rewrite bool_decide_eq_false_2 by lia. done.
Qed.

Lemma count_during_other f t i j :
  (i, j) ≠ (f, t) →
  count_during m l0 f (t + 1) i j = count_during m l0 f t i j.
Proof.
  intros Hne. unfold count_during. destruct (has_pair l0 i j); [done|].
  destruct (decide (0 ≤ i ∧ 1 ≤ j ≤ m ∧ (i < f ∨ i = f ∧ j < t))) as [Hc|Hc].
  - by rewrite !bool_decide_eq_true_2 by lia.
  - rewrite (bool_decide_eq_false_2 _ Hc). rewrite bool_decide_eq_false_2; [done|].
    intros (? & ? & [?|[-> ?]]); [apply Hc; lia|].
    destruct (decide (j = t)) as [->|?]; [done|]. apply Hc. lia.
Qed.

Lemma reach_up_S j k :
  reach_up l0 j (S k) = has_pair l0 (Z.of_nat k) j || reach_up l0 j k.
Proof. reflexivity. Qed.

(** A state at [(f - 1, t)] during the run means that [l0] reaches
    [(f, t)]. *)
Lemma lower_present_reach f t l :
  0 ≤ f → completing f t l → count_pair (f - 1) t l ≠ 0%nat →
  reach_up l0 t (Z.to_nat f) = true.
Proof.
  intros Hf Hinv Hc. rewrite Hinv in Hc. unfold count_during in Hc.
  destruct (has_pair l0 (f - 1) t) eqn:Hh.
  - apply reach_up_spec. exists (f - 1). split; [lia|]. by apply has_pair_true.
  - destruct (bool_decide _ && reach_up l0 t (Z.to_nat (f - 1 + 1))) eqn:Hb;
      [|done].
    apply andb_true_iff in Hb as [_ Hr]. by replace (f - 1 + 1) with f in Hr by lia.
Qed.

Lemma lower_absent_reach f t l :
  0 ≤ f → 1 ≤ t ≤ m → completing f t l → count_pair (f - 1) t l = 0%nat →
  reach_up l0 t (Z.to_nat f) = false.
Proof.
  intros Hf Ht Hinv Hc. rewrite Hinv in Hc. unfold count_during in Hc.
  destruct (has_pair l0 (f - 1) t) eqn:Hh.
  { apply has_pair_true in Hh. done. }
  destruct (decide (f = 0)) as [->|Hne].
  - simpl. exact Hh.
  - rewrite bool_decide_eq_true_2 in Hc by lia. simpl in Hc.
    replace (f - 1 + 1) with f in Hc by lia.
    by destruct (reach_up l0 t (Z.to_nat f)).
Qed.

Lemma completing_step f t l :
  0 ≤ f → 1 ≤ t ≤ m → completing f t l →
  completing f (t + 1) (add_if_missing f t l).
Proof.
  intros Hf Ht Hinv.
  assert (∀ l', (∀ i j, (i, j) ≠ (f, t) → count_pair i j l' = count_pair i j l) →
            count_pair f t l' = count_during m l0 f (t + 1) f t →
            completing f (t + 1) l') as Hgoal.
  { intros l' Hother Hhere i j. destruct (decide ((i, j) = (f, t))) as [[= -> ->]|Hne].
    - done.
    - rewrite Hother, count_during_other by done. apply Hinv. }
  assert (Z.to_nat (f + 1) = S (Z.to_nat f)) as HS by lia.
  destruct (decide (count_pair f t l = 0%nat)) as [H0|Hn0].
  - assert (has_pair l0 f t = false) as Hh.
    { destruct (has_pair l0 f t) eqn:Hh; [|done]. exfalso.
      pose proof (Hinv f t) as Hc. unfold count_during in Hc. rewrite Hh in Hc.
      apply has_pair_true in Hh. lia. }
    destruct (decide (count_pair (f - 1) t l = 0%nat)) as [H1|Hn1].
    + rewrite add_if_missing_neither by done. apply Hgoal; [done|].
      rewrite H0. unfold count_during. rewrite Hh, HS, reach_up_S.
      rewrite Z2Nat.id, Hh by done.
      rewrite (lower_absent_reach f t l) by done. by rewrite andb_false_r.
    + unfold count_pair in Hn1.
      destruct (filter (at_pair (f - 1) t) l) as [|d rest] eqn:Hfl; [done|].
      destruct (filter_head_elem _ _ _ _ Hfl) as [[Hdf Hdt] Hdl].
      rewrite (add_if_missing_absent f t l d rest H0 Hfl).
      assert (∀ i j, count_pair i j
                (l ++ [DamageState_init (taxonomy d) (from_state d + 1)
                         (to_state d) (intensity_field d) (intensity_unit d)
                         (fragility_function d)])
              = (count_pair i j l
                 + if decide ((i, j) = (f, t)) then 1 else 0)%nat) as Happ.
      { intros i j. rewrite count_pair_app. f_equal. unfold count_pair.
        rewrite filter_cons, filter_nil. unfold at_pair at 1. simpl.
        destruct (decide (from_state d + 1 = i ∧ to_state d = j)) as [[? ?]|Hn];
          destruct (decide ((i, j) = (f, t))) as [[= ? ?]|Hne]; simpl; try done.
        - exfalso. apply Hne. f_equal; lia.
        - exfalso. apply Hn. lia. }
      apply Hgoal.
      * intros i j Hne. rewrite Happ. rewrite decide_False by done. lia.
      * rewrite Happ, H0, decide_True by done. unfold count_during.
        rewrite Hh, HS, reach_up_S.
        rewrite (lower_present_reach f t l) by (done || (unfold count_pair; by rewrite Hfl)).
        rewrite orb_true_r, andb_true_r. by rewrite bool_decide_eq_true_2 by lia.
  - rewrite add_if_missing_present by done. apply Hgoal; [done|].
    pose proof (Hinv f t) as Hc. rewrite Hc. unfold count_during in *.
    destruct (has_pair l0 f t) eqn:Hh; [done|].
    rewrite bool_decide_eq_false_2 in Hc by lia. simpl in Hc. lia.
Qed.

Lemma completing_row f l :
  0 ≤ f → completing f 1 l → completing (f + 1) 1 (add_for_from_state m f l).
Proof.
  intros Hf Hinv. unfold add_for_from_state, py_range.
  replace (m + 1 - 1) with m by lia.
  destruct (decide (0 ≤ m)) as [Hm|Hm].
  - assert (completing f (1 + m)
              (foldl (λ dss to_damage_state, add_if_missing f to_damage_state dss)
                 l (seqZ 1 m))) as Hrow.
    { apply (foldl_seqZ_ind (λ t l, completing f t l)); [done|done|].
      intros k y Hk Hy. apply completing_step; [done|lia|done]. }
    intros i j. rewrite Hrow. unfold count_during.
    destruct (has_pair l0 i j); [done|].
    replace (bool_decide (0 ≤ i ∧ 1 ≤ j ≤ m ∧ (i < f ∨ i = f ∧ j < 1 + m)))
      with (bool_decide (0 ≤ i ∧ 1 ≤ j ≤ m ∧ (i < f + 1 ∨ i = f + 1 ∧ j < 1)));
      [done|]. apply bool_decide_ext. lia.
  - rewrite seqZ_nil by lia. simpl. intros i j. rewrite Hinv. unfold count_during.
    destruct (has_pair l0 i j); [done|].
    by rewrite !bool_decide_eq_false_2 by lia.
Qed.

Lemma completing_all :
  completing m 1
    (foldl (λ dss from_damage_state, add_for_from_state m from_damage_state dss)
       l0 (py_range 0 m)) ∨ m < 0.
Proof.
  destruct (decide (0 ≤ m)) as [Hm|Hm]; [left|right; lia].
  unfold py_range. rewrite Z.sub_0_r.
  replace m with (0 + m) at 1 by lia.
  apply (foldl_seqZ_ind (λ f l, completing f 1 l)); [done|apply completing_start|].
  intros k y Hk Hy. apply completing_row; [lia|done].
Qed.

End GeneralCompletion.

Lemma extends_states_refl l0 : extends_states l0 l0.
Proof. exists []. by rewrite app_nil_r. Qed.

Lemma add_if_missing_extends l0 f t l :
  extends_states l0 l → extends_states l0 (add_if_missing f t l).
Proof.
  intros (added & -> & Hadded). unfold add_if_missing.
  destruct (filter (at_pair f t) (l0 ++ added)); [|by exists added].
  destruct (filter (at_pair (f - 1) t) (l0 ++ added)) as [|d rest] eqn:Hfl;
    [by exists added|].
  destruct (filter_head_elem _ _ _ _ Hfl) as [_ Hdl].
  eexists (added ++ [_]). split; [by rewrite app_assoc|].
  apply Forall_app. split; [done|]. constructor; [|constructor].
  apply elem_of_app in Hdl as [Hd|Hd].
  - exists d. split; [done|]. unfold descends_from, DamageState_init. simpl.
    repeat split; try done. lia.
  - rewrite Forall_forall in Hadded.
    destruct (Hadded d Hd) as (d0 & Hd0 & Ht & Hfn & Htax & Hu & Hfr & Hfield).
    exists d0. split; [done|]. unfold descends_from, DamageState_init. simpl.
    repeat split; try done; [lia|]. by rewrite Hfield, upper_idemp.
Qed.

Lemma completion_loops_extend l0 m :
  extends_states l0
    (foldl (λ dss from_damage_state, add_for_from_state m from_damage_state dss)
       l0 (py_range 0 m)).
Proof.
  apply (foldl_inv (extends_states l0) (λ _, True)).
  - by apply Forall_forall.
  - apply extends_states_refl.
  - intros y f _ Hy. unfold add_for_from_state.
    apply (foldl_inv (extends_states l0) (λ _, True)); [by apply Forall_forall|done|].
    intros y' t _ Hy'. by apply add_if_missing_extends.
Qed.

(** Property X1 (the completion keeps what was parsed).  On the empty list
    [_add_damage_states_if_missing_to_dataset_list] raises [ValueError]
    (the maximum of no target state).  On any other list the parsed states
    stay, in their order, at the front of the result, and every state that
    is added copies an input state: same target state, function object,
    taxonomy and unit, a greater source state, and the measure name in
    upper case. *)
Theorem completion_keeps_and_copies (l0 : list DamageState) :
  (l0 = [] →
     _add_damage_states_if_missing_to_dataset_list l0 = Raise ValueError)
  ∧ (l0 ≠ [] →
     ∃ added,
       _add_damage_states_if_missing_to_dataset_list l0 = Ok (l0 ++ added)
       ∧ Forall (λ x, ∃ d0, d0 ∈ l0 ∧ descends_from x d0) added).
Proof.
  split.
  - by intros ->.
  - intros Hne. unfold _add_damage_states_if_missing_to_dataset_list.
    destruct (py_max_spec (to_state <$> l0)) as (m & -> & _).
    { by destruct l0. }
    simpl. destruct (completion_loops_extend l0 m) as (added & -> & Hadded).
    by exists added.
Qed.

(** Property X2 (what the completion fills).  With [m] the greatest target
    state of the input: a pair [(i, j)] that the input holds keeps its
    number of states (duplicates included); a pair that the input does not
    hold gets exactly one state when [0 <= i < m], [1 <= j <= m] and the
    input holds a state to [j] from some source state in [-1 .. i], and
    none otherwise. *)
Theorem completion_fills_exactly (l0 l : list DamageState) (m i j : Z) :
  _add_damage_states_if_missing_to_dataset_list l0 = Ok l →
  py_max (to_state <$> l0) = Ok m →
  (count_pair i j l0 ≠ 0%nat → count_pair i j l = count_pair i j l0)
  ∧ (count_pair i j l0 = 0%nat →
     (filled_in m l0 i j ∧ count_pair i j l = 1%nat)
     ∨ (¬ filled_in m l0 i j ∧ count_pair i j l = 0%nat)).
Proof.
  unfold _add_damage_states_if_missing_to_dataset_list. intros Hl Hm.
  rewrite Hm in Hl. simpl in Hl. injection Hl as <-.
  destruct (completing_all m l0) as [Hinv|Hneg].
  - split.
    + intros Hc. rewrite Hinv. unfold count_during.
      by rewrite (proj2 (has_pair_true l0 i j) Hc).
    + intros Hc. rewrite Hinv. unfold count_during.
      rewrite (proj2 (has_pair_false l0 i j) Hc).
      destruct (bool_decide (0 ≤ i ∧ 1 ≤ j ≤ m ∧ (i < m ∨ i = m ∧ j < 1))
                && reach_up l0 j (Z.to_nat (i + 1))) eqn:Hb.
      * left. split; [|done]. apply andb_true_iff in Hb as [Hr Hu].
        apply bool_decide_eq_true in Hr. apply reach_up_spec in Hu.
        destruct Hu as (i0 & Hi0 & Hc0). split; [lia|]. split; [lia|].
        exists i0. split; [lia|done].
      * right. split; [|done]. unfold filled_in.
        intros (Hi & Hj & i0 & Hi0 & Hc0).
        apply andb_false_iff in Hb as [Hr|Hu].
        -- apply bool_decide_eq_false in Hr. apply Hr. lia.
        -- assert (reach_up l0 j (Z.to_nat (i + 1)) = true) as Ht; [|congruence].
           apply reach_up_spec. exists i0. split; [lia|done].
  - unfold py_range. rewrite seqZ_nil by lia. simpl. split; [done|].
    intros Hc. right. split; [|done]. unfold filled_in.
    intros (Hi & _). lia.
Qed.

Lemma extends_states_max l0 l m :
  extends_states l0 l → py_max (to_state <$> l0) = Ok m →
  py_max (to_state <$> l) = Ok m.
Proof.
  intros (added & -> & Hadded) Hm.
  assert (l0 ≠ []) as Hne by (intros ->; done).
  destruct (py_max_spec (to_state <$> l0)) as (m0 & Hm0 & Hin0 & Hub0).
  { by destruct l0. }
  rewrite Hm in Hm0. injection Hm0 as <-.
  destruct (py_max_spec (to_state <$> l0 ++ added)) as (m1 & Hm1 & Hin1 & Hub1).
  { by destruct l0. }
  rewrite Hm1. f_equal.
  assert (m ≤ m1).
  { apply Hub1. rewrite fmap_app. apply elem_of_app. by left. }
  assert (m1 ≤ m); [|lia].
  apply Hub0. rewrite fmap_app in Hin1. apply elem_of_app in Hin1 as [Hin1|Hin1];
    [done|].
  apply list_elem_of_fmap in Hin1 as (x & -> & Hx).
  rewrite Forall_forall in Hadded. destruct (Hadded x Hx) as (d0 & Hd0 & -> & _).
  apply list_elem_of_fmap. by exists d0.
Qed.

Lemma completed_is_closed l0 l m f t :
  completing m l0 m 1 l → 0 ≤ f < m → 1 ≤ t ≤ m →
  count_pair f t l ≠ 0%nat ∨ count_pair (f - 1) t l = 0%nat.
Proof.
  intros Hinv Hf Ht.
  destruct (decide (count_pair f t l = 0%nat)) as [H0|Hn0]; [right|by left].
  rewrite Hinv in H0. rewrite Hinv. unfold count_during in *.
  destruct (has_pair l0 f t) eqn:Hh.
  { apply has_pair_true in Hh. lia. }
  rewrite bool_decide_eq_true_2 in H0 by lia. simpl in H0.
  replace (Z.to_nat (f + 1)) with (S (Z.to_nat f)) in H0 by lia.
  rewrite reach_up_S, Z2Nat.id, Hh in H0 by lia. simpl in H0.
  destruct (reach_up l0 t (Z.to_nat f)) eqn:Hr; [done|].
  replace (f - 1 + 1) with f by lia. rewrite Hr, andb_false_r.
  destruct (has_pair l0 (f - 1) t) eqn:Hh1; [|done].
  exfalso. assert (reach_up l0 t (Z.to_nat f) = true) as Hr'; [|congruence].
  apply reach_up_spec. exists (f - 1). split; [lia|]. by apply has_pair_true.
Qed.

Lemma closed_loops_identity l m :
  (∀ f t, 0 ≤ f < m → 1 ≤ t ≤ m →
     count_pair f t l ≠ 0%nat ∨ count_pair (f - 1) t l = 0%nat) →
  foldl (λ dss from_damage_state, add_for_from_state m from_damage_state dss)
    l (py_range 0 m) = l.
Proof.
  intros Hclosed. unfold py_range. rewrite Z.sub_0_r.
  destruct (decide (0 ≤ m)) as [Hm|Hm]; [|by rewrite seqZ_nil by lia].
  apply (foldl_seqZ_ind (λ _ y, y = l)
           (λ dss from_damage_state,
              add_for_from_state m from_damage_state dss) 0 m l); [done|done|].
  intros f y Hf ->. unfold add_for_from_state, py_range.
  replace (m + 1 - 1) with m by lia.
  apply (foldl_seqZ_ind (λ _ y, y = l)
           (λ dss to_damage_state, add_if_missing f to_damage_state dss)
           1 m l); [done|done|].
  intros t y Ht ->.
  destruct (Hclosed f t) as [Hc|Hc]; [lia|lia| |].
  - by apply add_if_missing_present.
  - destruct (decide (count_pair f t l = 0%nat)) as [H0|Hn0].
    + by apply add_if_missing_neither.
    + by apply add_if_missing_present.
Qed.

(** Property X3 (the completion is idempotent).  Completing a list that
    was completed returns the same list: nothing is added twice. *)
Theorem completion_idempotent (l0 l : list DamageState) :
  _add_damage_states_if_missing_to_dataset_list l0 = Ok l →
  _add_damage_states_if_missing_to_dataset_list l = Ok l.
Proof.
  intros Hl. pose proof Hl as Hl'.
  unfold _add_damage_states_if_missing_to_dataset_list in Hl.
  destruct (py_max (to_state <$> l0)) as [e|m] eqn:Hm; [done|].
  simpl in Hl. injection Hl as Hl.
  pose proof (completion_loops_extend l0 m) as Hext. rewrite Hl in Hext.
  unfold _add_damage_states_if_missing_to_dataset_list.
  rewrite (extends_states_max l0 l m Hext Hm). simpl. f_equal.
  apply closed_loops_identity. intros f t Hf Ht.
  destruct (completing_all m l0) as [Hinv|Hneg]; [|lia].
  rewrite Hl in Hinv. by eapply completed_is_closed.
Qed.

(** * The taxonomies of a provider *)

Section DictKeys.
Context {V : Type}.
Implicit Types d : PyDict.dict V.

Lemma get_None_keys k d : PyDict.get k d = None ↔ k ∉ PyDict.keys d.
Proof.
  induction d as [|[k' v] d IH]; simpl.
  - split; [intros _; apply not_elem_of_nil|done].
  - destruct (decide (k' = k)) as [->|Hne].
    + split; [done|]. intros Hn. exfalso. apply Hn. apply list_elem_of_here.
    + rewrite IH. rewrite not_elem_of_cons. split; [by split|by intros [_ ?]].
Qed.

Lemma keys_update k dflt f d :
  PyDict.keys (PyDict.update k dflt f d) = add_key (PyDict.keys d) k.
Proof.
  induction d as [|[k' v] d IH].
  - unfold add_key. cbn. destruct (decide (k ∈ [])) as [Hin|_]; [|done].
    by apply elem_of_nil in Hin.
  - cbn [PyDict.update]. destruct (decide (k' = k)) as [->|Hne].
    + unfold add_key. cbn. by rewrite decide_True by apply list_elem_of_here.
    + change (PyDict.keys ((k', v) :: PyDict.update k dflt f d))
        with (k' :: PyDict.keys (PyDict.update k dflt f d)).
      rewrite IH. change (PyDict.keys ((k', v) :: d)) with (k' :: PyDict.keys d).
      unfold add_key. destruct (decide (k ∈ PyDict.keys d)) as [Hin|Hnin].
      * by rewrite decide_True by (by apply list_elem_of_further).
      * rewrite decide_False; [done|]. rewrite not_elem_of_cons. split; [done|done].
Qed.

Lemma update_id_present k dflt d v :
  PyDict.get k d = Some v → PyDict.update k dflt (λ x, x) d = d.
Proof.
  induction d as [|[k' v'] d IH]; simpl; [done|].
  destruct (decide (k' = k)) as [->|Hne]; [done|]. intros Hg. by rewrite IH.
Qed.

Lemma update_absent k dflt f d :
  PyDict.get k d = None → PyDict.update k dflt f d = d ++ [(k, f dflt)].
Proof.
  induction d as [|[k' v'] d IH]; simpl; [done|].
  destruct (decide (k' = k)) as [->|Hne]; [done|]. intros Hg. by rewrite IH.
Qed.
End DictKeys.

Lemma add_key_NoDup ks k : NoDup ks → NoDup (add_key ks k).
Proof.
  intros Hnd. unfold add_key. destruct (decide (k ∈ ks)); [done|].
  apply NoDup_app. split; [done|]. split.
  - intros x Hx Hx'. apply list_elem_of_singleton in Hx'. by subst.
  - apply NoDup_singleton.
Qed.

Lemma add_key_idemp ks k : add_key (add_key ks k) k = add_key ks k.
Proof.
  unfold add_key. destruct (decide (k ∈ ks)) as [Hin|Hnin].
  - by rewrite decide_True.
  - rewrite decide_True; [done|].
    apply elem_of_app. right. apply list_elem_of_here.
Qed.

Lemma foldl_add_key_NoDup ks l : NoDup ks → NoDup (foldl add_key ks l).
Proof.
  revert ks. induction l as [|k l IH]; intros ks Hnd; simpl; [done|].
  by apply IH, add_key_NoDup.
Qed.

Lemma elem_of_add_key ks k x : x ∈ add_key ks k ↔ x ∈ ks ∨ x = k.
Proof.
  unfold add_key. destruct (decide (k ∈ ks)) as [Hin|Hnin].
  - split; [by left|]. intros [Hx|Hx]; [done|by subst].
  - rewrite elem_of_app, list_elem_of_singleton. done.
Qed.

Lemma elem_of_foldl_add_key ks l x :
  x ∈ foldl add_key ks l ↔ x ∈ ks ∨ x ∈ l.
Proof.
  revert ks. induction l as [|k l IH]; intros ks; simpl.
  - split; [by left|]. intros [?|Hx]; [done|]. by apply elem_of_nil in Hx.
  - rewrite IH, elem_of_add_key, elem_of_cons. tauto.
Qed.

Lemma add_missing_keys (d d' : PyDict.dict (list DamageState)) :
  _add_damage_states_if_missing d = Ok d' → PyDict.keys d' = PyDict.keys d.
Proof.
  revert d'. induction d as [|[k l] d IH]; intros d'; simpl.
  - by intros [= <-].
  - destruct (_add_damage_states_if_missing_to_dataset_list l) as [e|l'];
      simpl; [done|].
    destruct (_add_damage_states_if_missing d) as [e|r] eqn:Hr; simpl; [done|].
    intros [= <-]. simpl. f_equal. by apply IH.
Qed.

Section Taxonomies.
Context {num : Type} `{Countable num} {prob : Type}.
Variable lognorm_cdf norm_cdf : num → num → num → prob.
Local Abbreviation M := (@M num _ _ prob).
Local Abbreviation World := (@World num _ _ prob).

Lemma for_keys_keys (factory : num → num → M addr) dataset keys d (w : World)
    d' w' :
  for_keys factory dataset keys d w = (Ok d', w') →
  PyDict.keys d'
  = if decide (keys = []) then PyDict.keys d
    else add_key (PyDict.keys d) (d_taxonomy dataset).
Proof.
  revert d w. induction keys as [|key keys IH]; intros d w; simpl.
  - by intros [-> _]%ret_Ok.
  - intros (ds & w1 & _ & Hrest)%bind_Ok. rewrite (IH _ _ Hrest).
    rewrite keys_update. destruct (decide (keys = [])); [done|].
    apply add_key_idemp.
Qed.

Lemma for_datasets_keys (factory : num → num → M addr) datasets d (w : World)
    d' w' :
  for_datasets factory datasets d w = (Ok d', w') →
  PyDict.keys d' = foldl add_key (PyDict.keys d) (taxonomies_with_keys datasets).
Proof.
  revert d w. induction datasets as [|dataset datasets IH]; intros d w; simpl.
  - by intros [-> _]%ret_Ok.
  - intros (d1 & w1 & Hk & Hrest)%bind_Ok. rewrite (IH _ _ Hrest).
    rewrite (for_keys_keys _ _ _ _ _ _ _ Hk). unfold taxonomies_with_keys. simpl.
    destruct (decide (mean_keys dataset = [])) as [Hnil|Hne].
    + by rewrite bool_decide_eq_true_2.
    + by rewrite bool_decide_eq_false_2.
Qed.

(** Property X4 (the taxonomies of a loaded provider).  After a load that
    succeeds, [get_taxonomies] lists, without repetition and in the order
    of their first record, exactly the taxonomies of the records that have
    at least one [..._mean] key; a record without such a key adds no
    taxonomy. *)
Theorem provider_taxonomies (self : FragilityData) (w : World) provider w' :
  to_fragility_provider lognorm_cdf norm_cdf self w = (Ok provider, w') →
  get_taxonomies provider = foldl add_key [] (taxonomies_with_keys (data self))
  ∧ NoDup (get_taxonomies provider)
  ∧ ∀ taxonomy,
      taxonomy ∈ get_taxonomies provider
      ↔ ∃ dataset, dataset ∈ data self ∧ d_taxonomy dataset = taxonomy
                   ∧ mean_keys dataset ≠ [].
Proof.
  unfold to_fragility_provider.
  intros (factory & w1 & [_ ->]%lift_Ok & Hrest)%bind_Ok.
  unfold to_fragility_provider_with_specified_fragility_function in Hrest.
  apply bind_Ok in Hrest as (parsed & w2 & Hparse & Hrest).
  apply bind_Ok in Hrest as (completed & w3 & [Hc ->]%lift_Ok & Hrest).
  apply ret_Ok in Hrest as [-> _].
  assert (get_taxonomies (mkFragilityProvider completed (meta_id self))
          = foldl add_key [] (taxonomies_with_keys (data self))) as Heq.
  { unfold get_taxonomies. simpl. rewrite (add_missing_keys _ _ Hc).
    by rewrite (for_datasets_keys _ _ _ _ _ _ Hparse). }
  split; [done|]. rewrite Heq. split.
  - apply foldl_add_key_NoDup, NoDup_nil_2.
  - intros taxonomy. rewrite elem_of_foldl_add_key. unfold taxonomies_with_keys.
    rewrite list_elem_of_fmap. split.
    + intros [Hn|(dataset & -> & Hin)]; [by apply elem_of_nil in Hn|].
      apply list_elem_of_In, filter_In in Hin as [Hin Hb].
      exists dataset. split; [by apply list_elem_of_In|]. split; [done|].
      apply negb_true_iff, bool_decide_eq_false in Hb. done.
    + intros (dataset & Hin & <- & Hne). right. exists dataset. split; [done|].
      apply list_elem_of_In, filter_In. split; [by apply list_elem_of_In|].
      by apply negb_true_iff, bool_decide_eq_false.
Qed.
End Taxonomies.

(** Property X5 (asking for an unknown taxonomy registers it).  The lookup
    returns the states of the taxonomy (none for an unknown one).  For a
    known taxonomy the provider is unchanged; for an unknown one the
    taxonomy is entered last in [get_taxonomies], with no state, and the
    states of every other taxonomy are unchanged. *)
Theorem lookup_registers_unknown_taxonomy (self : FragilityProvider)
    (taxonomy : string) :
  let '(states, after) := get_damage_states_for_taxonomy_effect self taxonomy in
  states = get_damage_states_for_taxonomy self taxonomy
  ∧ (taxonomy ∈ get_taxonomies self → after = self)
  ∧ (taxonomy ∉ get_taxonomies self →
       states = []
       ∧ get_taxonomies after = get_taxonomies self ++ [taxonomy]
       ∧ ∀ other, get_damage_states_for_taxonomy after other
                  = get_damage_states_for_taxonomy self other).
Proof.
  unfold get_damage_states_for_taxonomy_effect, get_damage_states_for_taxonomy,
    get_taxonomies.
  destruct self as [d sch]. simpl.
  destruct (PyDict.get taxonomy d) as [l|] eqn:Hg.
  - rewrite (update_id_present _ _ _ _ Hg), Hg. split; [done|]. split; [done|].
    intros Hn. apply get_None_keys in Hn. congruence.
  - rewrite get_update_eq, Hg. simpl. split; [done|]. split.
    + intros Hin. apply get_None_keys in Hg. done.
    + intros _. split; [done|]. split.
      * rewrite keys_update. unfold add_key. rewrite decide_False; [done|].
        by apply get_None_keys.
      * intros other. destruct (decide (taxonomy = other)) as [<-|Hne].
        -- by rewrite get_update_eq, Hg.
        -- by rewrite get_update_ne.
Qed.

(** * When a load succeeds *)

Lemma string_length_app (s1 s2 : string) :
  String.length (s1 +:+ s2) = (String.length s1 + String.length s2)%nat.
Proof. induction s1 as [|c s1 IH]; simpl; [done|]. by rewrite IH. Qed.

Lemma is_digit_not_underscore c :
  PyStr.is_digit c = true → Re.ascii_eqb c "_" = false.
Proof.
  intros Hd. destruct (Re.ascii_eqb c "_") eqn:He; [|done].
  apply Ascii.eqb_eq in He. subst c. done.
Qed.

Lemma match_here_to_state_exact bol c :
  PyStr.is_digit c = true →
  Re.match_here Re.to_state_re bol (String c "_mean") None = Some (Some c).
Proof.
  intros Hd. unfold Re.to_state_re, Re.lits.
  cbn [list_ascii_of_string fmap list_fmap app Re.match_here]. rewrite Hd.
  reflexivity.
Qed.

Lemma search_from_cons p bol x s :
  Re.search_from p bol (String x s)
  = match Re.match_here p bol (String x s) None with
    | Some g => Some g
    | None => Re.search_from p false s
    end.
Proof. reflexivity. Qed.

Lemma search_from_to_state_complete bol pre c :
  PyStr.is_digit c = true →
  Re.search_from Re.to_state_re bol (pre +:+ String c "_mean") = Some (Some c).
Proof.
  intros Hd. revert bol. induction pre as [|x pre IH]; intros bol.
  - change ("" +:+ String c "_mean") with (String c "_mean").
    by rewrite search_from_cons, match_here_to_state_exact.
  - change (String x pre +:+ String c "_mean")
      with (String x (pre +:+ String c "_mean")).
    rewrite search_from_cons.
    destruct (Re.match_here Re.to_state_re bol
                (String x (pre +:+ String c "_mean")) None) as [r|] eqn:Hm;
      [|apply IH].
    exfalso. apply match_here_to_state in Hm as (c' & _ & _ & [Hs|Hs]).
    + apply (f_equal String.length) in Hs. simpl in Hs.
      rewrite string_length_app in Hs. simpl in Hs. lia.
    + destruct pre as [|y pre].
      * simpl in Hs. discriminate.
      * apply (f_equal String.length) in Hs. simpl in Hs.
        rewrite string_length_app in Hs. simpl in Hs. lia.
Qed.

Lemma to_state_complete key :
  digit_before_mean key →
  ∃ c, Re.group1 (Re.search Re.to_state_re key) = Ok c.
Proof.
  intros (pre & c & Hd & ->). exists c. unfold Re.search.
  by rewrite search_from_to_state_complete.
Qed.

Lemma from_state_complete key :
  digit_after_D key →
  ∃ c, Re.group1 (Re.search Re.from_state_re key) = Ok c.
Proof.
  intros (c & rest & Hd & [-> | ->]); exists c; unfold Re.search, Re.from_state_re;
    cbn [Re.search_from Re.match_here].
  - change (Re.ascii_eqb "D" "D") with true. cbn iota.
    rewrite (is_digit_not_underscore c Hd), Hd.
    change (Re.ascii_eqb "_" "_") with true. reflexivity.
  - change (Re.ascii_eqb "D" "D") with true. cbn iota.
    change (Re.ascii_eqb "_" "_") with true. cbn iota. rewrite Hd.
    reflexivity.
Qed.

Section Loader.
Context {num : Type} `{Countable num} {prob : Type}.
Variable lognorm_cdf norm_cdf : num → num → num → prob.
Local Abbreviation M := (@M num _ _ prob).
Local Abbreviation World := (@World num _ _ prob).
Local Abbreviation wf := (wf_world lognorm_cdf norm_cdf).
Local Abbreviation factory_for := (factory_for lognorm_cdf norm_cdf).

Lemma mean_key_has_value (dataset : Dataset (num:=num)) key :
  key ∈ mean_keys dataset → ∃ mean, PyDict.get key (d_values dataset) = Some mean.
Proof.
  unfold mean_keys. intros Hin. apply list_elem_of_In, filter_In in Hin as [Hin _].
  apply list_elem_of_In in Hin.
  destruct (PyDict.get key (d_values dataset)) as [mean|] eqn:Hg; [by exists mean|].
  by apply get_None_keys in Hg.
Qed.

Lemma mean_key_is_mean_key (dataset : Dataset (num:=num)) key :
  key ∈ mean_keys dataset → is_mean_key key = true.
Proof.
  unfold mean_keys. intros Hin. by apply list_elem_of_In, filter_In in Hin as [_ ?].
Qed.

Lemma parse_damage_state_accepted (factory : num → num → M addr) dataset key
    (w : World) ds w' :
  is_mean_key key = true →
  parse_damage_state factory dataset key w = (Ok ds, w') →
  accepted_key dataset key.
Proof.
  intros Hk. unfold parse_damage_state.
  intros (tc & w1 & [Ht ->]%lift_Ok & Hrest)%bind_Ok.
  apply bind_Ok in Hrest as (fc & w2 & [Hf ->]%lift_Ok & Hrest).
  apply bind_Ok in Hrest as (mean & w3 & _ & Hrest).
  apply bind_Ok in Hrest as (stddev & w4 & [Hs ->]%lift_Ok & _).
  split; [|split].
  - by eapply to_state_digit_before_mean; [apply is_mean_key_endswith|].
  - by eapply from_state_digit_after_D.
  - unfold PyDict.getitem in Hs.
    by destruct (PyDict.get _ (d_values dataset)).
Qed.

Lemma parse_damage_state_succeeds dist (factory : num → num → M addr) dataset
    key (w : World) :
  factory_for dist factory → wf w →
  key ∈ mean_keys dataset → accepted_key dataset key →
  ∃ ds w', parse_damage_state factory dataset key w = (Ok ds, w') ∧ wf w'.
Proof.
  intros Hfac Hw Hk (Hto & Hfrom & Hs).
  destruct (to_state_complete key Hto) as [tc Ht].
  destruct (from_state_complete key Hfrom) as [fc Hf].
  destruct (mean_key_has_value dataset key Hk) as [mean Hm].
  destruct (PyDict.get (PyStr.replace key "_mean" "_stddev") (d_values dataset))
    as [stddev|] eqn:Hsd; [|done].
  destruct (Hfac mean stddev w Hw) as (a & w' & f & Hcall & Hw' & _).
  unfold parse_damage_state. rewrite Ht, Hf.
  unfold bind at 1, lift at 1. unfold bind at 1, lift at 1.
  unfold PyDict.getitem. rewrite Hm, Hsd.
  unfold bind at 1, lift at 1. unfold bind at 1, lift at 1.
  unfold bind at 1. rewrite Hcall. unfold ret. by eexists _, _.
Qed.

Lemma for_keys_accepted (factory : num → num → M addr) dataset keys d
    (w : World) d' w' :
  Forall (λ key, is_mean_key key = true) keys →
  for_keys factory dataset keys d w = (Ok d', w') →
  Forall (accepted_key dataset) keys.
Proof.
  intros Hkeys. revert d w. induction Hkeys as [|key keys Hk Hkeys IH];
    intros d w; [by constructor|].
  cbn [for_keys]. intros (ds & w1 & Hp & Hrest)%bind_Ok. constructor.
  - by eapply parse_damage_state_accepted.
  - by eapply IH.
Qed.

Lemma for_keys_succeeds dist (factory : num → num → M addr) dataset keys d
    (w : World) :
  factory_for dist factory → wf w →
  Forall (λ key, key ∈ mean_keys dataset ∧ accepted_key dataset key) keys →
  ∃ d' w', for_keys factory dataset keys d w = (Ok d', w') ∧ wf w'.
Proof.
  intros Hfac Hw Hkeys. revert d w Hw.
  induction Hkeys as [|key keys [Hk Hacc] Hkeys IH]; intros d w Hw.
  - by exists d, w.
  - destruct (parse_damage_state_succeeds dist factory dataset key w Hfac Hw
                Hk Hacc) as (ds & w1 & Hp & Hw1).
    cbn [for_keys]. unfold bind at 1. rewrite Hp. by apply IH.
Qed.

Lemma for_datasets_accepted (factory : num → num → M addr) datasets d
    (w : World) d' w' :
  for_datasets factory datasets d w = (Ok d', w') →
  Forall (λ dataset, Forall (accepted_key dataset) (mean_keys dataset)) datasets.
Proof.
  revert d w. induction datasets as [|dataset datasets IH]; intros d w;
    [by constructor|].
  cbn [for_datasets]. intros (d1 & w1 & Hk & Hrest)%bind_Ok. constructor.
  - eapply for_keys_accepted; [|exact Hk]. apply Forall_forall.
    intros key. apply mean_key_is_mean_key.
  - by eapply IH.
Qed.

Lemma for_datasets_succeeds dist (factory : num → num → M addr) datasets d
    (w : World) :
  factory_for dist factory → wf w →
  Forall (λ dataset, Forall (accepted_key dataset) (mean_keys dataset)) datasets →
  ∃ d' w', for_datasets factory datasets d w = (Ok d', w').
Proof.
  intros Hfac Hw Hall. revert d w Hw.
  induction Hall as [|dataset datasets Hd Hall IH]; intros d w Hw.
  - by exists d, w.
  - destruct (for_keys_succeeds dist factory dataset (mean_keys dataset) d w
                Hfac Hw) as (d1 & w1 & Hk & Hw1).
    { rewrite Forall_forall in Hd. apply Forall_forall. intros key Hin.
      split; [done|]. by apply Hd. }
    cbn [for_datasets]. unfold bind at 1. rewrite Hk. by apply IH.
Qed.

End Loader.

(** * The function objects of the factories *)

Section Separation.
Context {num : Type} `{Countable num} {prob : Type}.
Variable lognorm_cdf norm_cdf : num → num → num → prob.
Local Abbreviation World := (@World num _ _ prob).
Local Abbreviation logncdf := (LogncdfFactory_call lognorm_cdf).
Local Abbreviation normcdf := (NormCdfFactory_call norm_cdf).
Local Abbreviation run := (run lognorm_cdf norm_cdf).
Local Abbreviation run_op := (run_op lognorm_cdf norm_cdf).

Lemma cache_injective_grow (n n' : nat) (c : gmap (num * num) addr) :
  (n ≤ n')%nat → cache_injective n c → cache_injective n' c.
Proof.
  intros Hle [Hb Hi]. split; [|done]. intros k a Hk. specialize (Hb k a Hk). lia.
Qed.

Lemma cache_injective_insert (n : nat) (c : gmap (num * num) addr) k :
  cache_injective n c → c !! k = None → cache_injective (S n) (<[k := n]> c).
Proof.
  intros [Hb Hi] Hk. split.
  - intros k1 a. destruct (decide (k = k1)) as [->|Hne].
    + rewrite lookup_insert_eq. intros [= <-]. lia.
    + rewrite lookup_insert_ne by done. intros Hk1. specialize (Hb k1 a Hk1). lia.
  - intros k1 k2 a. rewrite !lookup_insert.
    destruct (decide (k = k1)) as [E1|Hne1]; destruct (decide (k = k2)) as [E2|Hne2].
    + congruence.
    + intros [= <-] Hk2. specialize (Hb k2 n Hk2). lia.
    + intros Hk1 [= <-]. specialize (Hb k1 n Hk1). lia.
    + apply Hi.
Qed.

Lemma separated_initial : separated (initial_world (num:=num) (prob:=prob)).
Proof.
  repeat split; simpl; intros *; rewrite lookup_empty; done.
Qed.

Lemma run_op_separated o (w : World) : separated w → separated (run_op o w).
Proof.
  intros (Ha & Hb & Hab). destruct o as [m s|m s|f|a x]; simpl.
  - unfold LogncdfFactory_call, FactoryCacheKey.
    destruct (logncdf_cache w !! (m, s)) as [r|] eqn:Hc; simpl; [done|].
    unfold separated. simpl.
    rewrite length_app. simpl. rewrite Nat.add_1_r. split; [|split].
    + by apply cache_injective_insert.
    + eapply cache_injective_grow; [|done]. lia.
    + intros k k' a. destruct (decide ((m, s) = k)) as [<-|Hne].
      * rewrite lookup_insert_eq. intros [= <-] Hk'.
        destruct Hb as [Hb _]. specialize (Hb k' _ Hk'). lia.
      * rewrite lookup_insert_ne by done. apply Hab.
  - unfold NormCdfFactory_call, FactoryCacheKey.
    destruct (normcdf_cache w !! (m, s)) as [r|] eqn:Hc; simpl; [done|].
    unfold separated. simpl.
    rewrite length_app. simpl. rewrite Nat.add_1_r. split; [|split].
    + eapply cache_injective_grow; [|done]. lia.
    + by apply cache_injective_insert.
    + intros k k' a. destruct (decide ((m, s) = k')) as [<-|Hne].
      * rewrite lookup_insert_eq. intros Hk [= <-].
        destruct Ha as [Ha _]. specialize (Ha k _ Hk). lia.
      * rewrite lookup_insert_ne by done. apply Hab.
  - unfold separated. simpl. rewrite length_app. simpl. split; [|split]; [..|done].
    + eapply cache_injective_grow; [|done]. lia.
    + eapply cache_injective_grow; [|done]. lia.
  - unfold CachedFunction_call. destruct (heap w !! a) as [g|]; [|done].
    destruct (cache g !! x); [done|]. unfold separated. simpl.
    rewrite length_insert. done.
Qed.

Lemma run_separated ops (w : World) : separated w → separated (run ops w).
Proof.
  revert w. induction ops as [|o ops IH]; intros w Hw; simpl; [done|].
  by apply IH, run_op_separated.
Qed.

Lemma logncdf_result mean stddev (w : World) :
  ∃ a, (logncdf mean stddev w).1 = Ok a
       ∧ logncdf_cache (logncdf mean stddev w).2 !! (mean, stddev) = Some a.
Proof.
  unfold LogncdfFactory_call, FactoryCacheKey.
  destruct (logncdf_cache w !! (mean, stddev)) as [r|] eqn:Hc; simpl.
  - by exists r.
  - eexists. split; [done|]. by rewrite lookup_insert_eq.
Qed.

Lemma normcdf_result mean stddev (w : World) :
  ∃ a, (normcdf mean stddev w).1 = Ok a
       ∧ normcdf_cache (normcdf mean stddev w).2 !! (mean, stddev) = Some a.
Proof.
  unfold NormCdfFactory_call, FactoryCacheKey.
  destruct (normcdf_cache w !! (mean, stddev)) as [r|] eqn:Hc; simpl.
  - by exists r.
  - eexists. split; [done|]. by rewrite lookup_insert_eq.
Qed.

Lemma run_caches_grow ops (w : World) :
  wf_world lognorm_cdf norm_cdf w →
  logncdf_cache w ⊆ logncdf_cache (run ops w)
  ∧ normcdf_cache w ⊆ normcdf_cache (run ops w).
Proof.
  intros Hw. by destruct (run_wf lognorm_cdf norm_cdf ops w Hw) as [_ (_ & _ & ? & ?)].
Qed.

(** Property X7 (function objects are not shared).  Whatever happens
    between the calls, a factory returns the object it made for
    [(mean, stddev)] only for these very parameters, and the object of one
    factory is never returned by the other. *)
Theorem factories_never_alias (history ops : list op)
    (mean stddev mean' stddev' : num) :
  let w := run history initial_world in
  let after_logncdf := run ops (logncdf mean stddev w).2 in
  let after_normcdf := run ops (normcdf mean stddev w).2 in
  ((logncdf mean' stddev' after_logncdf).1 = (logncdf mean stddev w).1 →
     (mean', stddev') = (mean, stddev))
  ∧ ((normcdf mean' stddev' after_normcdf).1 = (normcdf mean stddev w).1 →
     (mean', stddev') = (mean, stddev))
  ∧ (normcdf mean' stddev' after_logncdf).1 ≠ (logncdf mean stddev w).1
  ∧ (logncdf mean' stddev' after_normcdf).1 ≠ (normcdf mean stddev w).1.
Proof.
  intros w after_logncdf after_normcdf.
  assert (wf_world lognorm_cdf norm_cdf w) as Hw by apply reachable_wf.
  assert (separated w) as Hsep by apply run_separated, separated_initial.
  destruct (logncdf_result mean stddev w) as (a & Ha & Hca).
  destruct (normcdf_result mean stddev w) as (b & Hb & Hcb).
  assert (wf_world lognorm_cdf norm_cdf (logncdf mean stddev w).2) as Hw1
    by apply (run_op_wf lognorm_cdf norm_cdf (OpLogncdf mean stddev) w Hw).
  assert (wf_world lognorm_cdf norm_cdf (normcdf mean stddev w).2) as Hw2
    by apply (run_op_wf lognorm_cdf norm_cdf (OpNormcdf mean stddev) w Hw).
  assert (separated after_logncdf) as Hs1
    by apply run_separated, (run_op_separated (OpLogncdf mean stddev) w Hsep).
  assert (separated after_normcdf) as Hs2
    by apply run_separated, (run_op_separated (OpNormcdf mean stddev) w Hsep).
  destruct (run_caches_grow ops _ Hw1) as [Hg1 _].
  destruct (run_caches_grow ops _ Hw2) as [_ Hg2].
  pose proof (lookup_weaken _ _ _ _ Hca Hg1) as Hca'.
  pose proof (lookup_weaken _ _ _ _ Hcb Hg2) as Hcb'.
  fold after_logncdf in Hca'. fold after_normcdf in Hcb'.
  destruct Hs1 as ((Hb1 & Hi1) & (Hb1' & _) & Hd1).
  destruct Hs2 as ((Hb2' & _) & (Hb2 & Hi2) & Hd2).
  rewrite Ha, Hb. repeat split.
  - unfold LogncdfFactory_call, FactoryCacheKey.
    destruct (logncdf_cache after_logncdf !! (mean', stddev')) as [r|] eqn:Hc; simpl.
    + intros [= ->]. by eapply Hi1.
    + intros [= He]. specialize (Hb1 _ _ Hca'). lia.
  - unfold NormCdfFactory_call, FactoryCacheKey.
    destruct (normcdf_cache after_normcdf !! (mean', stddev')) as [r|] eqn:Hc; simpl.
    + intros [= ->]. by eapply Hi2.
    + intros [= He]. specialize (Hb2 _ _ Hcb'). lia.
  - unfold NormCdfFactory_call, FactoryCacheKey.
    destruct (normcdf_cache after_logncdf !! (mean', stddev')) as [r|] eqn:Hc; simpl.
    + intros [= ->]. by eapply Hd1.
    + intros [= He]. specialize (Hb1 _ _ Hca'). lia.
  - unfold LogncdfFactory_call, FactoryCacheKey.
    destruct (logncdf_cache after_normcdf !! (mean', stddev')) as [r|] eqn:Hc; simpl.
    + intros [= ->]. by eapply Hd2.
    + intros [= He]. specialize (Hb2 _ _ Hcb'). lia.
Qed.
End Separation.

Section Reuse.
Context {num : Type} `{Countable num} {prob : Type}.
Variable lognorm_cdf norm_cdf : num → num → num → prob.
Local Abbreviation World := (@World num _ _ prob).
Local Abbreviation logncdf := (LogncdfFactory_call lognorm_cdf).
Local Abbreviation normcdf := (NormCdfFactory_call norm_cdf).
Local Abbreviation run := (run lognorm_cdf norm_cdf).
Local Abbreviation run_op := (run_op lognorm_cdf norm_cdf).

(** Property X19 (a factory makes one object per parameters).  Once a
    factory was called with [(mean, stddev)], calling it again with the same
    parameters, whatever happened in between, returns the same function
    object and changes nothing; and the first call does not raise. *)
Theorem factory_reuses_function_object (history ops : list op)
    (mean stddev : num) :
  let w := run history initial_world in
  let after_logncdf := run ops (logncdf mean stddev w).2 in
  let after_normcdf := run ops (normcdf mean stddev w).2 in
  logncdf mean stddev after_logncdf
    = ((logncdf mean stddev w).1, after_logncdf)
  ∧ normcdf mean stddev after_normcdf
    = ((normcdf mean stddev w).1, after_normcdf)
  ∧ ¬ raises (logncdf mean stddev w).1
  ∧ ¬ raises (normcdf mean stddev w).1.
Proof.
  intros w after_logncdf after_normcdf.
  assert (wf_world lognorm_cdf norm_cdf w) as Hw by apply reachable_wf.
  destruct (logncdf_result lognorm_cdf mean stddev w) as (a & Ha & Hca).
  destruct (normcdf_result norm_cdf mean stddev w) as (b & Hb & Hcb).
  assert (wf_world lognorm_cdf norm_cdf (logncdf mean stddev w).2) as Hw1
    by apply (run_op_wf lognorm_cdf norm_cdf (OpLogncdf mean stddev) w Hw).
  assert (wf_world lognorm_cdf norm_cdf (normcdf mean stddev w).2) as Hw2
    by apply (run_op_wf lognorm_cdf norm_cdf (OpNormcdf mean stddev) w Hw).
  destruct (run_caches_grow lognorm_cdf norm_cdf ops _ Hw1) as [Hg1 _].
  destruct (run_caches_grow lognorm_cdf norm_cdf ops _ Hw2) as [_ Hg2].
  pose proof (lookup_weaken _ _ _ _ Hca Hg1) as Hca'.
  pose proof (lookup_weaken _ _ _ _ Hcb Hg2) as Hcb'.
  fold after_logncdf in Hca'. fold after_normcdf in Hcb'.
  rewrite Ha, Hb. repeat split.
  - unfold LogncdfFactory_call, FactoryCacheKey.
    unfold FactoryCacheKey in Hca'. by rewrite Hca'.
  - unfold NormCdfFactory_call, FactoryCacheKey.
    unfold FactoryCacheKey in Hcb'. by rewrite Hcb'.
  - by intros [e [=]].
  - by intros [e [=]].
Qed.
End Reuse.

(** * Evaluating a damage state *)

Section Evaluation.
Context {num : Type} `{Countable num} {prob : Type}.
Local Abbreviation World := (@World num _ _ prob).

Lemma CachedFunction_call_not_KeyError self value (w : World) :
  (CachedFunction_call self value w).1 ≠ Raise KeyError
  ∧ (raises (CachedFunction_call self value w).1 →
     (CachedFunction_call self value w).2 = w).
Proof.
  unfold CachedFunction_call. destruct (heap w !! self) as [f|]; [|done].
  destruct (cache f !! value); simpl; (split; [done|]); by intros [e [=]].
Qed.

Lemma missing_intensity_raises (self : DamageState)
    (intensity : gmap string num) (units : gmap string string) (w : World) :
  intensity !! intensity_field self = None →
  (get_probability_for_intensity self intensity units w).1 = Raise KeyError.
Proof. intros Hi. unfold get_probability_for_intensity. by rewrite Hi. Qed.

(** Property X8 (a missing measure).  [get_probability_for_intensity]
    raises [KeyError] exactly when the intensities or the units lack the
    measure of the state, whatever the unit; and a call that raises leaves
    the function objects and the caches as they were. *)
Theorem missing_measure_is_KeyError (self : DamageState)
    (intensity : gmap string num) (units : gmap string string) (w : World) :
  let outcome := get_probability_for_intensity self intensity units w in
  (outcome.1 = Raise KeyError
     ↔ intensity !! intensity_field self = None
       ∨ units !! intensity_field self = None)
  ∧ (raises outcome.1 → outcome.2 = w).
Proof.
  unfold get_probability_for_intensity. simpl.
  destruct (intensity !! intensity_field self) as [value|]; simpl.
  - destruct (units !! intensity_field self) as [unit|]; simpl.
    + destruct (decide (unit ≠ intensity_unit self)); simpl.
      * split; [|done]. split; [done|]. by intros [|].
      * destruct (CachedFunction_call_not_KeyError (fragility_function self)
                    value w) as [Hk Hw].
        split; [|done]. split; [done|]. by intros [|].
    + split; [|done]. split; [by right|done].
  - split; [|done]. split; [by left|done].
Qed.

(** Property X9 (measure names in upper case).  A damage state stores the
    name of its measure in upper case, so the state made from a name and the
    one made from its upper case are equal; intensities and units given only
    under a name that is not in upper case are not found ([KeyError]). *)
Theorem measure_names_are_matched_in_upper_case (taxonomy : string)
    (from_state to_state : Z) (field unit : string) (function : addr)
    (value : num) (w : World) :
  DamageState_init taxonomy from_state to_state (PyStr.upper field) unit
    function
  = DamageState_init taxonomy from_state to_state field unit function
  ∧ (PyStr.upper field ≠ field →
     (get_probability_for_intensity
        (DamageState_init taxonomy from_state to_state field unit function)
        {[ field := value ]} {[ field := unit ]} w).1
     = Raise KeyError).
Proof.
  split.
  - unfold DamageState_init. by rewrite upper_idemp.
  - intros Hne.
    apply missing_intensity_raises. simpl. by apply lookup_singleton_ne.
Qed.
End Evaluation.

Local Open Scope Q_scope.

(** Property X10 (the bounding box is closed).  [is_location_in_bbox] is
    true exactly for the points with [left <= lon <= right] and
    [bottom <= lat <= top]: the edges belong to the box. *)
Theorem bounding_box_is_closed (self : Raster.RasterWrapper) (lon lat : Q) :
  let bbox := Raster.bounds (Raster._raster_reader self) in
  Raster.is_location_in_bbox self lon lat = true
  ↔ Raster.left bbox <= lon ∧ lon <= Raster.right bbox
    ∧ Raster.bottom bbox <= lat ∧ lat <= Raster.top bbox.
Proof.
  intros bbox. unfold Raster.is_location_in_bbox. fold bbox.
  assert (∀ x y, Raster.Qltb x y = false ↔ y <= x) as Hge.
  { intros x y. unfold Raster.Qltb. rewrite negb_false_iff. apply Qle_bool_iff. }
  destruct (Raster.Qltb lon (Raster.left bbox)) eqn:H1.
  { apply RasterFacts.Qltb_lt in H1. split; [done|]. intros (Hc & _).
    by apply Qlt_not_le in H1. }
  destruct (Raster.Qltb (Raster.right bbox) lon) eqn:H2.
  { apply RasterFacts.Qltb_lt in H2. split; [done|]. intros (_ & Hc & _).
    by apply Qlt_not_le in H2. }
  destruct (Raster.Qltb lat (Raster.bottom bbox)) eqn:H3.
  { apply RasterFacts.Qltb_lt in H3. split; [done|]. intros (_ & _ & Hc & _).
    by apply Qlt_not_le in H3. }
  destruct (Raster.Qltb (Raster.top bbox) lat) eqn:H4.
  { apply RasterFacts.Qltb_lt in H4. split; [done|]. intros (_ & _ & _ & Hc).
    by apply Qlt_not_le in H4. }
  apply Hge in H1, H2, H3, H4. done.
Qed.

Local Close Scope Q_scope.

(** * Reading damage labels *)

Module LabelFacts.
Import Shapefile.

Lemma string_app_assoc (s1 s2 s3 : string) :
  (s1 +:+ s2) +:+ s3 = s1 +:+ (s2 +:+ s3).
Proof.
  induction s1 as [|c s1 IH]; [done|].
  change (String c ((s1 +:+ s2) +:+ s3) = String c (s1 +:+ (s2 +:+ s3))).
  by rewrite IH.
Qed.

Lemma rev_chars_acc s acc :
  PyStr.rev_chars s acc = PyStr.rev_chars s "" +:+ acc.
Proof.
  revert acc. induction s as [|c s IH]; intros acc; simpl; [done|].
  rewrite (IH (String c acc)), (IH (String c "")).
  by rewrite string_app_assoc.
Qed.

Lemma reverse_cons c s : PyStr.reverse (String c s) = PyStr.reverse s +:+ String c "".
Proof. unfold PyStr.reverse. simpl. apply rev_chars_acc. Qed.

Lemma reverse_snoc s c : PyStr.reverse (s +:+ String c "") = String c (PyStr.reverse s).
Proof.
  unfold PyStr.reverse. rewrite rev_chars_app. simpl.
  done.
Qed.

Lemma reverse_involutive s : PyStr.reverse (PyStr.reverse s) = s.
Proof.
  induction s as [|c s IH]; [done|].
  by rewrite reverse_cons, reverse_snoc, IH.
Qed.

Lemma is_digit_not_space c : PyStr.is_digit c = true → is_space c = false.
Proof.
  destruct c as [[] [] [] [] [] [] [] []]; vm_compute; congruence.
Qed.

Lemma is_digit_not_sign c :
  PyStr.is_digit c = true → c ≠ "-"%char ∧ c ≠ "+"%char.
Proof.
  destruct c as [[] [] [] [] [] [] [] []]; vm_compute; (split; congruence).
Qed.

Lemma all_digits_cons c s :
  Spec.all_digits (String c s) = true →
  PyStr.is_digit c = true ∧ (s = "" ∨ Spec.all_digits s = true).
Proof.
  simpl. destruct s as [|c' s']; [by intros ->; split; [|left]|].
  intros [Hc Hs]%andb_true_iff. split; [done|by right].
Qed.

Lemma lstrip_digit_first c s :
  PyStr.is_digit c = true → lstrip (String c s) = String c s.
Proof. intros Hc. simpl. by rewrite (is_digit_not_space c Hc). Qed.

Lemma all_digits_last s :
  Spec.all_digits s = true →
  ∃ s' c, s = s' +:+ String c "" ∧ PyStr.is_digit c = true.
Proof.
  induction s as [|c s IH]; [done|].
  intros [Hc [->|Hs]]%all_digits_cons.
  - by exists "", c.
  - destruct (IH Hs) as (s' & c' & -> & Hc'). by exists (String c s'), c'.
Qed.

Lemma strip_all_digits s : Spec.all_digits s = true → strip s = s.
Proof.
  intros Hs. unfold strip.
  destruct s as [|c s]; [done|].
  destruct (all_digits_cons _ _ Hs) as [Hc _].
  rewrite (lstrip_digit_first c s Hc).
  destruct (all_digits_last _ Hs) as (s' & c' & Heq & Hc').
  rewrite Heq, reverse_snoc, (lstrip_digit_first c' _ Hc').
  by rewrite <- reverse_snoc, reverse_involutive.
Qed.

Lemma int_digits_all_digits s acc prev :
  Spec.all_digits s = true →
  int_digits s acc prev = Some (Spec.decimal_value_go s acc).
Proof.
  revert acc prev. induction s as [|c s IH]; intros acc prev Hs; [done|].
  destruct (all_digits_cons _ _ Hs) as [Hc [->|Hs']].
  - simpl. by rewrite Hc.
  - cbn [int_digits Spec.decimal_value_go]. rewrite Hc. by apply IH.
Qed.

Lemma py_int_all_digits s :
  Spec.all_digits s = true → py_int s = Ok (Spec.decimal_value s).
Proof.
  intros Hs. unfold py_int. rewrite (strip_all_digits s Hs).
  destruct s as [|c s]; [done|].
  destruct (all_digits_cons _ _ Hs) as [Hc _].
  destruct (is_digit_not_sign c Hc) as [Hm Hp].
  assert ((match c with
           | "-"%char => ((-1)%Z, s)
           | "+"%char => (1%Z, s)
           | _ => (1%Z, String c s)
           end) = (1, String c s)) as ->.
  { destruct c as [[] [] [] [] [] [] [] []]; try done. }
  rewrite (int_digits_all_digits _ 0 false Hs).
  unfold Spec.decimal_value. f_equal. lia.
Qed.

Lemma decimal_value_go_nonneg s acc :
  Spec.all_digits s = true → 0 ≤ acc → 0 ≤ Spec.decimal_value_go s acc.
Proof.
  revert acc. induction s as [|c s IH]; intros acc Hs Hacc; [done|].
  destruct (all_digits_cons _ _ Hs) as [Hc Hs'].
  assert (0 ≤ PyStr.digit_value c) as Hv.
  { unfold PyStr.is_digit in Hc. unfold PyStr.digit_value.
    apply andb_true_iff in Hc as [Hc _]. apply Nat.leb_le in Hc. lia. }
  destruct Hs' as [->|Hs']; simpl; [lia|].
  apply IH; [done|lia].
Qed.
End LabelFacts.

(** Property X11 (damage labels).  [dx_to_int] drops the first character,
    whatever it is, and reads the rest: on decimal digits it returns their
    value, which is not negative; on a label of one character or none it
    raises [ValueError]. *)
Theorem damage_label_value (first : ascii) (digits : string) :
  (Spec.all_digits digits = true →
   Shapefile.dx_to_int (String first digits) = Ok (Spec.decimal_value digits)
   ∧ 0 ≤ Spec.decimal_value digits)
  ∧ Shapefile.dx_to_int (String first "") = Raise ValueError
  ∧ Shapefile.dx_to_int "" = Raise ValueError.
Proof.
  split; [|done]. intros Hd. split.
  - unfold Shapefile.dx_to_int. simpl. by apply LabelFacts.py_int_all_digits.
  - by apply LabelFacts.decimal_value_go_nonneg.
Qed.

Local Open Scope Q_scope.

(** * The mean transition of a cell *)

Module MeanFacts.
Import Shapefile Summary.

Lemma np_sub_same_length a b :
  length a = length b → np_sub a b = Ok (zip_with Qminus a b).
Proof. intros Hl. unfold np_sub. by rewrite decide_True. Qed.

Lemma np_sum_ext a b : Forall2 Qeq a b → np_sum a == np_sum b.
Proof.
  induction 1 as [|x y a b Hxy Hab IH]; simpl; [reflexivity|].
  unfold np_sum in IH. by rewrite Hxy, IH.
Qed.

Lemma difference_of_products n f t :
  length f = length n → length t = length n →
  Forall2 Qeq
    (zip_with Qminus (zip_with Qmult n (inject_Z <$> t))
       (zip_with Qmult n (inject_Z <$> f)))
    (zip_with Qmult n (zip_with (λ f t, inject_Z (t - f)) f t)).
Proof.
  revert f t. induction n as [|x n IH]; intros [|y f] [|z t] Hf Ht;
    simplify_eq/=; constructor; [|by apply IH].
  unfold Zminus. rewrite inject_Z_plus, inject_Z_opp. ring.
Qed.

Lemma np_mul_singleton x b : np_mul [x] b = Ok (Qmult x <$> b).
Proof.
  unfold np_mul. destruct (decide _) as [Hl|_]; [|done].
  by destruct b as [|y [|y' b]].
Qed.

Lemma np_mul_nil a b c : np_mul a b = Ok c → c = [] → a = [] ∨ b = [].
Proof.
  unfold np_mul. destruct (decide _) as [Hl|Hl].
  - intros [= <-] Hc. left. destruct a, b; simplify_eq/=; done.
  - destruct a as [|x [|x' a]]; destruct b as [|y [|y' b]];
      try done; intros [= <-] Hc; simplify_eq/=; auto.
Qed.

Lemma np_sub_nil a b c : np_sub a b = Ok c → c = [] → a = [] ∨ b = [].
Proof.
  unfold np_sub. destruct (decide _) as [Hl|Hl].
  - intros [= <-] Hc. left. destruct a, b; simplify_eq/=; done.
  - destruct a as [|x [|x' a]]; destruct b as [|y [|y' b]];
      try done; intros [= <-] Hc; simplify_eq/=; auto.
Qed.

Lemma np_mul_long_nil x x' a : np_mul (x :: x' :: a) [] = Raise ValueError.
Proof. done. Qed.

Lemma np_mean_nan a : np_mean a = NaN ↔ a = [].
Proof. by destruct a. Qed.
End MeanFacts.

(** Property X12 (the mean transition).  Without building numbers the
    result of [compute_mean_transition] is [0], whatever the state columns
    hold.  With three columns of one length [n > 0] it is the sum of
    [n_buildings * (to - from)] over the rows, divided by [n]. *)
Theorem mean_transition_value (transitions_dict : Summary.Transitions) :
  let n := Summary.n_buildings transitions_dict in
  let f := Summary.from_damage_state transitions_dict in
  let t := Summary.to_damage_state transitions_dict in
  (n = [] → Summary.compute_mean_transition transitions_dict
            = Ok (Summary.Finite 0))
  ∧ (n ≠ [] → length f = length n → length t = length n →
     ∃ mean,
       Summary.compute_mean_transition transitions_dict
       = Ok (Summary.Finite mean)
       ∧ mean == Shapefile.np_sum
                   (zip_with Qmult n
                      (zip_with (λ f t, inject_Z (t - f)) f t))
                 / inject_Z (Z.of_nat (length n))).
Proof.
  intros n f t. unfold Summary.compute_mean_transition. fold n f t. split.
  - by intros ->.
  - intros Hn Hf Ht.
    rewrite decide_False by (by destruct n).
    rewrite !ShapefileFacts.np_mul_same_length by (by rewrite length_fmap).
    simpl.
    rewrite MeanFacts.np_sub_same_length
      by (by rewrite !length_zip_with, !length_fmap, Hf, Ht).
    simpl.
    pose proof (MeanFacts.difference_of_products n f t Hf Ht) as Hd.
    assert (length (zip_with Qminus (zip_with Qmult n (inject_Z <$> t))
                      (zip_with Qmult n (inject_Z <$> f))) = length n) as Hl.
    { rewrite !length_zip_with, !length_fmap. lia. }
    destruct (zip_with Qminus _ _) as [|d ds] eqn:Hz.
    { destruct n; [done|]. done. }
    eexists. split; [reflexivity|].
    rewrite Hl. rewrite (MeanFacts.np_sum_ext _ _ Hd). reflexivity.
Qed.

(** Property X13 (a mean that is not a number).  [compute_mean_transition]
    returns [nan] exactly when there is one building number and one state
    column is empty while the other has at most one entry: the test on the
    building numbers does not cover the state columns. *)
Theorem mean_transition_nan (transitions_dict : Summary.Transitions) :
  let n := Summary.n_buildings transitions_dict in
  let f := Summary.from_damage_state transitions_dict in
  let t := Summary.to_damage_state transitions_dict in
  Summary.compute_mean_transition transitions_dict = Ok Summary.NaN
  ↔ length n = 1%nat
    ∧ ((t = [] ∧ (length f ≤ 1)%nat) ∨ (f = [] ∧ (length t ≤ 1)%nat)).
Proof.
  intros n f t. unfold Summary.compute_mean_transition. fold n f t.
  destruct n as [|x [|x' n']].
  - simpl. split; [done|]. by intros [[=] _].
  - rewrite decide_False by done. rewrite !MeanFacts.np_mul_singleton. simpl.
    destruct t as [|z [|z' t']]; destruct f as [|y [|y' f']];
      try (vm_compute; split; [done|]; intros [_ [[? ?]|[? ?]]]; done || lia);
      try (vm_compute; split; [intros _|done]; split; [done|];
           (left; split; [done|lia]) || (right; split; [done|lia])).
    split; [|intros [_ [[? _]|[? _]]]; done].
    destruct (Summary.np_sub _ _) as [e|d] eqn:Hd; simpl; [done|].
    intros [= Hm%MeanFacts.np_mean_nan].
    by destruct (MeanFacts.np_sub_nil _ _ _ Hd Hm).
  - split; [|simpl; intros [? _]; lia].
    rewrite decide_False by done.
    destruct (Shapefile.np_mul _ (inject_Z <$> t)) as [e|g] eqn:Hg;
      simpl; [done|].
    destruct (Shapefile.np_mul _ (inject_Z <$> f)) as [e|k] eqn:Hk;
      simpl; [done|].
    destruct (Summary.np_sub g k) as [e|d] eqn:Hd; simpl; [done|].
    intros [= Hm%MeanFacts.np_mean_nan]. exfalso.
    destruct (MeanFacts.np_sub_nil _ _ _ Hd Hm) as [->| ->].
    + destruct (MeanFacts.np_mul_nil _ _ _ Hg eq_refl) as [?|Ht]; [done|].
      apply fmap_nil_inv in Ht. rewrite Ht in Hg. done.
    + destruct (MeanFacts.np_mul_nil _ _ _ Hk eq_refl) as [?|Hf]; [done|].
      apply fmap_nil_inv in Hf. rewrite Hf in Hk. done.
Qed.

Local Close Scope Q_scope.

(** * Custom columns *)

Section DictFacts.
Context {K : Type} `{EqDecision K} {V : Type}.
Implicit Types (d : Dict.dict K V) (k : K).

Lemma dict_get_update_eq k dflt f d :
  Dict.get k (Dict.update k dflt f d)
  = Some (f (default dflt (Dict.get k d))).
Proof.
  induction d as [|[k' v] d IH]; simpl.
  - by rewrite decide_True.
  - destruct (decide (k' = k)) as [->|Hne]; simpl.
    + by rewrite decide_True.
    + by rewrite decide_False.
Qed.

Lemma dict_get_update_ne k k' dflt f d :
  k ≠ k' → Dict.get k' (Dict.update k dflt f d) = Dict.get k' d.
Proof.
  intros Hne. induction d as [|[k0 v] d IH]; simpl.
  - by rewrite decide_False.
  - destruct (decide (k0 = k)) as [->|Hne0]; simpl.
    + by rewrite !decide_False.
    + by rewrite IH.
Qed.

Lemma dict_get_None k d : Dict.get k d = None ↔ k ∉ Dict.keys d.
Proof.
  induction d as [|[k' v] d IH]; simpl.
  - split; [intros _; apply not_elem_of_nil|done].
  - destruct (decide (k' = k)) as [->|Hne].
    + split; [done|]. intros Hn. exfalso. apply Hn. apply list_elem_of_here.
    + rewrite IH. rewrite not_elem_of_cons. split; [by split|by intros [_ ?]].
Qed.

Lemma dict_get_Some_elem k v d : Dict.get k d = Some v → (k, v) ∈ d.
Proof.
  induction d as [|[k' v'] d IH]; simpl; [done|].
  destruct (decide (k' = k)) as [->|Hne].
  - intros [= ->]. apply list_elem_of_here.
  - intros Hg. apply list_elem_of_further. by apply IH.
Qed.

Lemma dict_elem_get k v d : NoDup (Dict.keys d) → (k, v) ∈ d → Dict.get k d = Some v.
Proof.
  induction d as [|[k' v'] d IH]; simpl; [by intros _ ?%elem_of_nil|].
  intros [Hk Hnd]%NoDup_cons [Heq|Hin]%elem_of_cons.
  - simplify_eq. by rewrite decide_True.
  - destruct (decide (k' = k)) as [->|Hne]; [|by apply IH].
    exfalso. apply Hk. unfold Dict.keys.
    apply (list_elem_of_fmap_2 fst) in Hin. done.
Qed.

Lemma dict_update_absent k dflt f d :
  Dict.get k d = None → Dict.update k dflt f d = d ++ [(k, f dflt)].
Proof.
  induction d as [|[k' v'] d IH]; simpl; [done|].
  destruct (decide (k' = k)) as [->|Hne]; [done|]. intros Hg. by rewrite IH.
Qed.

Lemma dict_keys_update_present k dflt f d v :
  Dict.get k d = Some v → Dict.keys (Dict.update k dflt f d) = Dict.keys d.
Proof.
  induction d as [|[k' v'] d IH]; simpl; [done|].
  destruct (decide (k' = k)) as [->|Hne]; [done|].
  intros Hg. simpl. f_equal. by apply IH.
Qed.

Lemma dict_get_app k d d' :
  Dict.get k (d ++ d')
  = match Dict.get k d with Some v => Some v | None => Dict.get k d' end.
Proof.
  induction d as [|[k' v'] d IH]; simpl; [done|].
  by destruct (decide (k' = k)).
Qed.

Lemma dict_set_fresh {A} (key : A → K) (val : A → V) (l : list A) d :
  NoDup (Dict.keys d ++ (key <$> l)) →
  foldl (λ results a, Dict.set (key a) (val a) results) d l
  = d ++ ((λ a, (key a, val a)) <$> l).
Proof.
  revert d. induction l as [|a l IH]; intros d Hnd; simpl.
  - by rewrite app_nil_r.
  - unfold Dict.set at 2. rewrite dict_update_absent.
    + rewrite IH.
      * by rewrite <- app_assoc.
      * unfold Dict.keys. rewrite fmap_app. simpl. rewrite <- app_assoc. done.
    + apply dict_get_None. apply NoDup_app in Hnd as (_ & Hd & _).
      intros Hin. apply (Hd _ Hin). apply list_elem_of_here.
Qed.
End DictFacts.

Lemma snd_unique {A B} (l : list (A * B)) a b c :
  NoDup l.*2 → (a, c) ∈ l → (b, c) ∈ l → a = b.
Proof.
  induction l as [|[x y] l IH]; simpl; [by intros _ ?%elem_of_nil|].
  intros [Hy Hnd]%NoDup_cons [Ha|Ha]%elem_of_cons [Hb|Hb]%elem_of_cons.
  - by simplify_eq.
  - simplify_eq. exfalso. apply Hy. by apply (list_elem_of_fmap_2 snd) in Hb.
  - simplify_eq. exfalso. apply Hy. by apply (list_elem_of_fmap_2 snd) in Ha.
  - by apply IH.
Qed.

Lemma column_name_inj prefix : Inj (=) (=) (column_name prefix).
Proof.
  intros k k' Heq. unfold column_name in Heq.
  apply String.app_inj in Heq. by apply pretty_Z_inj in Heq.
Qed.

Lemma column_names_NoDup prefix n :
  NoDup (column_name prefix <$> seqZ 1 n).
Proof.
  apply NoDup_fmap_2; [apply column_name_inj|apply NoDup_seqZ].
Qed.

Section GeneratorFacts.
Context {Id : Type} `{EqDecision Id} {Val : Type}.
Implicit Types (self : Columns.CustomColumnGenerator Id Val)
  (calls : list (string * Id * Val)).

Lemma last_value_snoc calls long_name' id' value long_name id :
  last_value (calls ++ [(long_name', id', value)]) long_name id
  = if decide (long_name' = long_name ∧ id' = id) then Some value
    else last_value calls long_name id.
Proof. unfold last_value. by rewrite foldl_snoc. Qed.

Lemma last_value_never calls long_name id :
  long_name ∉ calls.*1.*1 → last_value calls long_name id = None.
Proof.
  induction calls as [|[[l i] v] calls IH] using rev_ind; [done|].
  rewrite !fmap_app, last_value_snoc. simpl.
  intros Hn. rewrite decide_False.
  - apply IH. intros Hin. apply Hn. apply elem_of_app. by left.
  - intros [-> _]. apply Hn. apply elem_of_app. right. apply list_elem_of_here.
Qed.

Lemma generated_init prefix :
  generated prefix [] (Columns.CustomColumnGenerator_init prefix
                       : Columns.CustomColumnGenerator Id Val).
Proof. unfold generated. simpl. repeat split; try done. Qed.

Lemma generated_names_NoDup prefix calls self :
  generated prefix calls self →
  NoDup (Dict.keys (Columns.custom_column_names self))
  ∧ NoDup (Dict.values (Columns.custom_column_names self)).
Proof.
  intros (_ & _ & Hk & Hv & _). split.
  - rewrite Hk. apply foldl_add_key_NoDup, NoDup_nil_2.
  - rewrite Hv. apply column_names_NoDup.
Qed.

Lemma generated_step prefix calls self long_name id value :
  generated prefix calls self →
  generated prefix (calls ++ [(long_name, id, value)])
    (Columns.set_value_for_custom_column self long_name id value).
Proof.
  intros Hg. pose proof (generated_names_NoDup _ _ _ Hg) as [Hndk Hndv].
  destruct Hg as (Hp & Hc & Hk & Hv & Hcols & Hcontent).
  unfold Columns.set_value_for_custom_column.
  destruct (Dict.get long_name (Columns.custom_column_names self))
    as [col_name|] eqn:Hl.
  - destruct (Hcontent _ _ Hl) as (inner & Hinner & Hvals).
    unfold generated. simpl. split; [done|]. split; [done|]. split.
    { rewrite !fmap_app. simpl. rewrite foldl_snoc, <- Hk. unfold add_key.
      rewrite decide_True; [done|].
      apply dict_get_Some_elem in Hl.
      by apply (list_elem_of_fmap_2 fst) in Hl. }
    split; [done|]. split.
    { by rewrite (dict_keys_update_present _ _ _ _ _ Hinner). }
    intros long_name' col_name' Hl'.
    destruct (decide (col_name' = col_name)) as [->|Hne].
    + assert (long_name' = long_name) as ->.
      { apply dict_get_Some_elem in Hl, Hl'.
        by apply (snd_unique _ _ _ _ Hndv Hl' Hl). }
      rewrite dict_get_update_eq, Hinner. simpl. eexists. split; [done|].
      intros id'. rewrite last_value_snoc.
      destruct (decide (id = id')) as [->|Hid].
      * unfold Dict.set. rewrite dict_get_update_eq.
        by rewrite decide_True.
      * unfold Dict.set. rewrite dict_get_update_ne by done.
        rewrite decide_False by (by intros [_ ?]). apply Hvals.
    + rewrite dict_get_update_ne by done.
      destruct (Hcontent _ _ Hl') as (inner' & Hinner' & Hvals').
      exists inner'. split; [done|]. intros id'. rewrite last_value_snoc.
      rewrite decide_False; [apply Hvals'|].
      intros [-> _]. rewrite Hl in Hl'. by simplify_eq.
  - set (col_name := Columns.prefix self +:+ pretty (Columns.count self)).
    assert (col_name = column_name prefix (Columns.count self)) as Hcol.
    { unfold col_name, column_name. by rewrite Hp. }
    assert (col_name ∉ Dict.values (Columns.custom_column_names self)) as Hfresh.
    { rewrite Hv, Hcol. intros Hin.
      apply list_elem_of_fmap_1 in Hin as (k & Heq & Hin).
      apply column_name_inj in Heq. subst k.
      apply elem_of_seqZ in Hin. lia. }
    assert (Dict.get col_name (Columns.custom_cols self) = None) as Hnone.
    { apply dict_get_None. by rewrite Hcols. }
    assert (long_name ∉ calls.*1.*1) as Hnever.
    { apply dict_get_None in Hl. rewrite Hk in Hl. intros Hin. apply Hl.
      apply elem_of_foldl_add_key. by right. }
    unfold generated. simpl. fold col_name.
    unfold Dict.set.
    rewrite !(dict_update_absent long_name) by done.
    rewrite (dict_update_absent col_name) by done.
    rewrite length_app. simpl.
    split; [done|]. split; [lia|]. split.
    { unfold Dict.keys. rewrite !fmap_app. simpl. rewrite foldl_snoc.
      unfold Dict.keys in Hk. rewrite <- Hk. unfold add_key.
      rewrite decide_False; [done|]. by apply dict_get_None in Hl. }
    split.
    { unfold Dict.values. rewrite fmap_app. simpl.
      replace (Z.of_nat (length (Columns.custom_column_names self) + 1))
        with (Z.of_nat (S (length (Columns.custom_column_names self))))
        by lia.
      rewrite seqZ_S, fmap_app. simpl. unfold Dict.values in Hv.
      rewrite <- Hv. rewrite Hcol, Hc. reflexivity. }
    split.
    { unfold Dict.keys, Dict.values. rewrite !fmap_app. simpl.
      unfold Dict.keys, Dict.values in Hcols. by rewrite Hcols. }
    intros long_name' col_name'. rewrite dict_get_app.
    destruct (Dict.get long_name' (Columns.custom_column_names self))
      as [c|] eqn:Hl'.
    + intros [= ->].
      destruct (Hcontent _ _ Hl') as (inner' & Hinner' & Hvals').
      exists inner'. rewrite dict_get_app, Hinner'. split; [done|].
      intros id'. rewrite last_value_snoc.
      rewrite decide_False; [apply Hvals'|].
      intros [-> _]. rewrite Hl in Hl'. done.
    + simpl. destruct (decide (long_name = long_name')) as [<-|Hne]; [|done].
      intros [= <-]. rewrite dict_get_app, Hnone. simpl.
      rewrite decide_True by done. eexists. split; [done|].
      intros id'. rewrite last_value_snoc. simpl.
      destruct (decide (id = id')) as [->|Hid].
      * by rewrite decide_True.
      * rewrite decide_False by (by intros [_ ?]).
        by rewrite last_value_never.
Qed.

Lemma generated_set_values prefix calls :
  generated prefix calls
    (Columns.set_values (Columns.CustomColumnGenerator_init prefix) calls).
Proof.
  induction calls as [|[[long_name id] value] calls IH] using rev_ind.
  - apply generated_init.
  - unfold Columns.set_values. rewrite foldl_snoc.
    by apply generated_step.
Qed.
End GeneratorFacts.

Lemma foldl_ext_eq {A B} (f g : A → B → A) (l : list B) (a : A) :
  (∀ x y, f x y = g x y) → foldl f a l = foldl g a l.
Proof.
  intros Hfg. revert a. induction l as [|b l IH]; intros a; simpl; [done|].
  by rewrite Hfg, IH.
Qed.

Lemma dict_get_fmap_key {K} `{EqDecision K} {V W} (g : K → W)
    (d : Dict.dict K V) (k : K) :
  Dict.get k ((λ p, (p.1, g p.1)) <$> d) = (λ _, g k) <$> Dict.get k d.
Proof.
  induction d as [|[k' v] d IH]; simpl; [done|].
  destruct (decide (k' = k)) as [->|Hne]; [done|apply IH].
Qed.

Section GeneratorResults.
Context {Id : Type} `{EqDecision Id} {Val : Type}.
Implicit Types (calls : list (string * Id * Val)).

Lemma mapping_swaps (self : Columns.CustomColumnGenerator Id Val) :
  NoDup (Dict.values (Columns.custom_column_names self)) →
  Columns.get_custom_column_mapping self
  = (λ p, (p.2, p.1)) <$> Columns.custom_column_names self.
Proof.
  intros Hnd. unfold Columns.get_custom_column_mapping.
  rewrite (foldl_ext_eq _ (λ mapping p, Dict.set p.2 p.1 mapping))
    by (by intros ? [? ?]).
  by rewrite (dict_set_fresh snd fst).
Qed.

Lemma full_columns_maps (self : Columns.CustomColumnGenerator Id Val) id_array :
  NoDup (Dict.keys (Columns.custom_cols self)) →
  Columns.full_columns self id_array
  = (λ p, (p.1,
           (λ id, Dict.get id
                    (default [] (Dict.get p.1 (Columns.custom_cols self))))
             <$> id_array))
      <$> Columns.custom_cols self.
Proof.
  intros Hnd. unfold Columns.full_columns.
  rewrite (foldl_ext_eq _
             (λ results p,
                Dict.set p.1
                  ((λ id, Dict.get id
                            (default [] (Dict.get p.1
                                           (Columns.custom_cols self))))
                     <$> id_array) results))
    by (by intros ? [? ?]).
  by rewrite (dict_set_fresh fst).
Qed.

(** Property X14 (custom column names).  After any sequence of
    [set_value_for_custom_column] on a fresh generator: the long names are
    those of the calls, each once, in the order of their first call; their
    short names are the prefix followed by [1], [2], ... in that order; the
    columns are these short names in the same order; and
    [get_custom_column_mapping] maps a short name to a long name exactly
    when the long name has that short name. *)
Theorem custom_columns_are_numbered (prefix : string) calls :
  let self :=
    Columns.set_values (Columns.CustomColumnGenerator_init prefix) calls in
  let names := Columns.custom_column_names self in
  Dict.keys names = foldl add_key [] (calls.*1.*1)
  ∧ Dict.values names
    = (λ k, prefix +:+ pretty k) <$> seqZ 1 (Z.of_nat (length names))
  ∧ Dict.keys (Columns.custom_cols self) = Dict.values names
  ∧ ∀ col_name long_name,
      Dict.get col_name (Columns.get_custom_column_mapping self)
        = Some long_name
      ↔ Dict.get long_name names = Some col_name.
Proof.
  intros self names.
  pose proof (generated_set_values prefix calls) as Hg.
  pose proof (generated_names_NoDup _ _ _ Hg) as [Hndk Hndv].
  destruct Hg as (_ & _ & Hk & Hv & Hcols & _).
  fold self in Hk, Hv, Hcols, Hndk, Hndv. fold names in Hk, Hv, Hcols, Hndk, Hndv.
  split; [done|]. split; [done|]. split; [done|].
  intros col_name long_name. rewrite mapping_swaps by done. fold self names.
  assert (NoDup (Dict.keys ((λ p : string * string, (p.2, p.1)) <$> names)))
    as Hnd'.
  { unfold Dict.keys. rewrite <- list_fmap_compose. done. }
  split.
  - intros Hin%dict_get_Some_elem.
    apply list_elem_of_fmap_1 in Hin as ([l c] & [= -> ->] & Hin).
    by apply dict_elem_get.
  - intros Hin%dict_get_Some_elem. apply dict_elem_get; [done|].
    by apply (list_elem_of_fmap_2 (λ p : string * string, (p.2, p.1))) in Hin.
Qed.

(** Property X15 (the cells of the custom columns).  After any sequence
    of [set_value_for_custom_column] on a fresh generator, [full_columns]
    has the columns of the generator, and the column of a long name holds,
    for each row of [id_array] in order, the value of the last call for
    that long name and row, or [None] when there was none: every column is
    as long as [id_array]. *)
Theorem full_columns_hold_last_values (prefix : string) calls
    (id_array : list Id) :
  let self :=
    Columns.set_values (Columns.CustomColumnGenerator_init prefix) calls in
  let columns := Columns.full_columns self id_array in
  Dict.keys columns = Dict.keys (Columns.custom_cols self)
  ∧ ∀ long_name col_name,
      Dict.get long_name (Columns.custom_column_names self) = Some col_name →
      Dict.get col_name columns
      = Some (last_value calls long_name <$> id_array).
Proof.
  intros self columns.
  pose proof (generated_set_values prefix calls) as Hg.
  pose proof (generated_names_NoDup _ _ _ Hg) as [Hndk Hndv].
  destruct Hg as (_ & _ & Hk & Hv & Hcols & Hcontent).
  fold self in Hk, Hv, Hcols, Hndk, Hndv, Hcontent.
  assert (NoDup (Dict.keys (Columns.custom_cols self))) as Hnd
    by (by rewrite Hcols).
  unfold columns. rewrite full_columns_maps by done. split.
  - unfold Dict.keys. rewrite <- list_fmap_compose. done.
  - intros long_name col_name Hl.
    destruct (Hcontent _ _ Hl) as (inner & Hinner & Hvals).
    rewrite (dict_get_fmap_key
               (λ c, (λ id, Dict.get id
                              (default [] (Dict.get c (Columns.custom_cols self))))
                       <$> id_array)).
    rewrite Hinner. simpl. f_equal. apply list_fmap_ext. intros _ id _.
    apply Hvals.
Qed.
End GeneratorResults.

Local Open Scope Q_scope.

(** * The tables of a cell *)

Module SumFacts.
Import Summary.

Lemma foldl_Qplus a l : foldl Qplus a l == a + py_sum l.
Proof.
  unfold py_sum. revert a. induction l as [|x l IH]; intros a; simpl.
  - ring.
  - rewrite (IH (a + x)), (IH (0 + x)). ring.
Qed.

Lemma py_sum_cons x l : py_sum (x :: l) == x + py_sum l.
Proof. unfold py_sum at 1. simpl. rewrite foldl_Qplus. ring. Qed.

Lemma py_sum_nil : py_sum [] == 0.
Proof. reflexivity. Qed.

Lemma entry_add_transition matrix from_ds to_ds n f t :
  entry (add_transition matrix from_ds to_ds n) f t
  = if decide ((from_ds, to_ds) = (f, t))
    then Some (default 0 (entry matrix f t) + n)
    else entry matrix f t.
Proof.
  unfold entry, add_transition.
  destruct (decide (from_ds = f)) as [->|Hf].
  - rewrite dict_get_update_eq. simpl.
    destruct (decide (to_ds = t)) as [->|Ht].
    + rewrite dict_get_update_eq, decide_True by done.
      by destruct (Dict.get f matrix).
    + rewrite dict_get_update_ne by done.
      rewrite decide_False by congruence.
      by destruct (Dict.get f matrix).
  - rewrite dict_get_update_ne by done.
    by rewrite decide_False by congruence.
Qed.

Lemma moved_cons from_ds to_ds n rows f t :
  moved ((from_ds, to_ds, n) :: rows) f t
  = if decide ((from_ds, to_ds) = (f, t)) then n :: moved rows f t
    else moved rows f t.
Proof.
  unfold moved. simpl. destruct (decide _) as [Heq|Hne].
  - by rewrite bool_decide_eq_true_2.
  - by rewrite bool_decide_eq_false_2.
Qed.

End SumFacts.

(** Property X16 (the transition matrix).  One pass of the rows of a
    transition table over a matrix adds, to the entry from one state to
    another (read as [0] when absent), the building numbers of the rows
    with these two states; and the entry exists afterwards exactly when it
    existed before or there is such a row.  Rows are the triples up to the
    shortest column. *)
Theorem transition_matrix_sums (matrix : Dict.dict Z (Dict.dict Z Q))
    (transitions_dict : Summary.Transitions) (from_ds to_ds : Z) :
  let rows :=
    Summary.zip3 (Summary.from_damage_state transitions_dict)
      (Summary.to_damage_state transitions_dict)
      (Summary.n_buildings transitions_dict) in
  let matrix' := Summary.add_transitions matrix transitions_dict in
  default 0 (entry matrix' from_ds to_ds)
    == default 0 (entry matrix from_ds to_ds)
       + Summary.py_sum (moved rows from_ds to_ds)
  ∧ (is_Some (entry matrix' from_ds to_ds)
     ↔ is_Some (entry matrix from_ds to_ds) ∨ moved rows from_ds to_ds ≠ []).
Proof.
  intros rows matrix'. subst matrix'. unfold Summary.add_transitions.
  fold rows. clearbody rows. revert matrix.
  induction rows as [|[[f t] n] rows IH]; intros matrix; cbn [foldl].
  - change (moved [] from_ds to_ds) with (@nil Q). split.
    + rewrite SumFacts.py_sum_nil. ring.
    + split; [by left|]. by intros [?|?].
  - destruct (IH (Summary.add_transition matrix f t n)) as [Hv Hp].
    rewrite SumFacts.entry_add_transition in Hv, Hp.
    rewrite SumFacts.moved_cons.
    destruct (decide ((f, t) = (from_ds, to_ds))) as [Heq|Hne]; [|done].
    split.
    + rewrite Hv. cbn [default from_option id].
      rewrite SumFacts.py_sum_cons. ring.
    + rewrite Hp. split; [by right|]. intros _. left. by eexists.
Qed.

Local Close Scope Q_scope.

Local Open Scope Q_scope.

(** * The building count of a cell *)

Module BuildingFacts.
Import Shapefile Summary SumFacts.

Lemma add_buildings_parsed rows table total :
  add_buildings rows table total
  = result_bind (parse_rows rows) (λ parsed,
      Ok (foldl add_row table parsed, foldl add_to_total total parsed)).
Proof.
  revert table total.
  induction rows as [|[[taxonomy damage] number] rows IH];
    intros table total; [done|].
  cbn [add_buildings]. unfold parse_rows. cbn [map_result].
  destruct (dx_to_int damage) as [e|d]; [done|].
  cbn [result_bind]. rewrite IH. unfold parse_rows.
  by destruct (map_result _ rows) as [e|parsed].
Qed.

Lemma values_sum_set (d : Dict.dict Z Q) k v :
  py_sum (Dict.values (Dict.set k v d))
  == py_sum (Dict.values d) - default 0 (Dict.get k d) + v.
Proof.
  unfold Dict.set. induction d as [|[k' v'] d IH].
  - cbn [Dict.update Dict.values fmap list_fmap snd Dict.get default
         from_option id].
    rewrite py_sum_cons, py_sum_nil. ring.
  - cbn [Dict.update Dict.get]. destruct (decide (k' = k)) as [->|Hne].
    + cbn [Dict.values fmap list_fmap snd default from_option id].
      rewrite !py_sum_cons. ring.
    + cbn [Dict.values fmap list_fmap snd]. unfold Dict.values in IH.
      rewrite !py_sum_cons, IH. ring.
Qed.

Lemma count_buildings_cons k inner table :
  count_buildings ((k, inner) :: table)
  == py_sum (Dict.values inner) + count_buildings table.
Proof.
  unfold count_buildings.
  cbn [Dict.values fmap list_fmap snd compose]. apply py_sum_cons.
Qed.

Lemma count_buildings_add_row table row :
  count_buildings (add_row table row)
  == count_buildings table - default 0 (entry table row.1.1 row.1.2) + row.2.
Proof.
  destruct row as [[taxonomy damage] number]. unfold add_row, entry.
  cbn [fst snd].
  induction table as [|[k inner] table IH].
  - cbn [Dict.update Dict.get mbind option_bind default from_option id].
    rewrite count_buildings_cons.
    change (count_buildings []) with (py_sum []).
    rewrite (values_sum_set [] damage number).
    cbn [Dict.values fmap list_fmap Dict.get default from_option id].
    rewrite py_sum_nil. ring.
  - cbn [Dict.update Dict.get]. destruct (decide (k = taxonomy)) as [->|Hne].
    + cbn [mbind option_bind]. rewrite !count_buildings_cons.
      rewrite values_sum_set. ring.
    + rewrite !count_buildings_cons, IH. ring.
Qed.

Lemma entry_add_row table row taxonomy damage :
  entry (add_row table row) taxonomy damage
  = if decide (row.1 = (taxonomy, damage)) then Some row.2
    else entry table taxonomy damage.
Proof.
  destruct row as [[t d] n]. unfold entry, add_row. cbn [fst snd].
  destruct (decide (t = taxonomy)) as [->|Ht].
  - rewrite dict_get_update_eq. cbn [mbind option_bind].
    destruct (decide (d = damage)) as [->|Hd].
    + unfold Dict.set. rewrite dict_get_update_eq. by rewrite decide_True.
    + unfold Dict.set. rewrite dict_get_update_ne by done.
      rewrite decide_False by congruence.
      by destruct (Dict.get taxonomy table).
  - rewrite dict_get_update_ne by done.
    by rewrite decide_False by congruence.
Qed.

Lemma last_number_None rows key :
  last_number rows key = None ↔ key ∉ fst <$> rows.
Proof.
  induction rows as [|row rows IH]; simpl.
  - split; [intros _; apply not_elem_of_nil|done].
  - rewrite not_elem_of_cons.
    destruct (last_number rows key) as [n|].
    + split; [done|]. intros [_ Hn]. by apply IH in Hn.
    + destruct (decide (row.1 = key)) as [<-|Hne].
      * split; [done|]. by intros [? _].
      * split; [|done]. intros _. split; [done|]. by apply IH.
Qed.

Lemma last_number_snoc rows row key :
  last_number (rows ++ [row]) key
  = if decide (row.1 = key) then Some row.2 else last_number rows key.
Proof.
  induction rows as [|row' rows IH]; simpl.
  - by destruct (decide (row.1 = key)).
  - rewrite IH. by destruct (decide (row.1 = key)).
Qed.

Lemma last_rows_snoc rows row :
  py_sum (snd <$> last_rows (rows ++ [row]))
  == py_sum (snd <$> last_rows rows)
     - default 0 (last_number rows row.1) + row.2.
Proof.
  induction rows as [|x rows IH].
  - cbn. unfold py_sum. simpl. ring.
  - cbn [app last_rows last_number].
    destruct (decide (x.1 = row.1)) as [Heq|Hne].
    + rewrite decide_True
        by (rewrite fmap_app, elem_of_app; right; rewrite Heq;
            apply list_elem_of_here).
      rewrite IH.
      destruct (decide (x.1 ∈ fst <$> rows)) as [Hin|Hnin].
      * rewrite Heq in Hin.
        destruct (last_number rows row.1) as [n|] eqn:Hn; [done|].
        by apply last_number_None in Hn.
      * rewrite Heq in Hnin. apply last_number_None in Hnin as ->.
        cbn [fmap list_fmap default from_option id].
        rewrite py_sum_cons. ring.
    + assert (last_number rows row.1
              = match last_number rows row.1 with
                | Some number => Some number
                | None => None
                end) as <-.
      { by destruct (last_number rows row.1). }
      destruct (decide (x.1 ∈ fst <$> rows)) as [Hin|Hnin].
      * rewrite decide_True by (rewrite fmap_app, elem_of_app; by left).
        apply IH.
      * rewrite decide_False.
        -- cbn [fmap list_fmap]. rewrite !py_sum_cons, IH. ring.
        -- rewrite fmap_app, elem_of_app. intros [?|Hin]; [done|].
           apply list_elem_of_singleton in Hin. done.
Qed.

Lemma table_of_rows rows :
  (∀ taxonomy damage,
     entry (foldl add_row [] rows) taxonomy damage
     = last_number rows (taxonomy, damage))
  ∧ count_buildings (foldl add_row [] rows)
    == py_sum (snd <$> last_rows rows).
Proof.
  induction rows as [|row rows [IHe IHc]] using rev_ind.
  - split; [done|]. reflexivity.
  - rewrite foldl_snoc. split.
    + intros taxonomy damage.
      by rewrite entry_add_row, last_number_snoc, IHe.
    + rewrite count_buildings_add_row, last_rows_snoc, IHc.
      destruct row as [[t d] n]. cbn [fst snd]. by rewrite IHe.
Qed.

Lemma last_rows_NoDup rows : NoDup (fst <$> rows) → last_rows rows = rows.
Proof.
  induction rows as [|row rows IH]; simpl; [done|].
  intros [Hn Hnd]%NoDup_cons. rewrite decide_False by done.
  by rewrite IH.
Qed.

Lemma of_damage_cons row rows damage :
  of_damage (row :: rows) damage
  = if decide (row.1.2 = damage) then row.2 :: of_damage rows damage
    else of_damage rows damage.
Proof.
  unfold of_damage. simpl. destruct (decide _) as [Heq|Hne].
  - by rewrite bool_decide_eq_true_2.
  - by rewrite bool_decide_eq_false_2.
Qed.

Lemma total_of_rows rows total damage :
  default 0 (Dict.get damage (foldl add_to_total total rows))
  == default 0 (Dict.get damage total) + py_sum (of_damage rows damage).
Proof.
  revert total. induction rows as [|row rows IH]; intros total; cbn [foldl].
  - change (of_damage [] damage) with (@nil Q). rewrite py_sum_nil. ring.
  - rewrite IH, of_damage_cons. unfold add_to_total.
    destruct (decide (row.1.2 = damage)) as [<-|Hne].
    + rewrite dict_get_update_eq. cbn [default from_option id].
      rewrite py_sum_cons. ring.
    + by rewrite dict_get_update_ne.
Qed.
End BuildingFacts.

(** Property X17 (the buildings of a cell).  When a damage label of a row
    cannot be read, the building loop raises the error of [dx_to_int].
    Otherwise the building number of the cell is the sum over the last row
    of every taxonomy and damage state (an earlier row of the same two is
    overwritten), hence the sum over all rows when no two rows share them;
    the total by damage state is increased by every row. *)
Theorem cell_count_keeps_last_rows (expo_dict : Shapefile.Expo)
    (total : Dict.dict Z Q) :
  let rows :=
    Summary.zip3 (Shapefile.Taxonomy expo_dict) (Shapefile.Damage expo_dict)
      (Shapefile.Buildings expo_dict) in
  (∀ e, parse_rows rows = Raise e →
        Summary.buildings_of_cell expo_dict total = Raise e)
  ∧ (∀ parsed, parse_rows rows = Ok parsed →
     ∃ buildings total',
       Summary.buildings_of_cell expo_dict total = Ok (buildings, total')
       ∧ buildings == Summary.py_sum (snd <$> last_rows parsed)
       ∧ (NoDup (fst <$> parsed) →
          buildings == Summary.py_sum (snd <$> parsed))
       ∧ ∀ damage,
           default 0 (Dict.get damage total')
           == default 0 (Dict.get damage total)
              + Summary.py_sum (of_damage parsed damage)).
Proof.
  intros rows. unfold Summary.buildings_of_cell. fold rows.
  rewrite BuildingFacts.add_buildings_parsed. split.
  - by intros e ->.
  - intros parsed ->. cbn [result_bind].
    destruct (BuildingFacts.table_of_rows parsed) as [_ Hc].
    eexists _, _. split; [reflexivity|]. split; [done|]. split.
    + intros Hnd. rewrite Hc. by rewrite BuildingFacts.last_rows_NoDup.
    + intros damage. apply BuildingFacts.total_of_rows.
Qed.

Local Close Scope Q_scope.

(** * Samples of a raster *)

Lemma np_item_in_range {A} (a : list A) (i : Z) :
  let n := Z.of_nat (length a) in
  - n ≤ i < n →
  ∃ x, a !! Z.to_nat (i mod n) = Some x ∧ Raster.np_item a i = Ok x.
Proof.
  intros n Hi. unfold Raster.np_item. fold n.
  assert ((if i <? 0 then i + n else i) = i mod n) as ->.
  { destruct (Z.ltb_spec i 0).
    - apply Z.mod_unique with (-1); lia.
    - symmetry. apply Z.mod_small. lia. }
  assert (0 ≤ i mod n < n) as Hm by (apply Z.mod_pos_bound; lia).
  destruct (Z.leb_spec 0 (i mod n)); [|lia].
  destruct (Z.ltb_spec (i mod n) n); [|lia]. simpl.
  destruct (lookup_lt_is_Some_2 a (Z.to_nat (i mod n))) as [x Hx]; [lia|].
  exists x. by rewrite Hx.
Qed.

Lemma np_item_out_of_range {A} (a : list A) (i : Z) :
  let n := Z.of_nat (length a) in
  ¬ (- n ≤ i < n) → Raster.np_item a i = Raise IndexError.
Proof.
  intros n Hi. unfold Raster.np_item. fold n.
  destruct (Z.ltb_spec i 0).
  - destruct (Z.leb_spec 0 (i + n)); [lia|done].
  - destruct (Z.leb_spec 0 i); [|lia].
    destruct (Z.ltb_spec i n); [lia|done].
Qed.

(** Property X18 (samples are not checked against the box).  On a band
    of [rows] rows of [columns] values, [get_sample] returns the value at
    row [r mod rows], column [c mod columns] for every index [(r, c)] with
    [-rows <= r < rows] and [-columns <= c < columns], so that a negative
    index reads from the opposite edge; for any other index it raises
    [IndexError]. *)
Theorem sample_index_wraps_around (self : Raster.RasterWrapper) (lon lat : Q)
    (band : list (list Q)) (rest : list (list (list Q))) (width : nat) :
  Raster._data self = band :: rest →
  Forall (λ row, length row = width) band →
  let idx := Raster.index (Raster._raster_reader self) lon lat in
  let rows := Z.of_nat (length band) in
  let columns := Z.of_nat width in
  (- rows ≤ idx.1 < rows ∧ - columns ≤ idx.2 < columns →
   ∃ row value,
     band !! Z.to_nat (idx.1 mod rows) = Some row
     ∧ row !! Z.to_nat (idx.2 mod columns) = Some value
     ∧ Raster.get_sample self lon lat = Ok value)
  ∧ (¬ (- rows ≤ idx.1 < rows ∧ - columns ≤ idx.2 < columns) →
     Raster.get_sample self lon lat = Raise IndexError).
Proof.
  intros Hdata Hband idx rows columns. unfold Raster.get_sample. fold idx.
  rewrite Hdata. change (Raster.np_item (band :: rest) 0) with (Ok band).
  cbn [result_bind]. split.
  - intros [Hr Hc].
    destruct (np_item_in_range band idx.1 Hr) as (row & Hrow & ->).
    cbn [result_bind].
    assert (length row = width) as Hw.
    { rewrite Forall_forall in Hband. apply Hband.
      by apply list_elem_of_lookup_2 in Hrow. }
    destruct (np_item_in_range row idx.2) as (value & Hvalue & ->).
    { by rewrite Hw. }
    exists row, value. rewrite Hw in Hvalue. done.
  - intros Hout.
    destruct (decide (- rows ≤ idx.1 < rows)) as [Hr|Hr].
    + destruct (np_item_in_range band idx.1 Hr) as (row & Hrow & ->).
      cbn [result_bind].
      assert (length row = width) as Hw.
      { rewrite Forall_forall in Hband. apply Hband.
        by apply list_elem_of_lookup_2 in Hrow. }
      apply np_item_out_of_range. rewrite Hw. tauto.
    + by rewrite np_item_out_of_range.
Qed.

(** * Further reference scenarios *)

Lemma completion_keeps_and_copies_witness :
  let l0 := [mkDamageState "URM1" 0 1 "PGA" "g" 0%nat;
             mkDamageState "URM1" 0 2 "PGA" "g" 1%nat] in
  l0 ≠ []
  ∧ ∃ added,
      _add_damage_states_if_missing_to_dataset_list l0 = Ok (l0 ++ added)
      ∧ Forall (λ x, ∃ d0, d0 ∈ l0 ∧ descends_from x d0) added.
Proof.
  intros l0. assert (l0 ≠ []) as Hne by done.
  split; [exact Hne|].
  exact (proj2 (completion_keeps_and_copies l0) Hne).
Defined.

Lemma completion_fills_exactly_witness :
  let l0 := [mkDamageState "URM1" 0 1 "PGA" "g" 0%nat;
             mkDamageState "URM1" 0 2 "PGA" "g" 1%nat] in
  _add_damage_states_if_missing_to_dataset_list l0 = Ok urm1_completed
  ∧ py_max (to_state <$> l0) = Ok 2
  ∧ count_pair 1 2 l0 = 0%nat
  ∧ ((filled_in 2 l0 1 2 ∧ count_pair 1 2 urm1_completed = 1%nat)
     ∨ (¬ filled_in 2 l0 1 2 ∧ count_pair 1 2 urm1_completed = 0%nat)).
Proof.
  intros l0.
  assert (_add_damage_states_if_missing_to_dataset_list l0 = Ok urm1_completed)
    as Hl by reflexivity.
  assert (py_max (to_state <$> l0) = Ok 2) as Hm by reflexivity.
  assert (count_pair 1 2 l0 = 0%nat) as Hc by reflexivity.
  split; [exact Hl|]. split; [exact Hm|]. split; [exact Hc|].
  exact (proj2 (completion_fills_exactly l0 urm1_completed 2 1 2 Hl Hm) Hc).
Defined.

Lemma completion_idempotent_witness :
  _add_damage_states_if_missing_to_dataset_list
    [mkDamageState "URM1" 0 1 "PGA" "g" 0%nat;
     mkDamageState "URM1" 0 2 "PGA" "g" 1%nat]
  = Ok urm1_completed
  ∧ _add_damage_states_if_missing_to_dataset_list urm1_completed
    = Ok urm1_completed.
Proof.
  split; [reflexivity|].
  exact (completion_idempotent
           [mkDamageState "URM1" 0 1 "PGA" "g" 0%nat;
            mkDamageState "URM1" 0 2 "PGA" "g" 1%nat]
           urm1_completed eq_refl).
Defined.

Lemma load_without_sublevel_result :
  to_fragility_provider lognorm_cdf_at norm_cdf_at without_sublevel
    initial_world
  = (Ok without_sublevel_provider, (load without_sublevel).2).
Proof. vm_compute. reflexivity. Defined.

Lemma provider_taxonomies_witness :
  to_fragility_provider lognorm_cdf_at norm_cdf_at without_sublevel
    initial_world
  = (Ok without_sublevel_provider, (load without_sublevel).2)
  ∧ get_taxonomies without_sublevel_provider
    = foldl add_key [] (taxonomies_with_keys (data without_sublevel))
  ∧ NoDup (get_taxonomies without_sublevel_provider)
  ∧ ∀ taxonomy,
      taxonomy ∈ get_taxonomies without_sublevel_provider
      ↔ ∃ dataset, dataset ∈ data without_sublevel
                   ∧ d_taxonomy dataset = taxonomy
                   ∧ mean_keys dataset ≠ [].
Proof.
  split; [exact load_without_sublevel_result|].
  exact (provider_taxonomies lognorm_cdf_at norm_cdf_at without_sublevel
           initial_world without_sublevel_provider (load without_sublevel).2
           load_without_sublevel_result).
Defined.

Lemma lookup_registers_unknown_taxonomy_witness :
  let outcome :=
    get_damage_states_for_taxonomy_effect without_sublevel_provider "W" in
  ("W" ∉ get_taxonomies without_sublevel_provider)
  ∧ outcome.1 = []
  ∧ get_taxonomies outcome.2
    = get_taxonomies without_sublevel_provider ++ ["W"].
Proof.
  intros outcome.
  assert ("W" ∉ get_taxonomies without_sublevel_provider) as Hn.
  { apply (proj1 (bool_decide_eq_false _)). reflexivity. }
  split; [exact Hn|].
  pose proof (lookup_registers_unknown_taxonomy without_sublevel_provider "W")
    as Hl.
  fold outcome in Hl. destruct outcome as [states after].
  destruct Hl as (_ & _ & Hl). destruct (Hl Hn) as (Hs & Ht & _).
  split; [exact Hs|exact Ht].
Defined.


Lemma factories_never_alias_witness :
  let logncdf := LogncdfFactory_call lognorm_cdf_at in
  let w := run lognorm_cdf_at norm_cdf_at [] initial_world in
  let after := run lognorm_cdf_at norm_cdf_at [OpNormcdf (dec 5.9) (dec 0.8)]
                 (logncdf (dec 5.9) (dec 0.8) w).2 in
  (logncdf (dec 5.9) (dec 0.8) after).1 = (logncdf (dec 5.9) (dec 0.8) w).1
  ∧ (dec 5.9, dec 0.8) = (dec 5.9, dec 0.8)
  ∧ (NormCdfFactory_call norm_cdf_at (dec 5.9) (dec 0.8) after).1
    ≠ (logncdf (dec 5.9) (dec 0.8) w).1.
Proof.
  intros logncdf w after.
  assert ((logncdf (dec 5.9) (dec 0.8) after).1
          = (logncdf (dec 5.9) (dec 0.8) w).1) as Hsame
    by (vm_compute; reflexivity).
  pose proof (factories_never_alias lognorm_cdf_at norm_cdf_at []
                [OpNormcdf (dec 5.9) (dec 0.8)]
                (dec 5.9) (dec 0.8) (dec 5.9) (dec 0.8)) as (H1 & _ & H3 & _).
  split; [exact Hsame|]. split; [exact (H1 Hsame)|exact H3].
Defined.

Lemma missing_measure_is_KeyError_witness :
  let self := DamageState_init "URM1" 0 1 "pga" "g" 0%nat in
  let intensity : gmap string Qc := {[ "MWH" := dec 1 ]} in
  let units : gmap string string := {[ "MWH" := "m" ]} in
  let w := run lognorm_cdf_at norm_cdf_at [OpLogncdf (dec 5.9) (dec 0.8)]
             initial_world in
  (intensity !! intensity_field self = None
   ∨ units !! intensity_field self = None)
  ∧ (get_probability_for_intensity self intensity units w).1 = Raise KeyError.
Proof.
  intros self intensity units w.
  assert (intensity !! intensity_field self = None
          ∨ units !! intensity_field self = None) as Hmiss
    by (left; reflexivity).
  split; [exact Hmiss|].
  exact (proj2 (proj1 (missing_measure_is_KeyError self intensity units w))
           Hmiss).
Defined.

Lemma measure_names_are_matched_in_upper_case_witness :
  PyStr.upper "pga" ≠ "pga"
  ∧ (get_probability_for_intensity
       (DamageState_init "URM1" 0 1 "pga" "g" 0%nat)
       ({[ "pga" := dec 1 ]} : gmap string Qc) {[ "pga" := "g" ]}
       (run lognorm_cdf_at norm_cdf_at [OpLogncdf (dec 5.9) (dec 0.8)]
          initial_world)).1
    = Raise KeyError.
Proof.
  assert (PyStr.upper "pga" ≠ "pga") as Hne by done.
  split; [exact Hne|].
  exact (proj2 (measure_names_are_matched_in_upper_case
                  "URM1" 0 1 "pga" "g" 0%nat (dec 1)
                  (run lognorm_cdf_at norm_cdf_at
                     [OpLogncdf (dec 5.9) (dec 0.8)] initial_world)) Hne).
Defined.

Lemma bounding_box_is_closed_witness :
  ((14 <= 14 ∧ 14 <= 16 ∧ 50 <= 52 ∧ 52 <= 52)%Q)
  ∧ Raster.is_location_in_bbox (Raster.raster test_raster) 14%Q 52%Q = true.
Proof.
  assert ((14 <= 14 ∧ 14 <= 16 ∧ 50 <= 52 ∧ 52 <= 52)%Q) as Hin.
  { repeat split; unfold Qle; simpl; lia. }
  split; [exact Hin|].
  exact (proj2 (bounding_box_is_closed (Raster.raster test_raster) 14%Q 52%Q)
           Hin).
Defined.

Lemma damage_label_value_witness :
  Spec.all_digits "12" = true
  ∧ Shapefile.dx_to_int "D12" = Ok 12 ∧ 0 ≤ 12.
Proof.
  split; [reflexivity|].
  exact (proj1 (damage_label_value "D" "12") eq_refl).
Defined.

Lemma mean_transition_value_witness :
  Summary.n_buildings sample_transitions ≠ []
  ∧ ∃ mean,
      Summary.compute_mean_transition sample_transitions
      = Ok (Summary.Finite mean)
      ∧ (mean == Shapefile.np_sum
                   (zip_with Qmult [2; 3; 4]
                      (zip_with (λ f t, inject_Z (t - f))
                         [0; 0; 1]%Z [1; 1; 2]%Z))
                 / inject_Z (Z.of_nat 3))%Q.
Proof.
  assert (Summary.n_buildings sample_transitions ≠ []) as Hne by done.
  split; [exact Hne|].
  exact (proj2 (mean_transition_value sample_transitions) Hne eq_refl eq_refl).
Defined.

Lemma mean_transition_nan_witness :
  (length (Summary.n_buildings transitions_without_target) = 1%nat
   ∧ ((Summary.to_damage_state transitions_without_target = []
       ∧ (length (Summary.from_damage_state transitions_without_target) ≤ 1)%nat)
      ∨ (Summary.from_damage_state transitions_without_target = []
         ∧ (length (Summary.to_damage_state transitions_without_target) ≤ 1)%nat)))
  ∧ Summary.compute_mean_transition transitions_without_target
    = Ok Summary.NaN.
Proof.
  assert (length (Summary.n_buildings transitions_without_target) = 1%nat
   ∧ ((Summary.to_damage_state transitions_without_target = []
       ∧ (length (Summary.from_damage_state transitions_without_target) ≤ 1)%nat)
      ∨ (Summary.from_damage_state transitions_without_target = []
         ∧ (length (Summary.to_damage_state transitions_without_target) ≤ 1)%nat)))
    as Hshape.
  { split; [reflexivity|]. left. split; [reflexivity|]. simpl. lia. }
  split; [exact Hshape|].
  exact (proj2 (mean_transition_nan transitions_without_target) Hshape).
Defined.

Lemma custom_columns_are_numbered_witness :
  let self :=
    Columns.set_values (Columns.CustomColumnGenerator_init "c") sample_calls in
  Dict.get "Buildings in URM1 per damage state"
    (Columns.custom_column_names self) = Some "c2"
  ∧ Dict.get "c2" (Columns.get_custom_column_mapping self)
    = Some "Buildings in URM1 per damage state".
Proof.
  intros self.
  assert (Dict.get "Buildings in URM1 per damage state"
            (Columns.custom_column_names self) = Some "c2") as Hname
    by (vm_compute; reflexivity).
  split; [exact Hname|].
  destruct (custom_columns_are_numbered "c" sample_calls) as (_ & _ & _ & Hm).
  exact (proj2 (Hm "c2" "Buildings in URM1 per damage state") Hname).
Defined.

Lemma full_columns_hold_last_values_witness :
  let self :=
    Columns.set_values (Columns.CustomColumnGenerator_init "c") sample_calls in
  Dict.get "Transitions from damage state 0"
    (Columns.custom_column_names self) = Some "c1"
  ∧ Dict.get "c1" (Columns.full_columns self [1; 2; 3])
    = Some [Some "{1: 2}"; Some "{2: 1}"; None].
Proof.
  intros self.
  assert (Dict.get "Transitions from damage state 0"
            (Columns.custom_column_names self) = Some "c1") as Hname
    by (vm_compute; reflexivity).
  split; [exact Hname|].
  exact (proj2 (full_columns_hold_last_values "c" sample_calls [1; 2; 3])
           "Transitions from damage state 0" "c1" Hname).
Defined.

Lemma transition_matrix_sums_witness :
  let rows := [(0, 1, 2%Q); (0, 1, 3%Q); (1, 2, 4%Q)] in
  let matrix' := Summary.add_transitions [] sample_transitions in
  moved rows 0 1 ≠ []
  ∧ is_Some (entry matrix' 0 1)
  ∧ (default 0 (entry matrix' 0%Z 1%Z) == 0 + Summary.py_sum [2; 3])%Q.
Proof.
  intros rows matrix'.
  assert (moved rows 0 1 ≠ []) as Hne by done.
  split; [exact Hne|].
  destruct (transition_matrix_sums [] sample_transitions 0 1) as [Hv Hp].
  split; [exact (proj2 Hp (or_intror Hne))|exact Hv].
Defined.

Lemma cell_count_keeps_last_rows_witness :
  let rows := [("URM1", "D1", 5%Q); ("URM1", "D1", 7%Q); ("CM", "D2", 1%Q)] in
  let parsed := [("URM1", 1, 5%Q); ("URM1", 1, 7%Q); ("CM", 2, 1%Q)] in
  parse_rows rows = Ok parsed
  ∧ ∃ buildings total',
      Summary.buildings_of_cell repeated_expo [] = Ok (buildings, total')
      ∧ (buildings == Summary.py_sum [7; 1])%Q
      ∧ (NoDup (fst <$> parsed) →
         (buildings == Summary.py_sum (snd <$> parsed))%Q)
      ∧ ∀ damage,
          (default 0 (Dict.get damage total')
           == default 0 (Dict.get damage []) 
              + Summary.py_sum (of_damage parsed damage))%Q.
Proof.
  intros rows parsed.
  assert (parse_rows rows = Ok parsed) as Hp by reflexivity.
  split; [exact Hp|].
  exact (proj2 (cell_count_keeps_last_rows repeated_expo []) parsed Hp).
Defined.

Lemma sample_index_wraps_around_witness :
  let band := [[17; 18; 19]; [14; 15; 16]; [11; 12; 13]]%Q in
  Raster._data raster_with_row_before_first = [band]
  ∧ Forall (λ row, length row = 3%nat) band
  ∧ (- 3 ≤ -1 < 3 ∧ - 3 ≤ 0 < 3)
  ∧ ∃ row value,
      band !! Z.to_nat (-1 mod 3) = Some row
      ∧ row !! Z.to_nat (0 mod 3) = Some value
      ∧ Raster.get_sample raster_with_row_before_first 15%Q 53%Q = Ok value.
Proof.
  intros band.
  assert (Forall (λ row, length row = 3%nat) band) as Hband
    by (repeat constructor).
  assert (- 3 ≤ -1 < 3 ∧ - 3 ≤ 0 < 3) as Hidx by lia.
  split; [reflexivity|]. split; [exact Hband|]. split; [exact Hidx|].
  exact (proj1 (sample_index_wraps_around raster_with_row_before_first
                  15%Q 53%Q band [] 3 eq_refl Hband) Hidx).
Defined.

(** * The log-normal reference scenario *)

Section ReferenceScenario.
Context {prob : Type}.
Variable lognorm_cdf norm_cdf : Qc → Qc → Qc → prob.

(** The steps of [test_fragility_data_without_sublevel] for any pair of
    distribution functions: the definition loads, the first state of
    [URM1] to state 1 starts at state 0, and its probabilities at the
    intensities 0 and 1000 are the values of the log-normal function of
    [mean = 5.9] and [stddev = 0.8]. *)
Lemma reference_scenario_values :
  let loaded :=
    to_fragility_provider lognorm_cdf norm_cdf without_sublevel
      initial_world in
  let ds_1 := mkDamageState "URM1" 0 1 "PGA" "g" 0%nat in
  let at_0 :=
    get_probability_for_intensity ds_1
      {[ "PGA" := dec 0 ]} {[ "PGA" := "g" ]} loaded.2 in
  let at_1000 :=
    get_probability_for_intensity ds_1
      {[ "PGA" := dec 1000 ]} {[ "PGA" := "g" ]} at_0.2 in
  loaded.1 = Ok without_sublevel_provider
  ∧ head (filter (λ ds, to_state ds = 1)
            (get_damage_states_for_taxonomy without_sublevel_provider "URM1"))
    = Some ds_1
  ∧ at_0.1 = Ok (lognorm_cdf (dec 5.9) (dec 0.8) (dec 0))
  ∧ at_1000.1 = Ok (lognorm_cdf (dec 5.9) (dec 0.8) (dec 1000)).
Proof.
  intros loaded ds_1 at_0 at_1000.
  split; [vm_compute; reflexivity|].
  split; [vm_compute; reflexivity|].
  split; vm_compute; reflexivity.
Qed.
End ReferenceScenario.

Import Reals Lra Qreals Factorial RealModel.
Local Open Scope R_scope.

Lemma exp_series_decreasing (x : R) :
  0 <= x <= 1 -> Un_decreasing (fun i => x ^ i / INR (fact i)).
Proof.
  intros [H0 H1] n. rewrite fact_simpl, mult_INR. simpl pow.
  assert (0 < INR (fact n)) as Hf by apply INR_fact_lt_0.
  assert (1 <= INR (S n)) as Hn.
  { rewrite S_INR. pose proof (pos_INR n). lra. }
  assert (0 <= x ^ n) as Hp by (apply pow_le; lra).
  unfold Rdiv. rewrite Rinv_mult.
  replace (x * x ^ n * (/ INR (S n) * / INR (fact n)))
    with ((x * / INR (S n)) * (x ^ n * / INR (fact n))) by ring.
  rewrite <- (Rmult_1_l (x ^ n * / INR (fact n))) at 2.
  apply Rmult_le_compat_r.
  - apply Rmult_le_pos; [exact Hp|]. left. apply Rinv_0_lt_compat, Hf.
  - apply Rmult_le_reg_r with (INR (S n)); [lra|].
    rewrite Rmult_assoc, Rinv_l by lra. lra.
Qed.

Lemma exp_neg_series (x : R) :
  Un_cv (fun N => sum_f_R0 (tg_alt (fun i => x ^ i / INR (fact i))) N)
    (exp (- x)).
Proof.
  unfold exp. destruct (exist_exp (- x)) as [l Hl]. simpl.
  unfold exp_in, infinite_sum in Hl. intros eps Heps.
  destruct (Hl eps Heps) as [N0 HN0]. exists N0. intros n Hn.
  replace (sum_f_R0 (tg_alt (fun i => x ^ i / INR (fact i))) n)
    with (sum_f_R0 (fun i => / INR (fact i) * (- x) ^ i) n);
    [apply HN0; exact Hn|].
  apply sum_eq. intros i _. unfold tg_alt.
  replace (- x) with (-1 * x) by ring. rewrite Rpow_mult_distr.
  unfold Rdiv. ring.
Qed.

Lemma exp_neg_bounds (x : R) (N : nat) :
  0 <= x <= 1 ->
  sum_f_R0 (tg_alt (fun i => x ^ i / INR (fact i))) (S (2 * N)) <= exp (- x)
  /\ exp (- x) <= sum_f_R0 (tg_alt (fun i => x ^ i / INR (fact i))) (2 * N).
Proof.
  intros Hx. apply alternated_series_ineq.
  - apply exp_series_decreasing, Hx.
  - apply cv_speed_pow_fact.
  - apply exp_neg_series.
Qed.

Lemma Q2R_inject_nat (n : nat) : Q2R (inject_Z (Z.of_nat n)) = INR n.
Proof. unfold Q2R. simpl. rewrite INR_IZR_INZ. field. Qed.

Lemma exp_sum_Q_spec (x : Q) (n : nat) :
  Q2R (fst (exp_sum_Q x n)) = sum_f_R0 (fun i => Q2R x ^ i / INR (fact i)) n
  /\ Q2R (snd (exp_sum_Q x n)) = Q2R x ^ n / INR (fact n).
Proof.
  induction n as [|n [IHs IHt]].
  - simpl. split; unfold Q2R; simpl; field.
  - cbn [exp_sum_Q]. destruct (exp_sum_Q x n) as [s t]. cbn [fst snd] in *.
    assert (Q2R (t * x / inject_Z (Z.of_nat (S n)))
            = Q2R x ^ S n / INR (fact (S n))) as Ht.
    { rewrite Q2R_div, Q2R_mult, Q2R_inject_nat, IHt.
      - rewrite fact_simpl, mult_INR. simpl pow. field. split.
        + apply INR_fact_neq_0.
        + apply not_0_INR. discriminate.
      - intros Hz. apply Qeq_eqR in Hz. rewrite Q2R_inject_nat in Hz.
        change (Q2R 0) with (0 * / 1) in Hz.
        revert Hz. rewrite Rmult_0_l. apply not_0_INR. discriminate. }
    split; [|exact Ht].
    rewrite Q2R_plus, IHs, Ht. reflexivity.
Qed.

Lemma alt_sum_neg (x : R) (n : nat) :
  sum_f_R0 (tg_alt (fun i => x ^ i / INR (fact i))) n
  = sum_f_R0 (fun i => (- x) ^ i / INR (fact i)) n.
Proof.
  apply sum_eq. intros i _. unfold tg_alt.
  replace (- x) with (-1 * x) by ring. rewrite Rpow_mult_distr.
  unfold Rdiv. ring.
Qed.

Lemma exp_neg_bounds_Q (x : Q) (N : nat) :
  (0 <= x)%Q -> (x <= 1)%Q ->
  Q2R (fst (exp_sum_Q (- x) (S (2 * N)))) <= exp (- Q2R x)
  /\ exp (- Q2R x) <= Q2R (fst (exp_sum_Q (- x) (2 * N))).
Proof.
  intros H0 H1.
  assert (0 <= Q2R x <= 1) as Hx.
  { split.
    - replace 0 with (Q2R 0) by (unfold Q2R; simpl; field).
      apply Qle_Rle, H0.
    - replace 1 with (Q2R 1) by (unfold Q2R; simpl; field).
      apply Qle_Rle, H1. }
  destruct (exp_neg_bounds (Q2R x) N Hx) as [Hl Hu].
  rewrite !(proj1 (exp_sum_Q_spec _ _)), Q2R_opp, <- !alt_sum_neg.
  split; assumption.
Qed.

Lemma exp_8 (y : R) : exp (8 * y) = exp y ^ 8.
Proof.
  replace (8 * y) with (y + y + y + y + y + y + y + y) by ring.
  rewrite !exp_plus. ring.
Qed.

Lemma Q2R_pow8 (q : Q) :
  Q2R (((q * q) * (q * q)) * ((q * q) * (q * q))) = Q2R q ^ 8.
Proof. rewrite !Q2R_mult. ring. Qed.

Lemma Q2R_lt_0 (q : Q) : (0 < q)%Q -> 0 < Q2R q.
Proof.
  intros H. replace 0 with (Q2R 0) by (unfold Q2R; simpl; field).
  apply Qlt_Rlt, H.
Qed.

(** [exp] of eight times a rational of [[0, 1]], between rationals. *)
Lemma exp_8_upper (x s : Q) (N : nat) :
  (0 <= x)%Q -> (x <= 1)%Q ->
  s = fst (exp_sum_Q (- x) (S (2 * N))) -> (0 < s)%Q ->
  exp (8 * Q2R x)
  <= Q2R (((/ s * / s) * (/ s * / s)) * ((/ s * / s) * (/ s * / s))).
Proof.
  intros H0 H1 -> Hs.
  destruct (exp_neg_bounds_Q x N H0 H1) as [Hl _].
  pose proof (Q2R_lt_0 _ Hs) as Hs'.
  rewrite exp_8, Q2R_pow8. apply pow_incr. split.
  - left. apply exp_pos.
  - rewrite Q2R_inv by (intros Hz; rewrite Hz in Hs; discriminate).
    rewrite <- (Rinv_inv (exp (Q2R x))), <- exp_Ropp.
    apply Rinv_le_contravar; assumption.
Qed.

Lemma exp_8_lower (x s : Q) (N : nat) :
  (0 <= x)%Q -> (x <= 1)%Q ->
  s = fst (exp_sum_Q (- x) (2 * N)) ->
  Q2R (((/ s * / s) * (/ s * / s)) * ((/ s * / s) * (/ s * / s)))
  <= exp (8 * Q2R x).
Proof.
  intros H0 H1 ->.
  destruct (exp_neg_bounds_Q x N H0 H1) as [_ Hu].
  pose proof (exp_pos (- Q2R x)) as Hp.
  set (s := fst (exp_sum_Q (- x) (2 * N))) in *.
  assert (~ (s == 0)%Q) as Hs.
  { intros Hz. apply Qeq_eqR in Hz. revert Hz.
    replace (Q2R 0) with 0 by (unfold Q2R; simpl; field). lra. }
  rewrite exp_8, Q2R_pow8. apply pow_incr. split.
  - rewrite Q2R_inv by exact Hs. left. apply Rinv_0_lt_compat. lra.
  - rewrite Q2R_inv by exact Hs.
    rewrite <- (Rinv_inv (exp (Q2R x))), <- exp_Ropp.
    apply Rinv_le_contravar; assumption.
Qed.

Lemma ln_1000_lower : 69076 / 10000 < ln 1000.
Proof.
  apply exp_lt_inv. rewrite exp_ln by lra.
  replace (69076 / 10000) with (8 * Q2R (17269 # 20000))
    by (unfold Q2R; simpl; field).
  eapply Rle_lt_trans.
  - apply (exp_8_upper (17269 # 20000)
             (fst (exp_sum_Q (- (17269 # 20000)) (S (2 * 5)))) 5);
      [discriminate|discriminate|reflexivity|].
    vm_compute. reflexivity.
  - replace 1000 with (Q2R 1000) by (unfold Q2R; simpl; field).
    apply Qlt_Rlt. vm_compute. reflexivity.
Qed.

Lemma ln_1000_upper : ln 1000 < 69096 / 10000.
Proof.
  apply exp_lt_inv. rewrite exp_ln by lra.
  replace (69096 / 10000) with (8 * Q2R (8637 # 10000))
    by (unfold Q2R; simpl; field).
  eapply Rlt_le_trans.
  2: apply (exp_8_lower (8637 # 10000)
              (fst (exp_sum_Q (- (8637 # 10000)) (2 * 5))) 5);
       [discriminate|discriminate|reflexivity].
  replace 1000 with (Q2R 1000) by (unfold Q2R; simpl; field).
  apply Qlt_Rlt. vm_compute. reflexivity.
Qed.

Lemma half_square_pow (t : R) (i : nat) :
  (t ^ 2 / 2) ^ i = t ^ (2 * i) / 2 ^ i.
Proof.
  induction i as [|i IH].
  - simpl. field.
  - replace (2 * S i)%nat with (S (S (2 * i))) by lia.
    change ((t ^ 2 / 2) ^ S i) with (t ^ 2 / 2 * (t ^ 2 / 2) ^ i).
    rewrite IH.
    change (t ^ S (S (2 * i))) with (t * (t * t ^ (2 * i))).
    change (2 ^ S i) with (2 * 2 ^ i). field.
    apply pow_nonzero. lra.
Qed.

Lemma gauss_poly_term (i : nat) (t : R) :
  gauss_coeff i * (INR (2 * i + 1) * t ^ pred (2 * i + 1))
  = tg_alt (fun i => (t ^ 2 / 2) ^ i / INR (fact i)) i.
Proof.
  unfold gauss_coeff, tg_alt.
  replace (pred (2 * i + 1)) with (2 * i)%nat by lia.
  rewrite half_square_pow.
  field. repeat split;
    solve [apply INR_fact_neq_0 | apply pow_nonzero; lra | apply not_0_INR; lia].
Qed.

Lemma gauss_primitive_derivative (n : nat) (t : R) :
  derivable_pt_lim (gauss_primitive n) t (gauss_poly n t).
Proof.
  induction n as [|n IH].
  - unfold gauss_primitive, gauss_poly. cbn [sum_f_R0].
    rewrite <- gauss_poly_term.
    apply (derivable_pt_lim_scal (fun z => z ^ (2 * 0 + 1)) (gauss_coeff 0)).
    apply derivable_pt_lim_pow.
  - unfold gauss_primitive, gauss_poly in *. cbn [sum_f_R0].
    apply (derivable_pt_lim_plus
             (fun z => sum_f_R0 (fun i => gauss_coeff i * z ^ (2 * i + 1)) n)
             (fun z => gauss_coeff (S n) * z ^ (2 * S n + 1))).
    + exact IH.
    + rewrite <- gauss_poly_term.
      apply (derivable_pt_lim_scal (fun z => z ^ (2 * S n + 1))
               (gauss_coeff (S n))).
      apply derivable_pt_lim_pow.
Qed.

Lemma gauss_poly_continuous (n : nat) : continuity (gauss_poly n).
Proof.
  induction n as [|n IH].
  - unfold gauss_poly, tg_alt. cbn [sum_f_R0]. reg.
  - unfold gauss_poly in *. cbn [sum_f_R0].
    apply (continuity_plus
             (fun t => sum_f_R0
                         (tg_alt (fun i => (t ^ 2 / 2) ^ i / INR (fact i))) n)
             (fun t => tg_alt (fun i => (t ^ 2 / 2) ^ i / INR (fact i)) (S n))).
    + exact IH.
    + unfold tg_alt. reg.
Qed.

Lemma gauss_poly_integral (n : nat) (a b : R)
    (pr : Riemann_integrable (gauss_poly n) a b) :
  RiemannInt pr = gauss_primitive n b - gauss_primitive n a.
Proof.
  pose (d := fun x => exist (fun l => derivable_pt_abs (gauss_primitive n) x l)
                        (gauss_poly n x) (gauss_primitive_derivative n x)
             : derivable_pt (gauss_primitive n) x).
  pose (F := @mkC1 (gauss_primitive n) d (gauss_poly_continuous n)).
  exact (FTC_Riemann F pr).
Qed.

Lemma gauss_between_polys (N : nat) (t : R) :
  t ^ 2 <= 2 ->
  gauss_poly (S (2 * N)) t <= gauss t /\ gauss t <= gauss_poly (2 * N) t.
Proof.
  intros Ht. unfold gauss, gauss_poly. apply exp_neg_bounds.
  pose proof (pow2_ge_0 t). lra.
Qed.

Lemma gauss_poly_integrable (n : nat) (a b : R) :
  a <= b -> Riemann_integrable (gauss_poly n) a b.
Proof.
  intros Hab. apply continuity_implies_RiemannInt; [exact Hab|].
  intros x _. apply gauss_poly_continuous.
Qed.

Lemma gauss_primitive_0 (n : nat) : gauss_primitive n 0 = 0.
Proof.
  unfold gauss_primitive. induction n as [|n IH]; cbn [sum_f_R0].
  - simpl. ring.
  - rewrite IH. replace (2 * S n + 1)%nat with (S (2 * S n)) by lia.
    simpl pow. ring.
Qed.

(** The integral of the density from [0] to [z], for [0 <= z] and
    [z ^ 2 <= 2], between the primitives of two Taylor polynomials. *)
Lemma gauss_integral_bounds (N : nat) (z : R)
    (pr : Riemann_integrable gauss 0 z) :
  0 <= z -> z ^ 2 <= 2 ->
  gauss_primitive (S (2 * N)) z <= RiemannInt pr
  /\ RiemannInt pr <= gauss_primitive (2 * N) z.
Proof.
  intros Hz Hz2.
  assert (forall t, 0 < t < z -> t ^ 2 <= 2) as Hin.
  { intros t [Ht0 Htz]. apply Rle_trans with (z ^ 2); [|exact Hz2].
    apply pow_incr. lra. }
  split.
  - pose proof (gauss_poly_integral _ _ _
                  (gauss_poly_integrable (S (2 * N)) 0 z Hz)) as Hint.
    rewrite gauss_primitive_0, Rminus_0_r in Hint. rewrite <- Hint.
    apply RiemannInt_P19; [exact Hz|].
    intros t Ht. apply gauss_between_polys, Hin, Ht.
  - pose proof (gauss_poly_integral _ _ _
                  (gauss_poly_integrable (2 * N) 0 z Hz)) as Hint.
    rewrite gauss_primitive_0, Rminus_0_r in Hint. rewrite <- Hint.
    apply RiemannInt_P19; [exact Hz|].
    intros t Ht. apply gauss_between_polys, Hin, Ht.
Qed.

Lemma gauss_integral_increasing (a b : R)
    (pra : Riemann_integrable gauss 0 a) (prb : Riemann_integrable gauss 0 b) :
  0 <= a -> a <= b -> RiemannInt pra <= RiemannInt prb.
Proof.
  intros Ha Hab.
  rewrite <- (RiemannInt_P26 pra (gauss_integrable a b) prb).
  assert (0 <= RiemannInt (gauss_integrable a b)); [|lra].
  destruct (RiemannInt_const_bound (l := 0) (u := 1) (gauss_integrable a b) Hab)
    as [Hl _].
  - intros x _. unfold gauss. split.
    + left. apply exp_pos.
    + rewrite <- exp_0. 
      destruct (Rle_lt_or_eq_dec 0 (x ^ 2 / 2)) as [Hlt|Heq].
      * pose proof (pow2_ge_0 x). lra.
      * left. apply exp_increasing. lra.
      * rewrite <- Heq. rewrite Ropp_0. lra.
  - lra.
Qed.

Lemma gauss_sum_Q_spec (z : Q) (n : nat) :
  Q2R (fst (gauss_sum_Q z n)) = gauss_primitive n (Q2R z)
  /\ Q2R (snd (gauss_sum_Q z n))
     = (-1) ^ n * (Q2R z ^ (2 * n) / 2 ^ n) / INR (fact n).
Proof.
  induction n as [|n [IHs IHu]].
  - unfold gauss_primitive, gauss_coeff. simpl. split.
    + field.
    + unfold Q2R. simpl. field.
  - cbn [gauss_sum_Q]. destruct (gauss_sum_Q z n) as [s u].
    cbn [fst snd] in *.
    assert (forall k, ~ (inject_Z (Z.of_nat (S k)) == 0)%Q) as Hnz.
    { intros k Hz. apply Qeq_eqR in Hz. rewrite Q2R_inject_nat in Hz.
      revert Hz. replace (Q2R 0) with 0 by (unfold Q2R; simpl; field).
      apply not_0_INR. discriminate. }
    assert (Q2R (u * - (z * z / 2) / inject_Z (Z.of_nat (S n)))
            = (-1) ^ S n * (Q2R z ^ (2 * S n) / 2 ^ S n) / INR (fact (S n)))
      as Hu.
    { rewrite Q2R_div by apply Hnz.
      rewrite Q2R_mult, Q2R_opp, Q2R_div by discriminate.
      rewrite Q2R_mult, Q2R_inject_nat, IHu.
      replace (Q2R 2) with 2 by (unfold Q2R; simpl; field).
      rewrite fact_simpl, mult_INR.
      replace (2 * S n)%nat with (S (S (2 * n))) by lia.
      simpl pow. field. repeat split;
        solve [apply INR_fact_neq_0 | apply pow_nonzero; lra
              | apply not_0_INR; lia]. }
    split; [|exact Hu].
    replace (2 * S n + 1)%nat with (S (2 * n + 2)) by lia.
    rewrite Q2R_plus, Q2R_div by apply Hnz.
    rewrite Q2R_mult, Hu, IHs, Q2R_inject_nat.
    unfold gauss_primitive. cbn [sum_f_R0]. f_equal.
    unfold gauss_coeff.
    replace (2 * S n + 1)%nat with (S (2 * n + 2)) by lia.
    replace (2 * S n)%nat with (S (S (2 * n))) by lia.
    replace (2 * n + 2)%nat with (S (S (2 * n))) by lia.
    simpl pow. field. repeat split;
      solve [apply INR_fact_neq_0 | apply pow_nonzero; lra
            | apply not_0_INR; lia].
Qed.

Lemma PI_bounds : 3141 / 1000 < PI < 31425 / 10000.
Proof.
  destruct (PI_2_3_7_ineq 1) as [Hl Hu].
  unfold sum_f_R0, tg_alt, PI_2_3_7_tg, Ratan_seq in Hl, Hu.
  simpl in Hl, Hu.
  split; lra.
Qed.

Lemma sqrt_2PI_bounds : 2506 / 1000 < sqrt (2 * PI) < 2507 / 1000.
Proof.
  destruct PI_bounds as [Hl Hu]. split.
  - rewrite <- (sqrt_square (2506 / 1000)) by lra.
    apply sqrt_lt_1; lra.
  - rewrite <- (sqrt_square (2507 / 1000)) by lra.
    apply sqrt_lt_1; lra.
Qed.

Lemma gauss_integral_at (z : R) (pr : Riemann_integrable gauss 0 z) :
  12595 / 10000 <= z <= 1262 / 1000 ->
  9928 / 10000 <= RiemannInt pr <= 9940 / 10000.
Proof.
  intros [Hl Hu]. split.
  - apply Rle_trans
      with (RiemannInt (gauss_integrable 0 (Q2R (12595 # 10000)))).
    + apply Rle_trans with (gauss_primitive (S (2 * 3)) (Q2R (12595 # 10000))).
      * rewrite <- (proj1 (gauss_sum_Q_spec _ _)).
        replace (9928 / 10000) with (Q2R (9928 # 10000))
          by (unfold Q2R; simpl; field).
        apply RMicromega.Qle_true. vm_compute. reflexivity.
      * apply gauss_integral_bounds; unfold Q2R; simpl; lra.
    + apply gauss_integral_increasing; unfold Q2R; simpl; lra.
  - apply Rle_trans
      with (RiemannInt (gauss_integrable 0 (Q2R (1262 # 1000)))).
    + apply gauss_integral_increasing; unfold Q2R; simpl; lra.
    + apply Rle_trans with (gauss_primitive (2 * 3) (Q2R (1262 # 1000))).
      * apply gauss_integral_bounds; unfold Q2R; simpl; lra.
      * rewrite <- (proj1 (gauss_sum_Q_spec _ _)).
        replace (9940 / 10000) with (Q2R (9940 # 10000))
          by (unfold Q2R; simpl; field).
        apply RMicromega.Qle_true. vm_compute. reflexivity.
Qed.

Lemma Phi_reference :
  896 / 1000 < Phi ((ln 1000 - 59 / 10) / (8 / 10)) < 897 / 1000.
Proof.
  pose proof ln_1000_lower as Hl. pose proof ln_1000_upper as Hu.
  set (z := (ln 1000 - 59 / 10) / (8 / 10)).
  assert (12595 / 10000 <= z <= 1262 / 1000) as Hz.
  { unfold z. split.
    - apply Rmult_le_reg_r with (8 / 10); [lra|].
      unfold Rdiv at 3. rewrite Rmult_assoc, Rinv_l by lra. lra.
    - apply Rmult_le_reg_r with (8 / 10); [lra|].
      unfold Rdiv at 1. rewrite Rmult_assoc, Rinv_l by lra. lra. }
  unfold Phi.
  destruct (gauss_integral_at z (gauss_integrable 0 z) Hz) as [Hil Hiu].
  destruct sqrt_2PI_bounds as [Hsl Hsu].
  set (i := RiemannInt (gauss_integrable 0 z)) in *.
  set (s := sqrt (2 * PI)) in *.
  assert (0 < s) as Hs by lra.
  assert (396 / 1000 < i / s < 397 / 1000) as [H1 H2].
  { split.
    - apply Rmult_lt_reg_r with s; [exact Hs|].
      unfold Rdiv at 2. rewrite Rmult_assoc, Rinv_l by lra. lra.
    - apply Rmult_lt_reg_r with s; [exact Hs|].
      unfold Rdiv at 1. rewrite Rmult_assoc, Rinv_l by lra. lra. }
  lra.
Qed.

Lemma lognorm_cdf_model_at_0 :
  lognorm_cdf_model (dec 5.9) (dec 0.8) (dec 0) = 0.
Proof. reflexivity. Qed.

Lemma lognorm_cdf_model_at_1000 :
  lognorm_cdf_model (dec 5.9) (dec 0.8) (dec 1000)
  = Phi ((ln 1000 - 59 / 10) / (8 / 10)).
Proof.
  unfold lognorm_cdf_model.
  change (this (dec 1000)) with (1000 # 1)%Q.
  change (this (dec 5.9)) with (59 # 10)%Q.
  change (this (dec 0.8)) with (4 # 5)%Q.
  destruct (Qlt_le_dec 0 (1000 # 1)) as [_|Hle];
    [|exfalso; apply Hle; reflexivity].
  replace (Q2R (1000 # 1)) with 1000 by (unfold Q2R; simpl; field).
  replace (Q2R (59 # 10)) with (59 / 10) by (unfold Q2R; simpl; field).
  replace (Q2R (4 # 5)) with (8 / 10) by (unfold Q2R; simpl; field).
  reflexivity.
Qed.

(** Claim C9 (the log-normal reference scenario).  With the distribution
    functions as scipy documents them, over the real numbers, the steps of
    [test_fragility_data_without_sublevel] go through: the definition
    loads, the first state of [URM1] to state 1 starts at state 0, its
    probability at intensity 0 is less than 0.0001 in absolute value, and
    its probability at intensity 1000 is strictly between 0.896 and
    0.897. *)
Theorem lognormal_reference_scenario :
  exists provider w ds_1 p_0 w0 p_1 w1,
    to_fragility_provider lognorm_cdf_model norm_cdf_model without_sublevel
      initial_world
    = (Ok provider, w)
    /\ head (filter (fun ds => to_state ds = 1%Z)
              (get_damage_states_for_taxonomy provider "URM1"))
       = Some ds_1
    /\ from_state ds_1 = 0%Z
    /\ get_probability_for_intensity ds_1
         {[ "PGA" := dec 0 ]} {[ "PGA" := "g" ]} w
       = (Ok p_0, w0)
    /\ Rabs p_0 < 1 / 10000
    /\ get_probability_for_intensity ds_1
         {[ "PGA" := dec 1000 ]} {[ "PGA" := "g" ]} w0
       = (Ok p_1, w1)
    /\ 896 / 1000 < p_1 < 897 / 1000.
Proof.
  pose proof (reference_scenario_values lognorm_cdf_model norm_cdf_model)
    as Hs.
  cbv zeta in Hs. destruct Hs as (Hload & Hds & Hp0 & Hp1).
  set (loaded := to_fragility_provider lognorm_cdf_model norm_cdf_model
                   without_sublevel initial_world) in *.
  set (ds_1 := mkDamageState "URM1" 0 1 "PGA" "g" 0%nat) in *.
  set (at_0 := get_probability_for_intensity ds_1
                 {[ "PGA" := dec 0 ]} {[ "PGA" := "g" ]} loaded.2) in *.
  set (at_1000 := get_probability_for_intensity ds_1
                    {[ "PGA" := dec 1000 ]} {[ "PGA" := "g" ]} at_0.2) in *.
  exists without_sublevel_provider, loaded.2, ds_1,
    (lognorm_cdf_model (dec 5.9) (dec 0.8) (dec 0)), at_0.2,
    (lognorm_cdf_model (dec 5.9) (dec 0.8) (dec 1000)), at_1000.2.
  split; [rewrite <- Hload; apply surjective_pairing|].
  split; [exact Hds|]. split; [reflexivity|].
  split; [rewrite <- Hp0; apply surjective_pairing|]. split.
  - rewrite lognorm_cdf_model_at_0, Rabs_R0. lra.
  - split; [rewrite <- Hp1; apply surjective_pairing|].
    rewrite lognorm_cdf_model_at_1000. exact Phi_reference.
Qed.

Local Close Scope R_scope.
